(** * cliq: a verification development for the appointment automation

    The repository is a browser extension that drives one booking site:
    an element locator ([ElementFinder.findElement]), a page synchroniser
    ([waitForNetworkIdle]), a form filler ([fillInput]), a step sequencer
    ([AppointmentAutomation.start]), a continuous search loop
    ([AppointmentSearchAutomation]) and a runtime configuration
    ([AUTOMATION_CONFIG], [updateConfig]).

    Each component is embedded as executable Rocq definitions that follow the
    TypeScript source statement by statement.  The browser (DOM, timers,
    promises) is the environment: it is modelled by explicit state, and each
    module says which platform behaviour it relies on. *)

From stdpp Require Import gmap strings list fin_maps.
From Stdlib Require Import Ascii.

Set Warnings "-register-all".
Local Open Scope string_scope.
Local Open Scope list_scope.
Local Open Scope nat_scope.

(* ===================================================================== *)
(** ** Configuration: [AUTOMATION_CONFIG] and [updateConfig] (config.ts)  *)
(* ===================================================================== *)

Module Config.

(** JavaScript values as far as the configuration object needs them.  A
    [JObj] is a plain object as an object literal without a [__proto__]
    entry, [JSON.parse] or a message from the popup creates it: a finite
    map of own enumerable data properties, with [Object.prototype] as its
    prototype. *)
Inductive jsval : Type :=
| JUndef : jsval
| JNull : jsval
| JBool : bool → jsval
| JNum : Z → jsval
| JStr : string → jsval
| JArr : list jsval → jsval
| JObj : gmap string jsval → jsval.

(** The [[Prototype]] of the configuration object: [Object.prototype] as
    the literal in config.ts gives it, or what an assignment to
    [__proto__] has put there. *)
Inductive prototype :=
| ObjectPrototype
| NullPrototype
| Inherits (v : jsval).

(** The configuration object: its own properties and its prototype. *)
Record object := Object {
  own : gmap string jsval;
  proto : prototype
}.

(** Whether the lookup of ["__proto__"] along the prototype chain ends
    before it reaches the accessor of [Object.prototype]: the chain is
    empty, or an object on it has an own property of that name. *)
Definition hides_accessor (p : prototype) : bool :=
  match p with
  | ObjectPrototype => false
  | NullPrototype => true
  | Inherits (JObj o) => bool_decide (is_Some (o !! "__proto__"))
  | Inherits _ => false
  end.

(** The setter of [Object.prototype.__proto__]: an object or [null]
    becomes the prototype, any other value is ignored. *)
Definition set_prototype (v : jsval) (t : object) : object :=
  match v with
  | JObj _ | JArr _ => Object (own t) (Inherits v)
  | JNull => Object (own t) NullPrototype
  | _ => t
  end.

(** [target[k] = v], the [[Set]] that [Object.assign] performs.  The
    objects on the prototype chain hold writable data properties only,
    except for the accessor [__proto__] of [Object.prototype]; so the
    assignment creates or overwrites an own property of [target], unless
    the key is ["__proto__"] and reaches that accessor. *)
Definition set (k : string) (v : jsval) (t : object) : object :=
  if decide (k = "__proto__") then
    if bool_decide (is_Some (own t !! k)) || hides_accessor (proto t)
    then Object (<[k := v]> (own t)) (proto t)
    else set_prototype v t
  else Object (<[k := v]> (own t)) (proto t).

(** [Object.assign(target, source)]: every own enumerable property of
    [source] is assigned to [target].  Nothing is read below the top level
    of [source].  The order of the assignments makes no difference
    ([set_comm]). *)
Definition object_assign (target : object) (source : gmap string jsval) : object :=
  map_fold set target source.

(** [export function updateConfig(newConfig) { Object.assign(AUTOMATION_CONFIG, newConfig); }]
    The process-wide configuration is passed in and out explicitly. *)
Definition updateConfig (AUTOMATION_CONFIG : object) (newConfig : gmap string jsval)
  : object :=
  object_assign AUTOMATION_CONFIG newConfig.

(** [AutomationController.updateConfig]: delegates, then logs. *)
Definition controller_updateConfig
    (st : object * list string) (newConfig : gmap string jsval)
  : object * list string :=
  (updateConfig st.1 newConfig, st.2 ++ ["Configuration updated"]).

(** The own property [field] of the object that is the own property
    [section] of the configuration, if there is one. *)
Definition section_field (section field : string) (cfg : object) : option jsval :=
  match own cfg !! section with
  | Some (JObj o) => o !! field
  | _ => None
  end.

(** The shipped [AUTOMATION_CONFIG], without its [selectors] section (tables
    of strings, which no statement below looks into). *)
Definition appointmentData : jsval :=
  JObj (list_to_map
    [("firstName", JStr "charbel"); ("lastName", JStr "tannous");
     ("healthInsuranceNumber", JStr "TANC03013017");
     ("sequentialNumber", JStr "03"); ("dateOfBirth", JStr "2003-01-30");
     ("postalCode", JStr "H4n1c7"); ("searchRadius", JStr "25");
     ("reason", JStr "Consultation")]).

Definition searchBehavior : jsval :=
  JObj (list_to_map
    [("searchInterval", JNum 30000); ("maxSearchAttempts", JNum 0);
     ("playSoundOnFound", JBool true); ("stopOnFound", JBool false)]).

Definition timeouts : jsval :=
  JObj (list_to_map
    [("elementWait", JNum 30000); ("pageTransition", JNum 5000)]).

Definition AUTOMATION_CONFIG : object :=
  Object
    (list_to_map
       [("appointmentData", appointmentData);
        ("searchBehavior", searchBehavior);
        ("timeouts", timeouts)])
    ObjectPrototype.

(** *** Lemmas *)

Lemma set_plain k v t :
  k ≠ "__proto__" → set k v t = Object (<[k := v]> (own t)) (proto t).
Proof. intros H. unfold set. by rewrite decide_False. Qed.

Lemma own_set_ne k v t j :
  j ≠ k → own (set k v t) !! j = own t !! j.
Proof.
  intros H. unfold set, set_prototype.
  destruct (decide _); [destruct (_ || _)|]; simpl;
    rewrite ?lookup_insert_ne by done; try done.
  by destruct v.
Qed.

Lemma own_set_eq k v t :
  k ≠ "__proto__" → own (set k v t) !! k = Some v.
Proof. intros H. rewrite set_plain by done. simpl. by rewrite lookup_insert_eq. Qed.

Lemma proto_set k v t :
  k ≠ "__proto__" → proto (set k v t) = proto t.
Proof. intros H. by rewrite set_plain. Qed.

(** Assignments to different keys commute. *)
Lemma set_comm k1 v1 k2 v2 t :
  k1 ≠ k2 → set k1 v1 (set k2 v2 t) = set k2 v2 (set k1 v1 t).
Proof.
  assert (Hone : ∀ k v u t, k ≠ "__proto__" →
            set "__proto__" u (set k v t) = set k v (set "__proto__" u t)).
  { intros k v u t0 Hk. rewrite !(set_plain k) by done.
    unfold set. rewrite !decide_True by done. cbn [own proto].
    rewrite lookup_insert_ne by done.
    destruct (_ || _); cbn [own proto].
    - by rewrite insert_insert_ne.
    - unfold set_prototype. destruct u; cbn [own proto]; done. }
  intros H. destruct (decide (k1 = "__proto__")) as [->|H1];
    [|destruct (decide (k2 = "__proto__")) as [->|H2]].
  - by apply Hone.
  - symmetry. by apply Hone.
  - rewrite !set_plain by done. cbn [own proto]. by rewrite insert_insert_ne.
Qed.

Lemma object_assign_insert t k v m :
  m !! k = None → object_assign t (<[k := v]> m) = set k v (object_assign t m).
Proof.
  intros H. unfold object_assign. apply map_fold_insert_L; [|done].
  intros j1 j2 z1 z2 y Hne _ _. by apply set_comm.
Qed.

(** What [Object.assign] leaves under a key other than ["__proto__"]. *)
Lemma object_assign_own (target : object) (source : gmap string jsval) k :
  k ≠ "__proto__" →
  own (object_assign target source) !! k = (source ∪ own target) !! k.
Proof.
  intros Hk. unfold object_assign.
  apply (map_fold_weak_ind
           (λ r m, own r !! k = (m ∪ own target) !! k)).
  - by rewrite (left_id_L ∅ (∪)).
  - intros i x m r Hi IH. destruct (decide (k = i)) as [<-|Hne].
    + rewrite own_set_eq by done.
      symmetry. apply lookup_union_Some_l. by rewrite lookup_insert_eq.
    + rewrite own_set_ne by done. rewrite IH.
      rewrite <- insert_union_l. by rewrite lookup_insert_ne.
Qed.

(** A source without the key ["__proto__"] is merged into the own
    properties and leaves the prototype alone. *)
Lemma object_assign_plain (target : object) (source : gmap string jsval) :
  source !! "__proto__" = None →
  object_assign target source = Object (source ∪ own target) (proto target).
Proof.
  unfold object_assign.
  apply (map_fold_weak_ind
           (λ r m, m !! "__proto__" = None →
                   r = Object (m ∪ own target) (proto target))).
  - intros _. rewrite (left_id_L ∅ (∪)). by destruct target.
  - intros i x m r Hi IH Hp.
    assert (Hne : i ≠ "__proto__").
    { intros ->. by rewrite lookup_insert_eq in Hp. }
    rewrite lookup_insert_ne in Hp by done.
    rewrite (IH Hp), set_plain by done. cbn [own proto].
    by rewrite insert_union_l.
Qed.

(** C9.  [updateConfig] (and the controller method that delegates to it)
    is a shallow merge of own properties.  For every configuration, every
    partial configuration and every top-level key other than ["__proto__"]:
    a key present in the partial takes the partial's value as it is, so the
    section holds exactly the fields of the partial's object and a field
    that object omits is lost, whatever the old section held; a key absent
    from the partial keeps its old value.  A partial that has no own key
    ["__proto__"] leaves the prototype of the configuration as it was, so
    nothing else changes. *)
Theorem updateConfig_shallow_merge
    (cfg : object) (newConfig : gmap string jsval) (logs : list string)
    (k : string) :
  k ≠ "__proto__" →
  (controller_updateConfig (cfg, logs) newConfig).1 = updateConfig cfg newConfig
  ∧ (∀ v, newConfig !! k = Some v →
       own (updateConfig cfg newConfig) !! k = Some v)
  ∧ (∀ o f, newConfig !! k = Some (JObj o) →
       section_field k f (updateConfig cfg newConfig) = o !! f)
  ∧ (newConfig !! k = None →
       own (updateConfig cfg newConfig) !! k = own cfg !! k)
  ∧ (newConfig !! "__proto__" = None →
       proto (updateConfig cfg newConfig) = proto cfg).
Proof.
  intros Hk. split; [reflexivity|]. unfold updateConfig.
  split; [|split; [|split]].
  - intros v Hv. rewrite object_assign_own by done.
    by apply lookup_union_Some_l.
  - intros o f Hv. unfold section_field. rewrite object_assign_own by done.
    by rewrite (lookup_union_Some_l _ _ _ _ Hv).
  - intros Hn. rewrite object_assign_own by done. by apply lookup_union_r.
  - intros Hp. by rewrite object_assign_plain.
Qed.

(** A partial that sets only [searchBehavior.maxSearchAttempts]. *)
Definition cap_only : gmap string jsval :=
  {[ "searchBehavior" := JObj {[ "maxSearchAttempts" := JNum 3 ]} ]}.

Lemma updateConfig_shallow_merge_witness :
  section_field "searchBehavior" "maxSearchAttempts"
    (updateConfig AUTOMATION_CONFIG cap_only) = Some (JNum 3)
  ∧ section_field "searchBehavior" "searchInterval" AUTOMATION_CONFIG
    = Some (JNum 30000)
  ∧ section_field "searchBehavior" "searchInterval"
      (updateConfig AUTOMATION_CONFIG cap_only) = None
  ∧ own (updateConfig AUTOMATION_CONFIG cap_only) !! "timeouts"
    = own AUTOMATION_CONFIG !! "timeouts"
  ∧ proto (updateConfig AUTOMATION_CONFIG cap_only) = ObjectPrototype.
Proof.
  destruct (updateConfig_shallow_merge AUTOMATION_CONFIG cap_only []
              "searchBehavior") as (_ & _ & Hsection & _ & Hproto);
    [discriminate|].
  destruct (updateConfig_shallow_merge AUTOMATION_CONFIG cap_only []
              "timeouts") as (_ & _ & _ & Hkeep & _); [discriminate|].
  split; [|split; [|split; [|split]]].
  - rewrite (Hsection {[ "maxSearchAttempts" := JNum 3 ]});
      vm_compute; reflexivity.
  - vm_compute; reflexivity.
  - rewrite (Hsection {[ "maxSearchAttempts" := JNum 3 ]});
      vm_compute; reflexivity.
  - apply Hkeep. vm_compute; reflexivity.
  - apply Hproto. vm_compute; reflexivity.
Defined.

(** The key ["__proto__"] is not merged: on the shipped configuration an
    own property of that name in the partial creates no property and
    replaces the prototype, from which absent keys are then read. *)
Example proto_key_sets_the_prototype :
  let polluted := {[ "__proto__" := JObj {[ "debug" := JBool true ]} ]} in
  own (updateConfig AUTOMATION_CONFIG polluted) = own AUTOMATION_CONFIG
  ∧ proto (updateConfig AUTOMATION_CONFIG polluted)
    = Inherits (JObj {[ "debug" := JBool true ]}).
Proof. vm_compute. done. Qed.

(** *** How updates compose *)

(** X1.  For partials that have no own key ["__proto__"]: an update with
    an empty partial changes nothing; an update never removes a top-level
    key and adds exactly the partial's; repeating an update changes nothing
    more; and two updates in a row are one update with the second partial
    merged over the first. *)
Theorem updateConfig_composes (cfg : object) (p1 p2 : gmap string jsval) :
  p1 !! "__proto__" = None → p2 !! "__proto__" = None →
  updateConfig cfg ∅ = cfg
  ∧ dom (own (updateConfig cfg p1)) = dom p1 ∪ dom (own cfg)
  ∧ updateConfig (updateConfig cfg p1) p1 = updateConfig cfg p1
  ∧ updateConfig (updateConfig cfg p1) p2
    = updateConfig cfg (own (updateConfig (Object p1 ObjectPrototype) p2)).
Proof.
  intros H1 H2. unfold updateConfig.
  assert (H12 : (p2 ∪ p1) !! "__proto__" = None).
  { apply lookup_union_None. by split. }
  rewrite !(object_assign_plain _ p1), !(object_assign_plain _ p2) by done.
  cbn [own proto]. rewrite (object_assign_plain _ (p2 ∪ p1)) by done.
  split; [|split; [|split]].
  - unfold object_assign. rewrite map_fold_empty. done.
  - by rewrite dom_union_L.
  - by rewrite (assoc_L (∪)), (idemp_L (∪)).
  - by rewrite (assoc_L (∪)).
Qed.

Lemma updateConfig_composes_witness :
  updateConfig (updateConfig AUTOMATION_CONFIG cap_only)
    {[ "timeouts" := JObj {[ "elementWait" := JNum 1000 ]} ]}
  = updateConfig AUTOMATION_CONFIG
      (own (updateConfig (Object cap_only ObjectPrototype)
              {[ "timeouts" := JObj {[ "elementWait" := JNum 1000 ]} ]})).
Proof.
  apply (updateConfig_composes AUTOMATION_CONFIG cap_only
           {[ "timeouts" := JObj {[ "elementWait" := JNum 1000 ]} ]});
    vm_compute; reflexivity.
Defined.

End Config.

(* ===================================================================== *)
(** ** Continuous search loop: [AppointmentSearchAutomation]
       (appointment-search.ts)                                            *)
(* ===================================================================== *)

Module SearchLoop.

(** [config.searchBehavior].  The fields are JavaScript numbers; the code
    only compares and prints them, so integers are enough. *)
Record search_behavior := SearchBehavior {
  searchInterval_ms : Z;
  maxSearchAttempts : Z;
  playSoundOnFound : bool;
  stopOnFound : bool
}.

(** What the module's logger prints, one constructor per call site. *)
Inductive log_entry :=
| WarnAlreadyRunning      (* "Continuous search is already running" *)
| WarnNotRunning          (* "No continuous search is running" *)
| InfoStarting (interval : Z)
| InfoReachedMax (cap : Z)
| InfoStopped             (* "Continuous search stopped" *)
| InfoSearching (attempt : Z)
| InfoNoAppointments
| SuccessFound
| ErrorDuringSearch.

(** How the asynchronous body of one [searchForAppointment] call ends.  The
    page decides; every branch of the method returns, none throws. *)
Inductive search_outcome :=
| SearchThrew        (* findElement rejected, or another throw: caught *)
| SiteError          (* hasErrorMessage() *)
| NoAppointment
| AppointmentFound.

(** One instance together with the part of the window it acts on.
    [searchInterval], [searchAttempts], [isSearching] and [config] are the
    fields of the class.  [next_timer] and [intervals] are the window's
    interval timers ([setInterval] hands out fresh ids, [clearInterval]
    removes one).  [pending] counts [searchForAppointment] calls whose
    promise has not settled; [ticks], [searches] and [banners] count the
    executions of the interval callback, of [searchForAppointment] and of
    [notifyAppointmentFound]. *)
Record world := World {
  config : search_behavior;
  searchInterval : option nat;
  searchAttempts : Z;
  isSearching : bool;
  next_timer : nat;
  intervals : gset nat;
  pending : nat;
  log : list log_entry;
  ticks : nat;
  searches : nat;
  banners : nat
}.

(** [new AppointmentSearchAutomation(config)] in a window with no timer. *)
Definition create (cfg : search_behavior) : world :=
  {| config := cfg; searchInterval := None; searchAttempts := 0;
     isSearching := false; next_timer := 0; intervals := ∅; pending := 0;
     log := []; ticks := 0; searches := 0; banners := 0 |}.

Definition logger (e : log_entry) (w : world) : world :=
  {| config := config w; searchInterval := searchInterval w;
     searchAttempts := searchAttempts w; isSearching := isSearching w;
     next_timer := next_timer w; intervals := intervals w;
     pending := pending w; log := log w ++ [e]; ticks := ticks w;
     searches := searches w; banners := banners w |}.

(** [startContinuousSearch()] *)
Definition startContinuousSearch (w : world) : world :=
  if isSearching w then logger WarnAlreadyRunning w
  else
    let w1 := logger (InfoStarting (searchInterval_ms (config w))) w in
    (* this.searchInterval = window.setInterval(callback, interval) *)
    {| config := config w1; searchInterval := Some (next_timer w1);
       searchAttempts := searchAttempts w1; isSearching := true;
       next_timer := S (next_timer w1);
       intervals := {[ next_timer w1 ]} ∪ intervals w1;
       pending := pending w1; log := log w1; ticks := ticks w1;
       searches := searches w1; banners := banners w1 |}.

(** [stopContinuousSearch()] *)
Definition stopContinuousSearch (w : world) : world :=
  if negb (isSearching w) then logger WarnNotRunning w
  else
    let cleared :=
      match searchInterval w with
      | Some id => intervals w ∖ {[ id ]}     (* window.clearInterval(id) *)
      | None => intervals w
      end in
    logger InfoStopped
      {| config := config w; searchInterval := None;
         searchAttempts := searchAttempts w; isSearching := false;
         next_timer := next_timer w; intervals := cleared;
         pending := pending w; log := log w; ticks := ticks w;
         searches := searches w; banners := banners w |}.

(** [searchForAppointment()] up to its first [await]:
    [this.searchAttempts++] and the log line. *)
Definition searchForAppointment_begin (w : world) : world :=
  logger (InfoSearching (searchAttempts w + 1))
    {| config := config w; searchInterval := searchInterval w;
       searchAttempts := searchAttempts w + 1; isSearching := isSearching w;
       next_timer := next_timer w; intervals := intervals w;
       pending := S (pending w); log := log w; ticks := ticks w;
       searches := S (searches w); banners := banners w |}.

(** [notifyAppointmentFound()]: sound, notification and banner; only the
    banner is counted. *)
Definition notifyAppointmentFound (w : world) : world :=
  {| config := config w; searchInterval := searchInterval w;
     searchAttempts := searchAttempts w; isSearching := isSearching w;
     next_timer := next_timer w; intervals := intervals w;
     pending := pending w; log := log w; ticks := ticks w;
     searches := searches w; banners := S (banners w) |}.

Definition settle_one (w : world) : world :=
  {| config := config w; searchInterval := searchInterval w;
     searchAttempts := searchAttempts w; isSearching := isSearching w;
     next_timer := next_timer w; intervals := intervals w;
     pending := Nat.pred (pending w); log := log w; ticks := ticks w;
     searches := searches w; banners := banners w |}.

(** The rest of [searchForAppointment()], run when the page has answered;
    the boolean is the method's result. *)
Definition searchForAppointment_finish (o : search_outcome) (w : world)
  : world * bool :=
  let w := settle_one w in
  match o with
  | AppointmentFound =>
      let w1 := notifyAppointmentFound (logger SuccessFound w) in
      ((if stopOnFound (config w1) then stopContinuousSearch w1 else w1), true)
  | NoAppointment => (logger InfoNoAppointments w, false)
  | SiteError => (logger ErrorDuringSearch w, false)
  | SearchThrew => (logger ErrorDuringSearch w, false)
  end.

Definition count_tick (w : world) : world :=
  {| config := config w; searchInterval := searchInterval w;
     searchAttempts := searchAttempts w; isSearching := isSearching w;
     next_timer := next_timer w; intervals := intervals w;
     pending := pending w; log := log w; ticks := S (ticks w);
     searches := searches w; banners := banners w |}.

(** The callback given to [setInterval] in [startContinuousSearch], up to
    its [await]. *)
Definition interval_callback (w : world) : world :=
  let w := count_tick w in
  if (0 <? maxSearchAttempts (config w))%Z
     && (maxSearchAttempts (config w) <=? searchAttempts w)%Z
  then stopContinuousSearch (logger (InfoReachedMax (maxSearchAttempts (config w))) w)
  else searchForAppointment_begin w.

Definition set_config (cfg : search_behavior) (w : world) : world :=
  {| config := cfg; searchInterval := searchInterval w;
     searchAttempts := searchAttempts w; isSearching := isSearching w;
     next_timer := next_timer w; intervals := intervals w;
     pending := pending w; log := log w; ticks := ticks w;
     searches := searches w; banners := banners w |}.

(** Everything that can happen to an instance: its two public methods, the
    initial search made by [start()], the window firing an interval timer,
    a pending search settling, and [updateConfig] replacing the shared
    [searchBehavior] section. *)
Inductive event :=
| CallStart
| CallStop
| InitialSearch
| Fire (id : nat)
| Settle (o : search_outcome)
| Reconfigure (cfg : search_behavior).

(** A timer that has been cleared never fires, and only a pending search can
    settle. *)
Definition step (e : event) (w : world) : world :=
  match e with
  | CallStart => startContinuousSearch w
  | CallStop => stopContinuousSearch w
  | InitialSearch => searchForAppointment_begin w
  | Fire id => if decide (id ∈ intervals w) then interval_callback w else w
  | Settle o =>
      match pending w with
      | O => w
      | S _ => (searchForAppointment_finish o w).1
      end
  | Reconfigure cfg => set_config cfg w
  end.

Definition run (es : list event) (w : world) : world :=
  foldl (λ w e, step e w) w es.

(** [start()] from the point where the page checks and
    [fillSearchParameters] have succeeded: the awaited initial search, then
    the loop when an interval is configured. *)
Definition start_tail (o : search_outcome) (w : world) : world * bool :=
  let w1 := (searchForAppointment_finish o (searchForAppointment_begin w)).1 in
  ((if (0 <? searchInterval_ms (config w1))%Z
    then startContinuousSearch w1 else w1), true).

(** [startAppointmentSearchAutomation(continuous)] on a new instance, under
    the same assumption. *)
Definition startAppointmentSearchAutomation
    (cfg : search_behavior) (continuous : bool) (o : search_outcome)
  : world * bool :=
  let '(w, result) := start_tail o (create cfg) in
  ((if result && continuous then startContinuousSearch w else w), result).

(** One interval period: the window fires every interval timer that is
    active, and the search a callback started settles with [o] before the
    next period. *)
Definition period (o : search_outcome) (w : world) : world :=
  step (Settle o) (foldl (λ w id, step (Fire id) w) w (elements (intervals w))).

Fixpoint periods (n : nat) (o : search_outcome) (w : world) : world :=
  match n with
  | O => w
  | S n => periods n o (period o w)
  end.

(** *** The instance owns the timer it remembers, and no other *)

Definition timer_inv (w : world) : Prop :=
  if isSearching w
  then ∃ id, searchInterval w = Some id ∧ intervals w = {[ id ]}
  else searchInterval w = None ∧ intervals w = ∅.

Lemma timer_inv_logger e w : timer_inv w → timer_inv (logger e w).
Proof. done. Qed.

Lemma timer_inv_start w : timer_inv w → timer_inv (startContinuousSearch w).
Proof.
  unfold timer_inv, startContinuousSearch.
  destruct (isSearching w) eqn:Hs; simpl; [by rewrite Hs|].
  intros [_ Hi]. exists (next_timer w). split; [done|].
  rewrite Hi. by rewrite (right_id_L ∅ (∪)).
Qed.

Lemma timer_inv_stop w : timer_inv w → timer_inv (stopContinuousSearch w).
Proof.
  unfold timer_inv, stopContinuousSearch.
  destruct (isSearching w) eqn:Hs; simpl; [|by rewrite Hs].
  intros (id & -> & ->). split; [done|]. apply difference_diag_L.
Qed.

Lemma timer_inv_begin w : timer_inv w → timer_inv (searchForAppointment_begin w).
Proof. done. Qed.

Lemma timer_inv_finish o w :
  timer_inv w → timer_inv (searchForAppointment_finish o w).1.
Proof.
  intros H. destruct o; simpl; try exact H.
  destruct (stopOnFound (config w)); [|exact H].
  apply timer_inv_stop. exact H.
Qed.

Lemma timer_inv_callback w : timer_inv w → timer_inv (interval_callback w).
Proof.
  intros H. unfold interval_callback. simpl.
  destruct (_ && _); [apply timer_inv_stop; exact H | exact H].
Qed.

Lemma timer_inv_step e w : timer_inv w → timer_inv (step e w).
Proof.
  intros H. destruct e; simpl.
  - by apply timer_inv_start.
  - by apply timer_inv_stop.
  - done.
  - case_decide; [by apply timer_inv_callback | done].
  - destruct (pending w); [done | by apply timer_inv_finish].
  - done.
Qed.

Lemma timer_inv_run es w : timer_inv w → timer_inv (run es w).
Proof.
  revert w. induction es as [|e es IH]; intros w H; [done|].
  apply IH. by apply timer_inv_step.
Qed.

Lemma timer_inv_create cfg : timer_inv (create cfg).
Proof. done. Qed.

Lemma timer_inv_size w : timer_inv w → (size (intervals w) ≤ 1)%nat.
Proof.
  unfold timer_inv. destruct (isSearching w).
  - intros (id & _ & ->). by rewrite size_singleton.
  - intros [_ ->]. rewrite size_empty. lia.
Qed.

(** C7.  [startContinuousSearch] on a running loop and
    [stopContinuousSearch] on a loop that is not running only print their
    warning: every field of the instance and the window's timers are as
    before.  Whatever happens to an instance after its construction, the
    window never holds more than one interval timer for it. *)
Theorem start_stop_idempotent (w : world) (cfg : search_behavior)
    (es : list event) :
  (isSearching w = true →
     startContinuousSearch w = logger WarnAlreadyRunning w
     ∧ intervals (startContinuousSearch w) = intervals w
     ∧ next_timer (startContinuousSearch w) = next_timer w
     ∧ searchInterval (startContinuousSearch w) = searchInterval w)
  ∧ (isSearching w = false →
     stopContinuousSearch w = logger WarnNotRunning w
     ∧ intervals (stopContinuousSearch w) = intervals w
     ∧ searchInterval (stopContinuousSearch w) = searchInterval w
     ∧ searchAttempts (stopContinuousSearch w) = searchAttempts w)
  ∧ (size (intervals (run es (create cfg))) ≤ 1)%nat.
Proof.
  split; [|split].
  - intros Hs. unfold startContinuousSearch. by rewrite Hs.
  - intros Hs. unfold stopContinuousSearch. by rewrite Hs.
  - apply timer_inv_size, timer_inv_run, timer_inv_create.
Qed.

Definition shipped : search_behavior := SearchBehavior 30000 0 true false.

Lemma start_stop_idempotent_witness :
  startContinuousSearch (startContinuousSearch (create shipped))
  = logger WarnAlreadyRunning (startContinuousSearch (create shipped))
  ∧ stopContinuousSearch (create shipped) = logger WarnNotRunning (create shipped)
  ∧ (size (intervals (run [CallStart; CallStart; Fire 0; CallStop; CallStop; CallStart]
                          (create shipped))) ≤ 1)%nat.
Proof.
  destruct (start_stop_idempotent (startContinuousSearch (create shipped))
              shipped []) as (Hstart & _ & _).
  destruct (start_stop_idempotent (create shipped) shipped
              [CallStart; CallStart; Fire 0; CallStop; CallStop; CallStart])
    as (_ & Hstop & Hsize).
  split; [|split].
  - apply Hstart. reflexivity.
  - apply Hstop. reflexivity.
  - exact Hsize.
Defined.

(** *** The attempt counter *)

(** JavaScript numbers count exactly up to 2^53; the counter is an integer
    here, which is the same thing for any run shorter than 2^53 searches. *)

Lemma attempts_logger e w : searchAttempts (logger e w) = searchAttempts w.
Proof. done. Qed.

Lemma attempts_start w :
  searchAttempts (startContinuousSearch w) = searchAttempts w
  ∧ searches (startContinuousSearch w) = searches w.
Proof. unfold startContinuousSearch. by destruct (isSearching w). Qed.

Lemma attempts_stop w :
  searchAttempts (stopContinuousSearch w) = searchAttempts w
  ∧ searches (stopContinuousSearch w) = searches w.
Proof. unfold stopContinuousSearch. by destruct (isSearching w). Qed.

Ltac through_stop :=
  match goal with
  | |- context [stopContinuousSearch ?x] =>
      destruct (attempts_stop x) as [-> ->]
  end.

Lemma attempts_finish o w :
  searchAttempts (searchForAppointment_finish o w).1 = searchAttempts w
  ∧ searches (searchForAppointment_finish o w).1 = searches w.
Proof.
  destruct o; simpl; try done.
  destruct (stopOnFound (config w)); [|done].
  by through_stop.
Qed.

Lemma attempts_callback w :
  (searchAttempts (interval_callback w) = searchAttempts w
   ∧ searches (interval_callback w) = searches w)
  ∨ (searchAttempts (interval_callback w) = searchAttempts w + 1
     ∧ searches (interval_callback w) = S (searches w))%Z.
Proof.
  unfold interval_callback. simpl.
  destruct (_ && _); [left | by right].
  by through_stop.
Qed.

(** Each event leaves the counter alone or adds one to it, and it adds one
    exactly when [searchForAppointment] is entered. *)
Lemma attempts_step e w :
  (searchAttempts (step e w) = searchAttempts w
   ∧ searches (step e w) = searches w)
  ∨ (searchAttempts (step e w) = searchAttempts w + 1
     ∧ searches (step e w) = S (searches w))%Z.
Proof.
  destruct e; simpl.
  - left. apply attempts_start.
  - left. apply attempts_stop.
  - by right.
  - case_decide; [apply attempts_callback | by left].
  - left. destruct (pending w); [done | apply attempts_finish].
  - by left.
Qed.

Lemma attempts_run es w :
  (searches w ≤ searches (run es w))%nat
  ∧ (searchAttempts (run es w)
     = searchAttempts w + Z.of_nat (searches (run es w) - searches w))%Z.
Proof.
  revert w. induction es as [|e es IH]; intros w; simpl.
  - split; [lia|]. replace (searches w - searches w)%nat with 0%nat by lia. lia.
  - destruct (IH (step e w)) as [Hle Heq].
    fold (run es (step e w)) in *.
    destruct (attempts_step e w) as [[Ha Hs]|[Ha Hs]];
      rewrite Heq, Ha; rewrite Hs in *; split; lia.
Qed.

Lemma restart_first_tick w :
  timer_inv w →
  (0 < maxSearchAttempts (config w))%Z →
  (maxSearchAttempts (config w) ≤ searchAttempts w)%Z →
  ∃ id, searchInterval (startContinuousSearch (stopContinuousSearch w)) = Some id
    ∧ isSearching (startContinuousSearch (stopContinuousSearch w)) = true
    ∧ let w' := step (Fire id) (startContinuousSearch (stopContinuousSearch w)) in
      isSearching w' = false ∧ intervals w' = ∅ ∧ searchInterval w' = None
      ∧ ticks w' = S (ticks w) ∧ searches w' = searches w
      ∧ searchAttempts w' = searchAttempts w.
Proof.
  intros Hinv Hpos Hcap.
  assert (Hcheck : (0 <? maxSearchAttempts (config w))%Z
                  && (maxSearchAttempts (config w) <=? searchAttempts w)%Z = true).
  { apply andb_true_iff. split; [by apply Z.ltb_lt | by apply Z.leb_le]. }
  exists (next_timer w). unfold timer_inv in Hinv.
  unfold stopContinuousSearch, startContinuousSearch.
  destruct (isSearching w) eqn:Hs; simpl; rewrite ?Hs; simpl.
  - destruct Hinv as (id & Hsi & Hi). rewrite Hsi, Hi.
    rewrite difference_diag_L, (right_id_L ∅ (∪)).
    rewrite decide_True by (by apply elem_of_singleton).
    unfold interval_callback; simpl. rewrite Hcheck.
    unfold stopContinuousSearch; simpl.
    by rewrite difference_diag_L.
  - destruct Hinv as [Hsi Hi]. rewrite Hi.
    rewrite (right_id_L ∅ (∪)).
    rewrite decide_True by (by apply elem_of_singleton).
    unfold interval_callback; simpl. rewrite Hcheck.
    unfold stopContinuousSearch; simpl.
    by rewrite difference_diag_L.
Qed.

(** C10.  The attempt counter never goes down and is never reset: every
    event leaves it or adds exactly one, along any sequence of events it
    has grown by the number of searches entered, and stopping then starting
    the loop keeps it.  So with a positive cap, a loop restarted on an
    instance whose counter has reached the cap stops at its first tick and
    enters no search. *)
Theorem searchAttempts_never_reset (cfg : search_behavior) (es : list event) :
  let w := run es (create cfg) in
  (∀ e, searchAttempts w ≤ searchAttempts (step e w) ≤ searchAttempts w + 1)%Z
  ∧ (∀ es', searchAttempts (run es' w)
            = searchAttempts w + Z.of_nat (searches (run es' w) - searches w))%Z
  ∧ searchAttempts w = Z.of_nat (searches w)
  ∧ searchAttempts (startContinuousSearch (stopContinuousSearch w))
    = searchAttempts w
  ∧ ((0 < maxSearchAttempts (config w))%Z →
     (maxSearchAttempts (config w) ≤ searchAttempts w)%Z →
     ∃ id,
       searchInterval (startContinuousSearch (stopContinuousSearch w)) = Some id
       ∧ isSearching (startContinuousSearch (stopContinuousSearch w)) = true
       ∧ let w' := step (Fire id) (startContinuousSearch (stopContinuousSearch w)) in
         isSearching w' = false ∧ intervals w' = ∅ ∧ searchInterval w' = None
         ∧ ticks w' = S (ticks w) ∧ searches w' = searches w
         ∧ searchAttempts w' = searchAttempts w).
Proof.
  intros w. split; [|split; [|split; [|split]]].
  - intros e. destruct (attempts_step e w) as [[-> _]|[-> _]]; lia.
  - intros es'. apply attempts_run.
  - subst w. destruct (attempts_run es (create cfg)) as [_ ->]. simpl. lia.
  - destruct (attempts_start (stopContinuousSearch w)) as [-> _].
    apply attempts_stop.
  - apply restart_first_tick. subst w. apply timer_inv_run, timer_inv_create.
Qed.

Definition capped : search_behavior := SearchBehavior 30000 3 true false.

(** Three searches, a stop and a restart: the new timer's first tick stops
    the loop. *)
Lemma searchAttempts_never_reset_witness :
  let w := run [InitialSearch; Settle NoAppointment; CallStart;
                Fire 0; Settle NoAppointment; Fire 0; Settle NoAppointment]
               (create capped) in
  searchAttempts w = 3%Z
  ∧ ∃ id,
      searchInterval (startContinuousSearch (stopContinuousSearch w)) = Some id
      ∧ isSearching (startContinuousSearch (stopContinuousSearch w)) = true
      ∧ let w' := step (Fire id) (startContinuousSearch (stopContinuousSearch w)) in
        isSearching w' = false ∧ intervals w' = ∅ ∧ searchInterval w' = None
        ∧ ticks w' = S (ticks w) ∧ searches w' = searches w
        ∧ searchAttempts w' = searchAttempts w.
Proof.
  intros w. split; [vm_compute; reflexivity|].
  destruct (searchAttempts_never_reset capped
              [InitialSearch; Settle NoAppointment; CallStart;
               Fire 0; Settle NoAppointment; Fire 0; Settle NoAppointment])
    as (_ & _ & _ & _ & Hrestart).
  apply Hrestart; [vm_compute; reflexivity | vm_compute; discriminate].
Defined.

(** *** The cap on attempts *)

Lemma period_idle o w : intervals w = ∅ → pending w = 0%nat → period o w = w.
Proof.
  intros Hi Hp. unfold period. rewrite Hi, elements_empty. simpl.
  by rewrite Hp.
Qed.

Lemma periods_idle n o w :
  intervals w = ∅ → pending w = 0%nat → periods n o w = w.
Proof.
  intros Hi Hp. induction n as [|n IH]; [done|].
  simpl. by rewrite period_idle.
Qed.

Lemma periods_add a b o w : periods (a + b) o w = periods b o (periods a o w).
Proof. revert w. induction a as [|a IH]; intros w; [done|]. simpl. apply IH. Qed.

(** A loop that is running on timer [id] with nothing pending, its counter
    at [a], and [tk] ticks and [sr] searches behind it. *)
Definition running (cfg : search_behavior) (id : nat) (a : Z) (tk sr : nat)
    (w : world) : Prop :=
  config w = cfg ∧ isSearching w = true ∧ searchInterval w = Some id
  ∧ intervals w = {[ id ]} ∧ pending w = 0%nat
  ∧ searchAttempts w = a ∧ ticks w = tk ∧ searches w = sr.

Definition stopped (a : Z) (tk sr : nat) (w : world) : Prop :=
  isSearching w = false ∧ searchInterval w = None ∧ intervals w = ∅
  ∧ pending w = 0%nat ∧ searchAttempts w = a ∧ ticks w = tk ∧ searches w = sr.

Lemma period_searches cfg id a tk sr w :
  running cfg id a tk sr w →
  ¬ (0 < maxSearchAttempts cfg ∧ maxSearchAttempts cfg ≤ a)%Z →
  running cfg id (a + 1) (S tk) (S sr) (period NoAppointment w).
Proof.
  intros (Hc & Hs & Hi & Ht & Hp & Ha & Hk & Hr) Hcap.
  unfold period. rewrite Ht, elements_singleton. simpl.
  rewrite Ht, decide_True by (by apply elem_of_singleton).
  unfold interval_callback. simpl. rewrite Hc, Ha.
  assert (Hcheck : (0 <? maxSearchAttempts cfg)%Z
                  && (maxSearchAttempts cfg <=? a)%Z = false).
  { apply not_true_is_false. rewrite andb_true_iff, Z.ltb_lt, Z.leb_le. done. }
  rewrite Hcheck. simpl. unfold running. simpl.
  repeat split; congruence.
Qed.

Lemma period_stops cfg id a tk sr w :
  running cfg id a tk sr w →
  (0 < maxSearchAttempts cfg)%Z → (maxSearchAttempts cfg ≤ a)%Z →
  stopped a (S tk) sr (period NoAppointment w).
Proof.
  intros (Hc & Hs & Hi & Ht & Hp & Ha & Hk & Hr) Hpos Hcap.
  unfold period. rewrite Ht, elements_singleton. simpl.
  rewrite Ht, decide_True by (by apply elem_of_singleton).
  unfold interval_callback. simpl. rewrite Hc, Ha.
  assert (Hcheck : (0 <? maxSearchAttempts cfg)%Z
                  && (maxSearchAttempts cfg <=? a)%Z = true).
  { rewrite andb_true_iff, Z.ltb_lt, Z.leb_le. done. }
  rewrite Hcheck. unfold stopContinuousSearch. simpl. rewrite Hs. simpl.
  rewrite Hp. simpl. unfold stopped. simpl.
  rewrite Hi, Ht, difference_diag_L. repeat split; congruence.
Qed.

(** Whatever the cap and the counter at the start of the loop: the loop
    makes a search at each tick while the counter is below the cap, and the
    tick that finds the counter at the cap stops it without searching. *)
Lemma stops_when_counter_reaches_cap cfg id a tk sr w (k : nat) :
  running cfg id a tk sr w →
  (0 < maxSearchAttempts cfg)%Z →
  (a + Z.of_nat k = maxSearchAttempts cfg)%Z →
  running cfg id (maxSearchAttempts cfg) (tk + k) (sr + k)
    (periods k NoAppointment w)
  ∧ ∀ n, stopped (maxSearchAttempts cfg) (S (tk + k)) (sr + k)
           (periods (S k + n) NoAppointment w).
Proof.
  revert a tk sr w. induction k as [|k IH]; intros a tk sr w Hrun Hpos Hk.
  - rewrite !Nat.add_0_r. assert (a = maxSearchAttempts cfg) as -> by lia.
    split; [done|]. intros n. rewrite (periods_add 1 n). cbn [periods].
    pose proof (period_stops _ _ _ _ _ _ Hrun Hpos (Z.le_refl _)) as Hst.
    rewrite periods_idle; [done | apply Hst | apply Hst].
  - assert (Hnext : running cfg id (a + 1) (S tk) (S sr)
                      (period NoAppointment w)).
    { apply period_searches; [done | lia]. }
    destruct (IH _ _ _ _ Hnext Hpos ltac:(lia)) as [Hr Hs].
    replace (tk + S k)%nat with (S tk + k)%nat by lia.
    replace (sr + S k)%nat with (S sr + k)%nat by lia.
    split; [exact Hr | exact Hs].
Qed.

(** The loop that starts in [w0] is running before each of its first [k]
    ticks, is stopped with its timer cleared by the [k]-th, and the
    callback has run [k] times however long one waits, when every search
    reports no appointment. *)
Definition stops_at_tick (k : nat) (w0 : world) : Prop :=
  (∀ j, (j < k)%nat → isSearching (periods j NoAppointment w0) = true)
  ∧ ∀ n, let w := periods (k + n) NoAppointment w0 in
      isSearching w = false ∧ intervals w = ∅ ∧ searchInterval w = None
      ∧ ticks w = k ∧ searches w = 3%nat ∧ searchAttempts w = 3%Z.

Ltac first_ticks :=
  let j := fresh "j" in let Hj := fresh "Hj" in
  intros j Hj;
  repeat (destruct j as [|j]; [vm_compute; reflexivity|]); lia.

Ltac stopped_for_good k :=
  let n := fresh "n" in
  intros n; rewrite (periods_add k n);
  rewrite periods_idle by (vm_compute; reflexivity);
  vm_compute; repeat split.

(** C8, as the code has it.  With [maxSearchAttempts] 3 and every search
    reporting no appointment: the loop started by
    [startAppointmentSearchAutomation], whose [start()] has already made one
    search, stops and clears its timer at its 3rd tick, which makes no
    search, and no 4th tick fires; the loop started on a new instance makes
    a search at each of its first three ticks and stops at its 4th, and no
    5th tick fires.  Three searches are made in both cases. *)
Theorem cap_three_stops (interval : Z) (sound stop_found : bool) :
  let cfg := SearchBehavior interval 3 sound stop_found in
  stops_at_tick 3 (startAppointmentSearchAutomation cfg true NoAppointment).1
  ∧ stops_at_tick 4 (startContinuousSearch (create cfg)).
Proof.
  intros cfg. split.
  - unfold startAppointmentSearchAutomation, start_tail, cfg. simpl.
    destruct (0 <? interval)%Z; simpl.
    + split; [first_ticks | stopped_for_good 3%nat].
    + split; [first_ticks | stopped_for_good 3%nat].
  - split; [first_ticks | stopped_for_good 4%nat].
Qed.

(** On a new instance the loop is still running after its 3rd tick, and the
    callback runs a 4th time. *)
Lemma cap_three_new_instance_fourth_tick :
  let w0 := startContinuousSearch (create capped) in
  isSearching (periods 3 NoAppointment w0) = true
  ∧ intervals (periods 3 NoAppointment w0) = {[ 0%nat ]}
  ∧ ticks (periods 4 NoAppointment w0) = 4%nat
  ∧ ¬ stops_at_tick 3 w0.
Proof.
  intros w0. split; [vm_compute; reflexivity|].
  split; [vm_compute; reflexivity|].
  split; [vm_compute; reflexivity|].
  intros [_ H]. specialize (H 0%nat). simpl in H.
  destruct H as [H _]. vm_compute in H. discriminate.
Qed.

(** *** More on the loop *)

(** X2.  [maxSearchAttempts] zero or negative means no cap: a running loop
    whose searches find nothing makes one search at every tick and is still
    running after any number of ticks. *)
Theorem no_cap_never_stops cfg id a tk sr w (n : nat) :
  running cfg id a tk sr w →
  (maxSearchAttempts cfg ≤ 0)%Z →
  running cfg id (a + Z.of_nat n) (tk + n) (sr + n) (periods n NoAppointment w).
Proof.
  intros Hrun Hcap. revert a tk sr w Hrun.
  induction n as [|n IH]; intros a tk sr w Hrun.
  - by rewrite Z.add_0_r, !Nat.add_0_r.
  - cbn [periods].
    replace (a + Z.of_nat (S n))%Z with ((a + 1) + Z.of_nat n)%Z by lia.
    replace (tk + S n) with (S tk + n) by lia.
    replace (sr + S n) with (S sr + n) by lia.
    apply IH. apply period_searches; [done | lia].
Qed.

Lemma no_cap_never_stops_witness :
  running shipped 0 0%Z 0 0 (startContinuousSearch (create shipped))
  ∧ running shipped 0 50%Z 50 50
      (periods 50 NoAppointment (startContinuousSearch (create shipped))).
Proof.
  assert (Hrun : running shipped 0 0%Z 0 0
                   (startContinuousSearch (create shipped))).
  { repeat split. }
  split; [exact Hrun|].
  apply (no_cap_never_stops shipped 0 0%Z 0 0 _ 50 Hrun).
  vm_compute. discriminate.
Defined.

(** The events of the loop itself: the public methods, timers firing and
    searches settling; not the direct search of [start()] and not a change
    of configuration. *)
Definition loop_event (e : event) : Prop :=
  match e with
  | InitialSearch | Reconfigure _ => False
  | _ => True
  end.

Lemma config_step e w : loop_event e → config (step e w) = config w.
Proof.
  destruct e; simpl; try done; intros _.
  - unfold startContinuousSearch. by destruct (isSearching w).
  - unfold stopContinuousSearch. by destruct (isSearching w).
  - case_decide; [|done]. unfold interval_callback. simpl.
    destruct (_ && _); [|done]. unfold stopContinuousSearch. simpl.
    by destruct (isSearching w).
  - destruct (pending w); [done|]. destruct o; simpl; try done.
    destruct (stopOnFound (config w)); [|done].
    unfold stopContinuousSearch. simpl. by destruct (isSearching w).
Qed.

Lemma capped_step e w :
  loop_event e → (0 < maxSearchAttempts (config w))%Z →
  (searchAttempts (step e w)
   ≤ Z.max (searchAttempts w) (maxSearchAttempts (config w)))%Z.
Proof.
  intros He Hpos. destruct e; simpl; try done.
  - destruct (attempts_start w) as [-> _]. lia.
  - destruct (attempts_stop w) as [-> _]. lia.
  - case_decide; [|lia]. unfold interval_callback. simpl.
    destruct (Z.leb_spec (maxSearchAttempts (config w)) (searchAttempts w))
      as [Hle|Hlt].
    + rewrite (proj2 (Z.ltb_lt _ _) Hpos). simpl.
      destruct (attempts_stop
                  (logger (InfoReachedMax (maxSearchAttempts (config w)))
                          (count_tick w))) as [-> _]. simpl. lia.
    + rewrite andb_false_r. simpl. lia.
  - destruct (pending w); [lia|].
    destruct (attempts_finish o w) as [-> _]. lia.
Qed.

(** X3.  A positive cap holds across stops and restarts: whatever sequence
    of starts, stops, timer firings and settlements an instance goes
    through, the ticks never take the attempt counter beyond the cap (or
    beyond what it already was). *)
Theorem cap_holds_across_restarts (es : list event) (w : world) :
  Forall loop_event es →
  (0 < maxSearchAttempts (config w))%Z →
  config (run es w) = config w
  ∧ (searchAttempts (run es w)
     ≤ Z.max (searchAttempts w) (maxSearchAttempts (config w)))%Z.
Proof.
  intros Hes Hpos. revert w Hpos.
  induction Hes as [|e es He _ IH]; intros w Hpos; simpl.
  - split; [done | lia].
  - pose proof (config_step e w He) as Hc.
    pose proof (capped_step e w He Hpos) as Hs.
    destruct (IH (step e w)) as [IHc IHs]; [by rewrite Hc|].
    fold (run es (step e w)) in *. rewrite Hc in *. split; [done | lia].
Qed.

Lemma cap_holds_across_restarts_witness :
  (searchAttempts
     (run [CallStart; Fire 0; Fire 0; CallStop; CallStart; Fire 1; Fire 1;
           Settle NoAppointment; Fire 1; CallStop; CallStart; Fire 2; Fire 2]
          (create capped)) ≤ 3)%Z.
Proof.
  refine (proj2 (cap_holds_across_restarts
                   [CallStart; Fire 0; Fire 0; CallStop; CallStart; Fire 1;
                    Fire 1; Settle NoAppointment; Fire 1; CallStop; CallStart;
                    Fire 2; Fire 2] (create capped) _ _)).
  - repeat constructor.
  - reflexivity.
Defined.

(** X4.  When a search of an instance built by the constructor finds an
    appointment, one more banner is added to the page; with [stopOnFound]
    the loop is then stopped and no interval timer is left in the window,
    without it the loop and its timer are as they were. *)
Theorem found_stops_only_when_configured (cfg : search_behavior)
    (es : list event) :
  let w := run es (create cfg) in
  let w' := step (Settle AppointmentFound) w in
  (0 < pending w)%nat →
  banners w' = S (banners w)
  ∧ (stopOnFound (config w) = true →
       isSearching w' = false ∧ searchInterval w' = None ∧ intervals w' = ∅)
  ∧ (stopOnFound (config w) = false →
       isSearching w' = isSearching w ∧ searchInterval w' = searchInterval w
       ∧ intervals w' = intervals w).
Proof.
  intros w w' Hp.
  assert (Hinv : timer_inv w) by apply timer_inv_run, timer_inv_create.
  subst w'. simpl. destruct (pending w) as [|k] eqn:Hk; [lia|].
  unfold timer_inv in Hinv. simpl.
  destruct (stopOnFound (config w)) eqn:Hsf.
  - unfold stopContinuousSearch. simpl.
    destruct (isSearching w) eqn:Hs; simpl.
    + destruct Hinv as (id & Hi & Ht). rewrite Hi, Ht, difference_diag_L.
      repeat split; done.
    + destruct Hinv as [Hi Ht]. rewrite Hi, Ht. repeat split; done.
  - repeat split; done.
Qed.

Lemma found_stops_only_when_configured_witness :
  let cfg := SearchBehavior 30000 0 true true in
  let w := run [CallStart; Fire 0] (create cfg) in
  banners (step (Settle AppointmentFound) w) = 1
  ∧ isSearching (step (Settle AppointmentFound) w) = false
  ∧ intervals (step (Settle AppointmentFound) w) = ∅.
Proof.
  intros cfg w.
  destruct (found_stops_only_when_configured cfg [CallStart; Fire 0])
    as (Hb & Hstop & _); [vm_compute; lia|].
  destruct Hstop as (Hs & _ & Hi); [reflexivity|].
  split; [exact Hb | split; [exact Hs | exact Hi]].
Defined.

(** X5.  Once [start()] has reached its initial search, the loop is started
    whenever an interval is configured or [continuous] is passed as true:
    passing [continuous = false] does not prevent it, and neither does an
    initial search that found an appointment with [stopOnFound] set.  The
    loop then runs on exactly one timer, with one search already counted. *)
Theorem loop_starts_after_initial_search (cfg : search_behavior)
    (continuous : bool) (o : search_outcome) :
  (0 < searchInterval_ms cfg)%Z ∨ continuous = true →
  let w := (startAppointmentSearchAutomation cfg continuous o).1 in
  (startAppointmentSearchAutomation cfg continuous o).2 = true
  ∧ isSearching w = true ∧ searchInterval w = Some 0%nat
  ∧ intervals w = {[ 0%nat ]} ∧ searchAttempts w = 1%Z ∧ pending w = 0%nat.
Proof.
  intros Hloop. unfold startAppointmentSearchAutomation, start_tail.
  destruct cfg as [iv cap snd sof]. simpl in Hloop.
  assert (Hcases : (0 <? iv)%Z = true ∨ ((0 <? iv)%Z = false ∧ continuous = true)).
  { destruct (Z.ltb_spec 0 iv); [by left|]. right. split; [done|].
    destruct Hloop; [lia | done]. }
  destruct o; simpl; try destruct sof; simpl;
    unfold stopContinuousSearch, startContinuousSearch; simpl;
    (destruct Hcases as [E|[E ->]]; rewrite E; simpl;
     [destruct continuous; simpl|];
     rewrite ?(right_id_L ∅ (∪)); repeat split; done).
Qed.

Lemma loop_starts_after_initial_search_witness :
  isSearching
    (startAppointmentSearchAutomation (SearchBehavior 30000 0 true true)
       false AppointmentFound).1 = true.
Proof.
  refine (proj1 (proj2 (loop_starts_after_initial_search
                          (SearchBehavior 30000 0 true true) false
                          AppointmentFound _))).
  left. reflexivity.
Defined.

Lemma banners_stop w : banners (stopContinuousSearch w) = banners w.
Proof. unfold stopContinuousSearch. by destruct (isSearching w). Qed.

Lemma banners_step e w :
  e ≠ Settle AppointmentFound → banners (step e w) = banners w.
Proof.
  intros He. destruct e as [| | |id|o|cfg]; simpl; try done.
  - unfold startContinuousSearch. by destruct (isSearching w).
  - apply banners_stop.
  - case_decide; [|done]. unfold interval_callback.
    destruct (_ && _); [|done]. by rewrite banners_stop.
  - destruct (pending w); [done|]. by destruct o.
Qed.

(** X20.  [notifyAppointmentFound], counted by the banner it adds to the
    page, runs in one situation only, a search that ends with an
    appointment found: no start, stop, timer tick, change of configuration
    or other end of a search adds a banner. *)
Theorem notifies_only_when_found (es : list event) (w : world) :
  Forall (λ e, e ≠ Settle AppointmentFound) es →
  banners (run es w) = banners w.
Proof.
  intros Hes. revert w. induction Hes as [|e es He _ IH]; intros w; [done|].
  simpl. fold (run es (step e w)). rewrite IH. by apply banners_step.
Qed.

Lemma notifies_only_when_found_witness :
  banners (run [InitialSearch; Settle SearchThrew; CallStart; Fire 0;
                Settle NoAppointment; Fire 0; Settle SiteError; CallStop]
             (create shipped)) = 0.
Proof.
  apply (notifies_only_when_found
           [InitialSearch; Settle SearchThrew; CallStart; Fire 0;
            Settle NoAppointment; Fire 0; Settle SiteError; CallStop]
           (create shipped)).
  repeat constructor; discriminate.
Defined.

End SearchLoop.

(* ===================================================================== *)
(** ** Step sequencer: [AppointmentAutomation.start] and
       [AutomationController.startFullAutomation]                         *)
(* ===================================================================== *)

Module Sequencer.

Section Steps.

(** [W] is the state of the page and of everything else a step can touch;
    [E] is what a step can throw. *)
Variables W E : Type.

(** The two waits of the prelude.  [waitForPageLoad] has no reject path and
    [waitForNetworkIdle] always resolves (module [NetworkIdle]); both are
    taken to settle, which a page that never fires [load] would not. *)
Variables waitForPageLoad waitForNetworkIdle : W → W.

Inductive completion :=
| Returned
| Threw (err : E).

(** An [async] method run from its call to the settlement of its promise:
    [await step.call(this)] resumes only then. *)
Definition step := W → W * completion.

Inductive log_entry :=
| InfoStarting                          (* "Starting automation sequence" *)
| SuccessComplete                       (* "Automation complete! ..." *)
| ErrorFailedAt (n : nat) (err : E).    (* "Automation failed at step n:" *)

(** The instance: [steps] and [currentStep] are fields of the class, [log]
    is what its logger printed, [invoked] lists the indices of the steps
    that have been called, in call order. *)
Record automation := Automation {
  steps : list step;
  currentStep : nat;
  log : list log_entry;
  invoked : list nat
}.

Definition logger (e : log_entry) (a : automation) : automation :=
  Automation (steps a) (currentStep a) (log a ++ [e]) (invoked a).

Definition set_currentStep (i : nat) (a : automation) : automation :=
  Automation (steps a) i (log a) (invoked a).

Definition call_step (a : automation) : automation :=
  Automation (steps a) (currentStep a) (log a) (invoked a ++ [currentStep a]).

(** [for (...; this.currentStep < this.steps.length; this.currentStep++)
       { const step = this.steps[this.currentStep]; await step.call(this); }]
    from the loop test on; [fuel] bounds the number of tests.  Calling the
    [undefined] found at an index out of range would be a [TypeError]; the
    test rules it out and the model stops there. *)
Fixpoint for_loop (fuel : nat) (a : automation) (w : W)
  : automation * W * completion :=
  match fuel with
  | O => (a, w, Returned)
  | S fuel =>
      if currentStep a <? length (steps a) then
        match steps a !! currentStep a with
        | Some s =>
            let a := call_step a in
            match s w with
            | (w', Returned) =>
                for_loop fuel (set_currentStep (S (currentStep a)) a) w'
            | (w', Threw err) => (a, w', Threw err)
            end
        | None => (a, w, Returned)
        end
      else (a, w, Returned)
  end.

(** [async start()]: the [try] block and its [catch]. *)
Definition start (a : automation) (w : W) : automation * W :=
  let a := logger InfoStarting a in
  let w := waitForNetworkIdle (waitForPageLoad w) in
  match for_loop (S (length (steps a))) (set_currentStep 0 a) w with
  | (a, w, Returned) => (logger SuccessComplete a, w)
  | (a, w, Threw err) => (logger (ErrorFailedAt (currentStep a + 1) err) a, w)
  end.

(** [new AppointmentAutomation(config)] with the given step list. *)
Definition create (l : list step) : automation := Automation l 0 [] [].

(** The world after the steps of [l] have run one after the other, if each
    of them returned. *)
Fixpoint pass (l : list step) (w : W) : option W :=
  match l with
  | [] => Some w
  | s :: l =>
      match s w with
      | (w', Returned) => pass l w'
      | (_, Threw _) => None
      end
  end.

(** *** The controller's two stages *)

Inductive stage_log :=
| ErrorNotOnSite
| ErrorPersonalInfoFailed
| ErrorFullFailed (err : E).

Record controller := Controller {
  personalInfoRunning : bool;
  appointmentSearchRunning : bool;
  controller_log : list stage_log;
  stages_started : list string
}.

(** [startPersonalInfoAutomation()] and
    [startAppointmentSearchAutomation(true)]: each resolves with a boolean,
    or rejects. *)
Variables personal_info appointment_search : W → W * (bool + E).

(** [window.location.href.includes("rvsq.gouv.qc.ca")] *)
Variable on_site : W → bool.

(** [async startFullAutomation()] *)
Definition startFullAutomation (c : controller) (w : W)
  : controller * W * bool :=
  let w := waitForPageLoad w in
  if negb (on_site w) then
    (Controller (personalInfoRunning c) (appointmentSearchRunning c)
       (controller_log c ++ [ErrorNotOnSite]) (stages_started c), w, false)
  else
    let c1 := Controller true (appointmentSearchRunning c) (controller_log c)
                (stages_started c ++ ["personal-info"]) in
    match personal_info w with
    | (w1, inr err) =>
        (Controller false false (controller_log c1 ++ [ErrorFullFailed err])
           (stages_started c1), w1, false)
    | (w1, inl false) =>
        (Controller false (appointmentSearchRunning c1)
           (controller_log c1 ++ [ErrorPersonalInfoFailed])
           (stages_started c1), w1, false)
    | (w1, inl true) =>
        let c2 := Controller false true (controller_log c1)
                    (stages_started c1 ++ ["appointment-search"]) in
        match appointment_search w1 with
        | (w2, inl result) => (c2, w2, result)
        | (w2, inr err) =>
            (Controller false false (controller_log c2 ++ [ErrorFullFailed err])
               (stages_started c2), w2, false)
        end
    end.

(** *** The loop against the list *)

Lemma in_range {A} (l1 l2 : list A) (x : A) :
  (length l1 <? length (l1 ++ x :: l2)) = true.
Proof. apply Nat.ltb_lt. rewrite length_app. simpl. lia. Qed.

Lemma for_loop_throws (done pre : list step) (s : step) (post : list step)
    w w1 w2 e lg inv fuel :
  pass pre w = Some w1 → s w1 = (w2, Threw e) → length pre < fuel →
  for_loop fuel (Automation (done ++ pre ++ s :: post) (length done) lg inv) w
  = (Automation (done ++ pre ++ s :: post) (length done + length pre) lg
       (inv ++ seq (length done) (S (length pre))), w2, Threw e).
Proof.
  revert done w inv fuel.
  induction pre as [|p pre IH]; intros done w inv fuel Hp Hs Hf;
    (destruct fuel as [|fuel]; [simpl in Hf; lia|]).
  - simpl in Hp. injection Hp as <-.
    cbn [for_loop steps currentStep app].
    rewrite in_range, list_lookup_middle by done. unfold call_step; simpl.
    rewrite Hs. by rewrite Nat.add_0_r.
  - simpl in Hp. destruct (p w) as [w' [|err]] eqn:Hpw; [|done].
    cbn [for_loop steps currentStep app].
    rewrite in_range, list_lookup_middle by done. rewrite Hpw.
    unfold call_step, set_currentStep; simpl.
    specialize (IH (done ++ [p]) w' (inv ++ [length done]) fuel Hp Hs).
    rewrite length_app in IH. simpl in IH.
    rewrite <- (assoc_L (++) done [p]) in IH. simpl in IH.
    replace (length done + 1) with (S (length done)) in IH by lia.
    rewrite IH by (simpl in Hf; lia).
    rewrite <- (assoc_L (++) inv). simpl.
    by rewrite <- Nat.add_succ_comm.
Qed.

Lemma for_loop_passes (done l : list step) w w' lg inv fuel :
  pass l w = Some w' → length l < fuel →
  for_loop fuel (Automation (done ++ l) (length done) lg inv) w
  = (Automation (done ++ l) (length done + length l) lg
       (inv ++ seq (length done) (length l)), w', Returned).
Proof.
  revert done w inv fuel.
  induction l as [|p l IH]; intros done w inv fuel Hp Hf;
    (destruct fuel as [|fuel]; [simpl in Hf; lia|]).
  - simpl in Hp. injection Hp as <-. simpl.
    rewrite !(right_id_L [] (++)), Nat.add_0_r.
    by rewrite Nat.ltb_irrefl.
  - simpl in Hp. destruct (p w) as [w1 [|err]] eqn:Hpw; [|done].
    cbn [for_loop steps currentStep].
    rewrite in_range, list_lookup_middle by done. rewrite Hpw.
    unfold call_step, set_currentStep; simpl.
    specialize (IH (done ++ [p]) w1 (inv ++ [length done]) fuel Hp).
    rewrite length_app in IH. simpl in IH.
    rewrite <- (assoc_L (++) done [p]) in IH. simpl in IH.
    replace (length done + 1) with (S (length done)) in IH by lia.
    rewrite IH by (simpl in Hf; lia).
    rewrite <- (assoc_L (++) inv). simpl.
    by rewrite <- Nat.add_succ_comm.
Qed.

(** C6.  [start] calls the steps in array order, each on the state the
    previous one left when it settled.  If the step after [pre] throws [e],
    then exactly the steps [0 .. length pre] have been called, once each and
    in order, whatever [post] holds; [currentStep] stays at the index of the
    failing step; the error is logged with that step's number; and the page
    is as the failing step left it, the work of the earlier steps included.
    If no step throws, all are called and success is logged.  The
    controller's two stages run in order too: off the site no stage is
    started; on it the personal-information stage is started first, on the
    page as it is once loaded; the search stage is started exactly when that
    stage resolved with [true], on the page as that stage left it, and its
    result is the result; after a [false] or a rejection of the first stage
    nothing more is started and the page stays as that stage left it. *)
Theorem sequencer_halts_at_first_throw
    (pre post : list step) (s : step) (w w1 w2 : W) (e : E)
    (c : controller) (r : bool + E) :
  (pass pre (waitForNetworkIdle (waitForPageLoad w)) = Some w1 →
   s w1 = (w2, Threw e) →
   start (create (pre ++ s :: post)) w
   = (Automation (pre ++ s :: post) (length pre)
        [InfoStarting; ErrorFailedAt (length pre + 1) e]
        (seq 0 (S (length pre))), w2))
  ∧ (pass pre (waitForNetworkIdle (waitForPageLoad w)) = Some w1 →
     start (create pre) w
     = (Automation pre (length pre) [InfoStarting; SuccessComplete]
          (seq 0 (length pre)), w1))
  ∧ (on_site (waitForPageLoad w) = true →
     personal_info (waitForPageLoad w) = (w1, r) →
     match r with
     | inl true =>
         ∀ w3 r', appointment_search w1 = (w3, r') →
           (startFullAutomation c w).1.2 = w3
           ∧ (startFullAutomation c w).2
             = match r' with inl found => found | inr _ => false end
           ∧ stages_started (startFullAutomation c w).1.1
             = stages_started c ++ ["personal-info"; "appointment-search"]
     | _ =>
         (startFullAutomation c w).1.2 = w1
         ∧ (startFullAutomation c w).2 = false
         ∧ stages_started (startFullAutomation c w).1.1
           = stages_started c ++ ["personal-info"]
     end)
  ∧ (on_site (waitForPageLoad w) = false →
     (startFullAutomation c w).1.2 = waitForPageLoad w
     ∧ (startFullAutomation c w).2 = false
     ∧ stages_started (startFullAutomation c w).1.1 = stages_started c).
Proof.
  split; [|split; [|split]].
  - intros Hp Hs. unfold start, create, logger, set_currentStep.
    cbn [steps currentStep log invoked app].
    pose proof (for_loop_throws [] pre s post _ w1 w2 e [InfoStarting] []
                  (S (length (pre ++ s :: post))) Hp Hs) as H.
    cbn [app length Nat.add] in H.
    rewrite H by (rewrite length_app; simpl; lia).
    done.
  - intros Hp. unfold start, create, logger, set_currentStep.
    cbn [steps currentStep log invoked app].
    pose proof (for_loop_passes [] pre _ w1 [InfoStarting] []
                  (S (length pre)) Hp) as H.
    cbn [app length Nat.add] in H.
    rewrite H by lia. done.
  - intros Hsite Hpi. unfold startFullAutomation.
    rewrite Hsite, Hpi. simpl.
    destruct r as [[|]|err]; [|done|done].
    intros w3 r' Hsearch. rewrite Hsearch.
    destruct r' as [found|err]; simpl; rewrite <- (assoc_L (++)); done.
  - intros Hsite. unfold startFullAutomation. by rewrite Hsite.
Qed.

(** X24.  [startFullAutomation] resolves with [true] exactly when the page
    is on the site and both stages resolve with [true], the search stage
    being run on the page as the personal-information stage left it.  Once
    it has passed the site check it leaves [personalInfoRunning] false on
    every path, but [appointmentSearchRunning] stays true after a search
    stage that resolved with [false]: only a rejection resets it. *)
Theorem full_automation_true_iff (c : controller) (w : W) :
  let r := startFullAutomation c w in
  let w0 := waitForPageLoad w in
  (r.2 = true
   ↔ on_site w0 = true
     ∧ ∃ w1 w2, personal_info w0 = (w1, inl true)
                ∧ appointment_search w1 = (w2, inl true))
  ∧ (on_site w0 = true → personalInfoRunning r.1.1 = false)
  ∧ (on_site w0 = true →
     ∀ w1 w2 b, personal_info w0 = (w1, inl true) →
       appointment_search w1 = (w2, inl b) →
       appointmentSearchRunning r.1.1 = true ∧ r.2 = b ∧ r.1.2 = w2)
  ∧ (on_site w0 = true →
     ∀ w1 w2 err, personal_info w0 = (w1, inl true) →
       appointment_search w1 = (w2, inr err) →
       appointmentSearchRunning r.1.1 = false ∧ r.2 = false).
Proof.
  intros r w0. subst r. unfold startFullAutomation. fold w0.
  destruct (on_site w0) eqn:Hsite; simpl.
  - destruct (personal_info w0) as [w1 [[|]|err]] eqn:Hpi.
    + destruct (appointment_search w1) as [w2 [b|err]] eqn:Has; simpl.
      * split; [|split; [done|split]].
        -- split.
           ++ intros ->. split; [done|]. by exists w1, w2.
           ++ intros (_ & w1' & w2' & [= <-] & Has'). congruence.
        -- intros _ w1' w2' b' [= <-] Has'. rewrite Has in Has'.
           by injection Has' as <- <-.
        -- intros _ w1' w2' err' [= <-] Has'. congruence.
      * split; [|split; [done|split]].
        -- split; [done|]. intros (_ & w1' & w2' & [= <-] & Has'). congruence.
        -- intros _ w1' w2' b' [= <-] Has'. congruence.
        -- intros _ w1' w2' err' [= <-] Has'. done.
    + simpl. split; [|split; [done|split]].
      * split; [done|]. intros (_ & w1' & w2' & H & _). congruence.
      * intros _ w1' w2' b' H. congruence.
      * intros _ w1' w2' b' H. congruence.
    + simpl. split; [|split; [done|split]].
      * split; [done|]. intros (_ & w1' & w2' & H & _). congruence.
      * intros _ w1' w2' b' H. congruence.
      * intros _ w1' w2' b' H. congruence.
  - split; [|split; [done|split; done]].
    split; [done|]. intros [? _]. done.
Qed.

End Steps.

Arguments Returned {E}.
Arguments Threw {E} err.
Arguments Automation {W E} steps currentStep log invoked.
Arguments InfoStarting {E}.
Arguments SuccessComplete {E}.
Arguments ErrorFailedAt {E} n err.
Arguments Controller {E} _ _ _ _.

(** A page that records what was done to it, and a run of the four steps of
    [AppointmentAutomation] in which the continue button is never found. *)
Definition fillPersonalInfo : step (list string) string :=
  λ w, (w ++ ["personal information filled"], Returned).
Definition clickContinue : step (list string) string :=
  λ w, (w, Threw "Element #ctl00_ContentPlaceHolderMP_myButton not found within 30000ms").
Definition fillSearchParameters : step (list string) string :=
  λ w, (w ++ ["search parameters filled"], Returned).
Definition searchForAppointment : step (list string) string :=
  λ w, (w ++ ["search clicked"], Returned).

Lemma sequencer_halts_at_first_throw_witness :
  start (list string) string id id
    (create _ _ [fillPersonalInfo; clickContinue; fillSearchParameters;
                 searchForAppointment]) []
  = (Automation [fillPersonalInfo; clickContinue; fillSearchParameters;
                 searchForAppointment] 1
       [InfoStarting;
        ErrorFailedAt 2 "Element #ctl00_ContentPlaceHolderMP_myButton not found within 30000ms"]
       [0; 1],
     ["personal information filled"])
  ∧ start (list string) string id id (create _ _ [fillPersonalInfo]) []
    = (Automation [fillPersonalInfo] 1 [InfoStarting; SuccessComplete] [0],
       ["personal information filled"])
  ∧ (startFullAutomation (list string) string id
       (λ w, (w ++ ["personal information filled"], inl false))
       (λ w, (w ++ ["search started"], inl true)) (λ _, true)
       (Controller false false [] []) []).2 = false
  ∧ stages_started string
      (startFullAutomation (list string) string id
         (λ w, (w ++ ["personal information filled"], inl false))
         (λ w, (w ++ ["search started"], inl true)) (λ _, true)
         (Controller false false [] []) []).1.1
    = ["personal-info"]
  ∧ (startFullAutomation (list string) string id
       (λ w, (w ++ ["personal information filled"], inl true))
       (λ w, (w ++ ["search started"], inl true)) (λ _, true)
       (Controller false false [] []) []).1.2
    = ["personal information filled"; "search started"]
  ∧ stages_started string
      (startFullAutomation (list string) string id
         (λ w, (w ++ ["personal information filled"], inl true))
         (λ w, (w ++ ["search started"], inl true)) (λ _, true)
         (Controller false false [] []) []).1.1
    = ["personal-info"; "appointment-search"].
Proof.
  destruct (sequencer_halts_at_first_throw (list string) string id id
              (λ w, (w ++ ["personal information filled"], inl false))
              (λ w, (w ++ ["search started"], inl true)) (λ _, true)
              [fillPersonalInfo] [fillSearchParameters; searchForAppointment]
              clickContinue [] ["personal information filled"]
              ["personal information filled"]
              "Element #ctl00_ContentPlaceHolderMP_myButton not found within 30000ms"
              (Controller false false [] []) (inl false))
    as (Hthrow & Hpass & Hstage & _).
  destruct (sequencer_halts_at_first_throw (list string) string id id
              (λ w, (w ++ ["personal information filled"], inl true))
              (λ w, (w ++ ["search started"], inl true)) (λ _, true)
              [fillPersonalInfo] [fillSearchParameters; searchForAppointment]
              clickContinue [] ["personal information filled"]
              ["personal information filled"]
              "Element #ctl00_ContentPlaceHolderMP_myButton not found within 30000ms"
              (Controller false false [] []) (inl true))
    as (_ & _ & Hboth & _).
  destruct (Hstage eq_refl eq_refl) as (_ & Hfalse & Hone).
  destruct (Hboth eq_refl eq_refl
              ["personal information filled"; "search started"] (inl true)
              eq_refl) as (Hpage & _ & Htwo).
  split; [apply Hthrow; reflexivity|].
  split; [apply Hpass; reflexivity|].
  split; [exact Hfalse|]. split; [exact Hone|].
  split; [exact Hpage | exact Htwo].
Defined.


End Sequencer.

(* ===================================================================== *)
(** ** The page: strings, elements, documents                             *)
(* ===================================================================== *)

Module Dom.

(** *** Strings

    A string is its text in UTF-8, a sequence of bytes; on well-formed text
    a substring test on the bytes is the substring test of JavaScript. *)

Fixpoint startsWith (s t : string) : bool :=
  match t, s with
  | EmptyString, _ => true
  | String _ _, EmptyString => false
  | String b t, String a s => if Ascii.eqb a b then startsWith s t else false
  end.

(** [s.includes(t)] *)
Fixpoint includes (s t : string) : bool :=
  startsWith s t
  || match s with
     | EmptyString => false
     | String _ s => includes s t
     end.

(** *** Elements *)

(** [HTMLOptionElement]: [text] and [value]. *)
Record select_option := SelectOption { opt_text : string; opt_value : string }.

(** The classes [fillInput] tests with [instanceof], as the window of the
    script sees the element.  An element of an iframe's document is an
    instance of that frame's own classes and of none of these three: it is
    an [HTMLElement] here. *)
Inductive interface :=
| HTMLInputElement (type : string)
| HTMLSelectElement
| HTMLTextAreaElement
| HTMLElement (tagName : string).

(** An element: [node] is its identity, the other fields are the properties
    the code reads or writes, and what decides the effect of a click on it:
    whether the control is [disabled], and whether a listener of the page
    cancels the click ([cancels_click]). *)
Record element := Element {
  node : nat;
  class : interface;
  checked : bool;
  value : string;
  options : list select_option;
  textContent : string;
  disabled : bool;
  cancels_click : bool
}.

Inductive dom_event := click | input | change.

(** *** What the platform computes

    The methods of the JavaScript platform whose results the code uses
    without this development defining them: the Unicode case mapping and
    white space of [toLowerCase] and [trim], and the value an input or a
    text area holds after an assignment to its [value], which the browser
    sanitizes according to the type and the attributes of the control
    ([None]: the assignment throws an [InvalidStateError], as on a file
    input).  Every theorem stated in a section that has a platform in its
    context holds for every platform, hence for the browser's. *)
Class Platform := {
  toLowerCase : string → string;
  trim : string → string;
  sanitize : element → string → option string;
  toLowerCase_empty : toLowerCase "" = ""
}.

(** One platform to compute with.  It agrees with the browser on text made
    of printable ASCII characters, on the controls that take such a value
    as it is (text, search, password and the like) and on a file input,
    which a script cannot give a file name; the sample pages below hold
    nothing else. *)
Definition ascii_lower (c : ascii) : ascii :=
  let n := nat_of_ascii c in
  if (65 <=? n) && (n <=? 90) then ascii_of_nat (n + 32) else c.

Fixpoint ascii_toLowerCase (s : string) : string :=
  match s with
  | EmptyString => EmptyString
  | String c s => String (ascii_lower c) (ascii_toLowerCase s)
  end.

Definition is_space (c : ascii) : bool :=
  let n := nat_of_ascii c in
  ((9 <=? n) && (n <=? 13)) || (n =? 32).

Fixpoint trimStart (s : string) : string :=
  match s with
  | EmptyString => EmptyString
  | String c s' => if is_space c then trimStart s' else s
  end.

Fixpoint trimEnd (s : string) : string :=
  match s with
  | EmptyString => EmptyString
  | String c s' =>
      match trimEnd s' with
      | EmptyString => if is_space c then EmptyString else String c EmptyString
      | r => String c r
      end
  end.

Definition ascii_trim (s : string) : string := trimEnd (trimStart s).

Definition ascii_sanitize (e : element) (v : string) : option string :=
  match class e with
  | HTMLInputElement type =>
      if String.eqb type "file" && negb (String.eqb v "") then None else Some v
  | _ => Some v
  end.

Definition ascii_platform : Platform :=
  {| toLowerCase := ascii_toLowerCase;
     trim := ascii_trim;
     sanitize := ascii_sanitize;
     toLowerCase_empty := eq_refl |}.

(** *** Documents *)

(** [querySelector(selector)]: the first matching element, [null], or a
    [SyntaxError] exception when the string is not a selector the browser
    accepts (the jQuery forms [:contains(...)] and [:visible] are not). *)
Inductive query :=
| Hit (e : element)
| Miss
| Invalid.

(** What a script that holds an iframe element gets from
    [frame.contentDocument || frame.contentWindow.document]: the document
    of the frame, or an exception (the same-origin policy, or a frame that
    has left the document and has no window). *)
Inductive frame :=
| SameOrigin (frame_querySelector : string → query)
| CrossOrigin.

(** A document at one instant.  [iframes] is the list that
    [document.querySelectorAll('iframe')] returns, the iframe elements by
    their node; [contentDocument] is what each iframe element of the page
    gives at this instant, in the document or not; [querySelectorAll] is
    used with tag names only. *)
Record document := Document {
  querySelector : string → query;
  iframes : list nat;
  contentDocument : nat → frame;
  querySelectorAll : string → list element
}.

(** *** [includes] finds exactly the substrings *)

Lemma startsWith_spec s t :
  startsWith s t = true ↔ ∃ post, s = t +:+ post.
Proof.
  revert s. induction t as [|b t IH]; intros s.
  - destruct s; split; eauto.
  - destruct s as [|a s]; cbn [startsWith].
    + split; [done | by intros [post ?]].
    + destruct (Ascii.eqb_spec a b) as [->|Hne].
      * rewrite IH. split; intros [post H]; exists post.
        -- by rewrite H.
        -- by injection H.
      * split; [done|]. intros [post H]. injection H as H1 H2. done.
Qed.

Lemma includes_spec s t :
  includes s t = true ↔ ∃ pre post, s = pre +:+ t +:+ post.
Proof.
  induction s as [|a s IH]; cbn [includes].
  - rewrite orb_false_r, startsWith_spec. split.
    + intros [post H]. by exists EmptyString, post.
    + intros (pre & post & H). destruct pre; [by exists post | done].
  - rewrite orb_true_iff, startsWith_spec, IH. split.
    + intros [[post H]|(pre & post & H)].
      * by exists EmptyString, post.
      * exists (String a pre), post. simpl. by rewrite H.
    + intros (pre & post & H). destruct pre as [|c pre].
      * left. by exists post.
      * right. simpl in H. injection H as _ H. by exists pre, post.
Qed.

End Dom.

(* ===================================================================== *)
(** ** Element locator: [ElementFinder.findElement] (utils.ts)            *)
(* ===================================================================== *)

Module Locator.

Import Dom.

(** What a watcher's promise can be rejected with. *)
Inductive error :=
| ElementNotFound (selector : string) (timeout : N)
    (* Error(`Element ${selector} not found within ${timeout}ms`) *)
| TextNotFound (elementType : string) (text : option string) (timeout : N)
    (* Error(`${elementType} with text "${textContent}" not found ...`) *)
| SyntaxError (selector : string)     (* thrown by querySelector *)
| TypeError.                          (* undefined.toLowerCase() *)

Inductive settlement :=
| Resolved (e : element)
| Rejected (err : error).

(** The two kinds of promise [findElement] races. *)
Inductive watch :=
| BySelector (selector : string)
    (* waitForElementWithMutationObserver(selector, timeout) *)
| ByText (elementType : string) (text : option string).
    (* findElementByText(elementType, textContent, timeout);
       [None] is [undefined] *)

(** One promise of the race and the resources its executor has armed:
    the MutationObserver, the [setInterval] poll and the [setTimeout]. *)
Record watcher := Watcher {
  target : watch;
  settled : option settlement;
  observer : bool;
  interval : bool;
  timer : bool
}.

Definition settle (k : watch) (r : settlement) : watcher := Watcher k (Some r) false false false.

(** The loop over [frames]: the first accessible frame whose document has a
    match; an exception while reading a frame is caught and the loop goes
    on. *)
Fixpoint search_frames (selector : string) (frames : list frame) : option element :=
  match frames with
  | [] => None
  | SameOrigin q :: frames =>
      match q selector with
      | Hit e => Some e
      | Miss | Invalid => search_frames selector frames
      end
  | CrossOrigin :: frames => search_frames selector frames
  end.

(** What the loop reads: [frames] holds the iframe elements that
    [document.querySelectorAll('iframe')] returned when the executor ran, a
    static list that later insertions do not extend, and each one is asked
    for its document when the loop gets to it. *)
Definition frame_documents (frames : list nat) (doc : document) : list frame :=
  contentDocument doc <$> frames.

Section platform.
Context {browser : Platform}.

(** The executor of [waitForElementWithMutationObserver].  An exception in
    an executor rejects the promise. *)
Definition waitForElementWithMutationObserver (doc : document) (selector : string)
  : watcher :=
  match querySelector doc selector with
  | Invalid => settle (BySelector selector) (Rejected (SyntaxError selector))
  | Hit e => settle (BySelector selector) (Resolved e)
  | Miss =>
      match search_frames selector (frame_documents (iframes doc) doc) with
      | Some e => settle (BySelector selector) (Resolved e)
      | None => Watcher (BySelector selector) None true true true
      end
  end.

(** [elements.find(el => el.textContent.trim().toLowerCase()
                         .includes(textContent.toLowerCase()))]:
    with [textContent] undefined the callback throws on the first element. *)
Definition find_by_text (doc : document) (elementType : string) (text : option string)
  : error + option element :=
  match text with
  | Some t =>
      inr (List.find (λ el, includes (toLowerCase (trim (textContent el))) (toLowerCase t))
             (querySelectorAll doc elementType))
  | None =>
      match querySelectorAll doc elementType with
      | [] => inr None
      | _ :: _ => inl TypeError
      end
  end.

(** The executor of [findElementByText]. *)
Definition findElementByText (doc : document) (elementType : string)
    (text : option string) : watcher :=
  match find_by_text doc elementType text with
  | inl err => settle (ByText elementType text) (Rejected err)
  | inr (Some e) => settle (ByText elementType text) (Resolved e)
  | inr None => Watcher (ByText elementType text) None true false true
  end.

(** The MutationObserver callback.  An exception in a callback is reported
    by the browser and changes nothing. *)
Definition on_mutation (doc : document) (w : watcher) : watcher :=
  match target w with
  | BySelector selector =>
      match querySelector doc selector with
      | Hit e => settle (target w) (Resolved e)
      | Miss | Invalid => w
      end
  | ByText elementType text =>
      match find_by_text doc elementType text with
      | inr (Some e) => settle (target w) (Resolved e)
      | inr None | inl _ => w
      end
  end.

(** The [setInterval] callback of a selector watcher.  It queries the
    document as it is now, and then the frames the executor captured:
    [frames] is the list of the call, [doc] the document of the poll. *)
Definition on_interval (frames : list nat) (doc : document) (w : watcher) : watcher :=
  match target w with
  | BySelector selector =>
      match querySelector doc selector with
      | Hit e => settle (target w) (Resolved e)
      | Invalid => w
      | Miss =>
          match search_frames selector (frame_documents frames doc) with
          | Some e => settle (target w) (Resolved e)
          | None => w
          end
      end
  | ByText _ _ => w
  end.

(** The [setTimeout] callback. *)
Definition on_timeout (timeout : N) (w : watcher) : watcher :=
  match target w with
  | BySelector selector =>
      settle (target w) (Rejected (ElementNotFound selector timeout))
  | ByText elementType text =>
      settle (target w) (Rejected (TextNotFound elementType text timeout))
  end.

(** Which document changes reach which observer: the selector watchers
    observe [childList], [subtree], [attributes] and [characterData]; the
    text watcher does not observe [attributes]. *)
Inductive mutation :=
| Quiet               (* nothing an observer is told about *)
| AttributesOnly
| Structure.          (* child list or character data *)

Definition hears (m : mutation) (w : watcher) : bool :=
  match m, target w with
  | Quiet, _ => false
  | AttributesOnly, BySelector _ => true
  | AttributesOnly, ByText _ _ => false
  | Structure, _ => true
  end.

(** A call of [findElement]: its timeout, the promises it races, and when
    and how the promise it returns settled.  [Promise.race] settles as the
    first of its promises to settle does; [findElement] rethrows. *)
Record call := Call {
  timeout : N;
  watchers : list watcher;
  outcome : option (N * settlement)
}.

Definition first_to_settle (now : N) (before after : watcher)
    (o : option (N * settlement)) : option (N * settlement) :=
  match o, settled before, settled after with
  | None, None, Some r => Some (now, r)
  | _, _, _ => o
  end.

(** The browser runs callback [f] for each watcher that has resource [on]
    armed, in the order the watchers were created. *)
Fixpoint dispatch (on : watcher → bool) (f : watcher → watcher) (now : N)
    (ws : list watcher) (o : option (N * settlement))
  : list watcher * option (N * settlement) :=
  match ws with
  | [] => ([], o)
  | w :: ws =>
      let w' := if on w then f w else w in
      let '(ws', o') := dispatch on f now ws (first_to_settle now w w' o) in
      (w' :: ws', o')
  end.

Definition dispatch_call (on : watcher → bool) (f : watcher → watcher)
    (now : N) (c : call) : call :=
  let '(ws, o) := dispatch on f now (watchers c) (outcome c) in
  Call (timeout c) ws o.

(** The page as the call sees it: the document at each millisecond after
    the call, and whether observers are notified in that millisecond.  The
    document has a [body] to observe, and timers fire in the millisecond
    they are due. *)
Record page := Page {
  dom : N → document;
  mutated : N → mutation
}.

(** The synchronous part of [findElement]: one executor per selector, in
    order, then the text watcher on [selectorOptions[0]]; the race is
    already decided if one of them has settled. *)
Definition findElement_call (doc : document) (selectorOptions : list string)
    (timeout : N) : call :=
  let ws := map (waitForElementWithMutationObserver doc) selectorOptions
            ++ [findElementByText doc "button" (head selectorOptions)] in
  Call timeout ws
    (match List.find (λ w, bool_decide (is_Some (settled w))) ws with
     | Some w => (λ r, (0%N, r)) <$> settled w
     | None => None
     end).

(** Millisecond [now] of the call: observers first, then the timeouts that
    are due (they were set at the call, before any pending poll was
    re-armed), then the polls, every 1000 ms.  Every watcher of the call
    captured the iframes of the document of the call, [dom p 0]. *)
Definition instant (p : page) (now : N) (c : call) : call :=
  let c := if (0 <? now)%N
           then dispatch_call (λ w, observer w && hears (mutated p now) w)
                  (on_mutation (dom p now)) now c
           else c in
  let c := if (now =? timeout c)%N
           then dispatch_call timer (on_timeout (timeout c)) now c
           else c in
  if (0 <? now)%N && (now mod 1000 =? 0)%N
  then dispatch_call interval (on_interval (iframes (dom p 0%N)) (dom p now)) now c
  else c.

(** Milliseconds [from], [from + 1], ..., [from + n - 1]. *)
Fixpoint elapse (p : page) (from : N) (n : nat) (c : call) : call :=
  match n with
  | O => c
  | S n => elapse p (N.succ from) n (instant p from c)
  end.

(** The call at the end of millisecond [upto]. *)
Definition findElement (p : page) (selectorOptions : list string)
    (timeout upto : N) : call :=
  elapse p 0 (S (N.to_nat upto))
    (findElement_call (dom p 0%N) selectorOptions timeout).

(** *** Sample pages *)

(** The search button of the booking site. *)
Definition search_button : element :=
  Element 7 (HTMLElement "BUTTON") false "" [] "Search" false false.

(** A selector the browser rejects: the jQuery forms used in the shipped
    [AUTOMATION_CONFIG]. *)
Definition jquery_only (selector : string) : bool :=
  includes selector ":contains(" || includes selector ":visible".

(** [AUTOMATION_CONFIG.selectors.buttons.search] *)
Definition buttons_search : list string :=
  ["button.h-SearchButton"; "button.btn-primary:contains('Search')";
   ".btn-primary:contains('Search')"; "button.btn-primary";
   ".text-center button"].

(** A results page whose search button has the classes [btn btn-primary]
    only. *)
Definition search_page : document :=
  Document
    (λ selector,
       if jquery_only selector then Invalid
       else if String.eqb selector "button.btn-primary" then Hit search_button
       else Miss)
    [] (λ _, CrossOrigin)
    (λ tag, if String.eqb tag "button" then [search_button] else []).

(** A page with no button at all. *)
Definition empty_page : document :=
  Document (λ selector, if jquery_only selector then Invalid else Miss)
    [] (λ _, CrossOrigin) (λ _, []).

Definition still (doc : document) : page := Page (λ _, doc) (λ _, Quiet).

(** *** The outcome of the race is final *)

Lemma first_to_settle_Some now w w' x :
  first_to_settle now w w' (Some x) = Some x.
Proof. done. Qed.

Lemma dispatch_outcome_Some on f now ws x :
  (dispatch on f now ws (Some x)).2 = Some x.
Proof.
  induction ws as [|w ws IH]; [done|]. simpl.
  destruct (dispatch on f now ws (Some x)) as [ws' o'] eqn:E. simpl in *. done.
Qed.

Lemma dispatch_call_outcome_Some on f now c x :
  outcome c = Some x → outcome (dispatch_call on f now c) = Some x.
Proof.
  intros H. unfold dispatch_call. rewrite H.
  pose proof (dispatch_outcome_Some on f now (watchers c) x) as Hd.
  destruct (dispatch on f now (watchers c) (Some x)) as [ws o]. done.
Qed.

Lemma instant_outcome_Some p now c x :
  outcome c = Some x → outcome (instant p now c) = Some x.
Proof.
  intros H. unfold instant.
  set (c1 := if (0 <? now)%N then _ else c).
  assert (H1 : outcome c1 = Some x).
  { subst c1. destruct (0 <? now)%N; [by apply dispatch_call_outcome_Some | done]. }
  clearbody c1.
  set (c2 := if (now =? timeout c1)%N then _ else c1).
  assert (H2 : outcome c2 = Some x).
  { subst c2. destruct (now =? timeout c1)%N;
      [by apply dispatch_call_outcome_Some | done]. }
  clearbody c2.
  destruct (_ && _); [by apply dispatch_call_outcome_Some | done].
Qed.

Lemma elapse_outcome_Some p from n c x :
  outcome c = Some x → outcome (elapse p from n c) = Some x.
Proof.
  revert from c. induction n as [|n IH]; intros from c H; [done|].
  simpl. apply IH. by apply instant_outcome_Some.
Qed.

(** *** What a watcher holds *)

Definition idle (w : watcher) : Prop :=
  observer w = false ∧ interval w = false ∧ timer w = false.

(** A settled watcher holds nothing; a pending one still has its observer
    connected and its timeout armed. *)
Definition wf (w : watcher) : Prop :=
  match settled w with
  | Some _ => idle w
  | None => observer w = true ∧ timer w = true
  end.

Lemma wf_settle k r : wf (settle k r).
Proof. done. Qed.

Lemma wf_selector doc selector : wf (waitForElementWithMutationObserver doc selector).
Proof.
  unfold waitForElementWithMutationObserver.
  destruct (querySelector doc selector); try done.
  by destruct (search_frames selector _).
Qed.

Lemma wf_text doc ty text : wf (findElementByText doc ty text).
Proof.
  unfold findElementByText.
  by destruct (find_by_text doc ty text) as [?|[?|]].
Qed.

Lemma wf_on_mutation doc w : wf w → wf (on_mutation doc w).
Proof.
  intros H. unfold on_mutation. destruct (target w).
  - by destruct (querySelector doc selector).
  - by destruct (find_by_text doc elementType text) as [?|[?|]].
Qed.

Lemma wf_on_interval frames doc w : wf w → wf (on_interval frames doc w).
Proof.
  intros H. unfold on_interval. destruct (target w); [|done].
  destruct (querySelector doc selector); try done.
  by destruct (search_frames selector _).
Qed.

Lemma wf_on_timeout t w : wf (on_timeout t w).
Proof. unfold on_timeout. by destruct (target w). Qed.

Lemma dispatch_Forall (P : watcher → Prop) on f now ws o :
  (∀ w, P w → P (f w)) → Forall P ws → Forall P (dispatch on f now ws o).1.
Proof.
  intros Hf H. revert o. induction H as [|w ws Hw Hws IH]; intros o; [done|].
  simpl. specialize (IH (first_to_settle now w (if on w then f w else w) o)).
  destruct (dispatch on f now ws _) as [ws' o']. simpl in *.
  constructor; [|done]. destruct (on w); [by apply Hf | done].
Qed.

Lemma dispatch_call_Forall (P : watcher → Prop) on f now c :
  (∀ w, P w → P (f w)) →
  Forall P (watchers c) → Forall P (watchers (dispatch_call on f now c)).
Proof.
  intros Hf H. unfold dispatch_call.
  pose proof (dispatch_Forall P on f now (watchers c) (outcome c) Hf H) as Hd.
  by destruct (dispatch on f now (watchers c) (outcome c)).
Qed.

Lemma timeout_dispatch_call on f now c :
  timeout (dispatch_call on f now c) = timeout c.
Proof.
  unfold dispatch_call.
  by destruct (dispatch on f now (watchers c) (outcome c)).
Qed.

Lemma timeout_instant p now c : timeout (instant p now c) = timeout c.
Proof.
  unfold instant.
  repeat (match goal with |- context [if ?b then _ else _] => destruct b end;
          rewrite ?timeout_dispatch_call); done.
Qed.

Lemma timeout_elapse p from n c : timeout (elapse p from n c) = timeout c.
Proof.
  revert from c. induction n as [|n IH]; intros from c; [done|].
  simpl. by rewrite IH, timeout_instant.
Qed.

Lemma wf_instant p now c :
  Forall wf (watchers c) → Forall wf (watchers (instant p now c)).
Proof.
  intros H. unfold instant.
  set (c1 := if (0 <? now)%N then _ else c).
  assert (H1 : Forall wf (watchers c1)).
  { subst c1. destruct (0 <? now)%N; [|done].
    apply dispatch_call_Forall; [apply wf_on_mutation | done]. }
  clearbody c1.
  set (c2 := if (now =? timeout c1)%N then _ else c1).
  assert (H2 : Forall wf (watchers c2)).
  { subst c2. destruct (now =? timeout c1)%N; [|done].
    apply dispatch_call_Forall; [intros; apply wf_on_timeout | done]. }
  clearbody c2.
  destruct (_ && _); [|done].
  apply dispatch_call_Forall; [apply wf_on_interval | done].
Qed.

Lemma wf_elapse p from n c :
  Forall wf (watchers c) → Forall wf (watchers (elapse p from n c)).
Proof.
  revert from c. induction n as [|n IH]; intros from c H; [done|].
  simpl. apply IH. by apply wf_instant.
Qed.

Lemma wf_findElement_call doc selectorOptions t :
  Forall wf (watchers (findElement_call doc selectorOptions t)).
Proof.
  unfold findElement_call. simpl. apply Forall_app. split.
  - apply Forall_map. apply Forall_true. intros s. apply wf_selector.
  - constructor; [apply wf_text | constructor].
Qed.

(** *** After the timeout every watcher has settled *)

Definition has_settled (w : watcher) : Prop := is_Some (settled w).

Lemma has_settled_on_mutation doc w : has_settled w → has_settled (on_mutation doc w).
Proof.
  intros H. unfold on_mutation. destruct (target w).
  - destruct (querySelector doc selector); [by eexists | done | done].
  - destruct (find_by_text doc elementType text) as [?|[?|]];
      [done | by eexists | done].
Qed.

Lemma has_settled_on_interval frames doc w :
  has_settled w → has_settled (on_interval frames doc w).
Proof.
  intros H. unfold on_interval. destruct (target w); [|done].
  destruct (querySelector doc selector); [by eexists | | done].
  destruct (search_frames selector _); [by eexists | done].
Qed.

Lemma has_settled_on_timeout t w : has_settled (on_timeout t w).
Proof. unfold on_timeout. destruct (target w); by eexists. Qed.

Lemma dispatch_timeout_settles t now ws o :
  Forall wf ws → Forall has_settled (dispatch timer (on_timeout t) now ws o).1.
Proof.
  intros H. revert o. induction H as [|w ws Hw Hws IH]; intros o; [done|].
  simpl.
  specialize (IH (first_to_settle now w (if timer w then on_timeout t w else w) o)).
  destruct (dispatch timer (on_timeout t) now ws _) as [ws' o']. simpl in *.
  constructor; [|done].
  destruct (timer w) eqn:Ht; [apply has_settled_on_timeout|].
  unfold wf in Hw. unfold has_settled.
  destruct (settled w); [by eexists|]. destruct Hw as [_ Hw]. congruence.
Qed.

Lemma instant_at_timeout p c :
  Forall wf (watchers c) →
  Forall has_settled (watchers (instant p (timeout c) c)).
Proof.
  intros H. unfold instant.
  set (c1 := if (0 <? timeout c)%N then _ else c).
  assert (H1 : Forall wf (watchers c1) ∧ timeout c1 = timeout c).
  { subst c1. destruct (0 <? timeout c)%N; [|done]. split.
    - apply dispatch_call_Forall; [apply wf_on_mutation | done].
    - apply timeout_dispatch_call. }
  clearbody c1. destruct H1 as [H1 Ht]. rewrite Ht, N.eqb_refl.
  assert (H2 : Forall has_settled
                 (watchers (dispatch_call timer (on_timeout (timeout c))
                              (timeout c) c1))).
  { unfold dispatch_call.
    pose proof (dispatch_timeout_settles (timeout c) (timeout c) (watchers c1)
                  (outcome c1) H1) as Hd.
    by destruct (dispatch timer _ _ (watchers c1) (outcome c1)). }
  destruct (_ && _); [|done].
  apply dispatch_call_Forall; [apply has_settled_on_interval | done].
Qed.

Lemma has_settled_instant p now c :
  Forall has_settled (watchers c) →
  Forall has_settled (watchers (instant p now c)).
Proof.
  intros H. unfold instant.
  set (c1 := if (0 <? now)%N then _ else c).
  assert (H1 : Forall has_settled (watchers c1)).
  { subst c1. destruct (0 <? now)%N; [|done].
    apply dispatch_call_Forall; [apply has_settled_on_mutation | done]. }
  clearbody c1.
  set (c2 := if (now =? timeout c1)%N then _ else c1).
  assert (H2 : Forall has_settled (watchers c2)).
  { subst c2. destruct (now =? timeout c1)%N; [|done].
    apply dispatch_call_Forall; [intros; apply has_settled_on_timeout | done]. }
  clearbody c2.
  destruct (_ && _); [|done].
  apply dispatch_call_Forall; [apply has_settled_on_interval | done].
Qed.

Lemma has_settled_elapse p from n c :
  Forall has_settled (watchers c) →
  Forall has_settled (watchers (elapse p from n c)).
Proof.
  revert from c. induction n as [|n IH]; intros from c H; [done|].
  simpl. apply IH. by apply has_settled_instant.
Qed.

Lemma elapse_add p from n m c :
  elapse p from (n + m) c
  = elapse p (from + N.of_nat n)%N m (elapse p from n c).
Proof.
  revert from c. induction n as [|n IH]; intros from c.
  - simpl. by rewrite N.add_0_r.
  - cbn [Nat.add elapse]. rewrite IH. f_equal. lia.
Qed.

Lemma settled_after_timeout p selectorOptions t T :
  (t ≤ T)%N →
  Forall has_settled (watchers (findElement p selectorOptions t T)).
Proof.
  intros Hle. unfold findElement.
  replace (S (N.to_nat T))
    with (N.to_nat t + (1 + (N.to_nat T - N.to_nat t)))%nat by lia.
  rewrite elapse_add, N2Nat.id, N.add_0_l.
  set (c := elapse p 0 (N.to_nat t) _).
  assert (Hc : Forall wf (watchers c) ∧ timeout c = t).
  { subst c. split.
    - apply wf_elapse, wf_findElement_call.
    - by rewrite timeout_elapse. }
  clearbody c. destruct Hc as [Hwf <-].
  rewrite (elapse_add p (timeout c) 1). cbn [elapse].
  apply has_settled_elapse. by apply instant_at_timeout.
Qed.

(** C4, as the code has it.  [findElement] never cancels a watcher: each
    watcher disconnects its own observer and clears its own timers when it
    settles itself, by finding the element or by its own timeout.  So at
    any time a settled watcher holds nothing, a watcher that has not
    settled is still observing with its timeout armed whether or not the
    race is decided, and from the timeout on every watcher of the call has
    settled and holds nothing. *)
Theorem watchers_release_on_own_settlement
    (p : page) (selectorOptions : list string) (t T : N) (w : watcher) :
  w ∈ watchers (findElement p selectorOptions t T) →
  (is_Some (settled w) → idle w)
  ∧ (settled w = None → observer w = true ∧ timer w = true ∧ (T < t)%N)
  ∧ ((t ≤ T)%N → is_Some (settled w) ∧ idle w).
Proof.
  intros Hin.
  assert (Hwf : wf w).
  { pose proof (wf_elapse p 0 (S (N.to_nat T)) _
                  (wf_findElement_call (dom p 0%N) selectorOptions t)) as H.
    rewrite Forall_forall in H. by apply H. }
  assert (Hlate : (t ≤ T)%N → is_Some (settled w)).
  { intros Hle. pose proof (settled_after_timeout p selectorOptions t T Hle) as H.
    rewrite Forall_forall in H. by apply H. }
  unfold wf in Hwf. split; [|split].
  - intros [r Hr]. by rewrite Hr in Hwf.
  - intros Hn. rewrite Hn in Hwf. destruct Hwf as [Ho Ht].
    split; [done|]. split; [done|].
    destruct (N.lt_ge_cases T t) as [|Hle]; [done|].
    destruct (Hlate Hle) as [r Hr]. congruence.
  - intros Hle. destruct (Hlate Hle) as [r Hr]. rewrite Hr in Hwf.
    split; [by eexists | done].
Qed.

(** *** A selector that matches at the call *)

(** What the executor's immediate check finds for a selector the browser
    accepts: the document first, then the frames. *)
Definition immediate (doc : document) (selector : string) : option element :=
  match querySelector doc selector with
  | Hit e => Some e
  | Miss => search_frames selector (frame_documents (iframes doc) doc)
  | Invalid => None
  end.

Lemma find_settled_app (ws1 ws2 : list watcher) w :
  Forall (λ w, settled w = None) ws1 → is_Some (settled w) →
  List.find (λ w, bool_decide (is_Some (settled w))) (ws1 ++ w :: ws2) = Some w.
Proof.
  intros H Hw. induction H as [|x ws1 Hx _ IH]; simpl.
  - by rewrite bool_decide_eq_true_2.
  - rewrite bool_decide_eq_false_2; [done|]. rewrite Hx. by intros [? ?].
Qed.

(** When the selectors before the first one that matches are accepted by
    the browser, [findElement] resolves with that match during the call
    itself, and nothing that happens later changes it. *)
Lemma first_match_wins (p : page) (pre post : list string) (s : string)
    (e : element) (t T : N) :
  Forall (λ s', querySelector (dom p 0%N) s' ≠ Invalid
                ∧ immediate (dom p 0%N) s' = None) pre →
  immediate (dom p 0%N) s = Some e →
  outcome (findElement_call (dom p 0%N) (pre ++ s :: post) t)
  = Some (0%N, Resolved e)
  ∧ outcome (findElement p (pre ++ s :: post) t T) = Some (0%N, Resolved e).
Proof.
  intros Hpre Hs.
  assert (H0 : outcome (findElement_call (dom p 0%N) (pre ++ s :: post) t)
               = Some (0%N, Resolved e)).
  { unfold findElement_call. cbn [outcome].
    rewrite map_app. cbn [map]. rewrite <- (assoc_L (++)). cbn [app].
    assert (Hw : settled (waitForElementWithMutationObserver (dom p 0%N) s)
                 = Some (Resolved e)).
    { unfold immediate in Hs. unfold waitForElementWithMutationObserver.
      destruct (querySelector (dom p 0%N) s); [simpl; congruence | | done].
      by rewrite Hs. }
    rewrite find_settled_app; [by rewrite Hw | | by rewrite Hw; eexists].
    apply Forall_map. eapply Forall_impl; [exact Hpre|].
    intros s' [Hv Hi]. unfold immediate in Hi.
    unfold waitForElementWithMutationObserver.
    destruct (querySelector (dom p 0%N) s'); [done | by rewrite Hi | done]. }
  split; [exact H0|]. unfold findElement. by apply elapse_outcome_Some.
Qed.

(** C1 at the shipped [buttons.search] selectors.  On a page whose search
    button is matched by the fourth selector, [findElement] is rejected
    during the call with the [SyntaxError] that [querySelector] throws for
    the second selector, and stays rejected; it never resolves with the
    button. *)
Theorem findElement_rejects_despite_match (T : N) :
  "button.btn-primary" ∈ buttons_search
  ∧ querySelector search_page "button.btn-primary" = Hit search_button
  ∧ outcome (findElement (still search_page) buttons_search 30000 T)
    = Some (0%N, Rejected (SyntaxError "button.btn-primary:contains('Search')")).
Proof.
  split; [|split].
  - unfold buttons_search. set_solver.
  - reflexivity.
  - unfold findElement. apply elapse_outcome_Some. vm_compute. reflexivity.
Qed.

(** *** Nothing ever matches *)

Definition armed_selector (selector : string) : watcher :=
  Watcher (BySelector selector) None true true true.

Definition armed_text (text : option string) : watcher :=
  Watcher (ByText "button" text) None true false true.

Definition armed (selectorOptions : list string) : list watcher :=
  map armed_selector selectorOptions ++ [armed_text (head selectorOptions)].

(** In [doc] every selector is accepted and matches nothing, in the
    document and in the frames the call captured, and no button carries the
    text. *)
Definition quiet (frames : list nat) (doc : document)
    (selectorOptions : list string) : Prop :=
  Forall (λ s, querySelector doc s = Miss
               ∧ search_frames s (frame_documents frames doc) = None)
    selectorOptions
  ∧ find_by_text doc "button" (head selectorOptions) = inr None.

(** The error of the watcher whose timeout fires first: the first one
    created. *)
Definition first_error (selectorOptions : list string) (t : N) : error :=
  match selectorOptions with
  | s :: _ => ElementNotFound s t
  | [] => TextNotFound "button" None t
  end.

Lemma dispatch_id on f now ws o :
  Forall (λ w, on w = true → f w = w) ws → dispatch on f now ws o = (ws, o).
Proof.
  intros H. revert o. induction H as [|w ws Hw _ IH]; intros o; [done|].
  simpl. assert (Hsame : (if on w then f w else w) = w).
  { destruct (on w); [by apply Hw | done]. }
  rewrite Hsame, IH. f_equal.
  unfold first_to_settle. destruct o; [done|]. by destruct (settled w).
Qed.

Lemma dispatch_call_id on f now c :
  Forall (λ w, on w = true → f w = w) (watchers c) →
  dispatch_call on f now c = c.
Proof.
  intros H. unfold dispatch_call. rewrite dispatch_id by done. by destruct c.
Qed.

Lemma quiet_call doc selectorOptions t :
  quiet (iframes doc) doc selectorOptions →
  findElement_call doc selectorOptions t = Call t (armed selectorOptions) None.
Proof.
  intros [Hsel Htext]. unfold findElement_call.
  assert (Hws : map (waitForElementWithMutationObserver doc) selectorOptions
                ++ [findElementByText doc "button" (head selectorOptions)]
                = armed selectorOptions).
  { unfold armed. f_equal.
    - apply Forall_fmap_ext_1. eapply Forall_impl; [exact Hsel|].
      intros s [Hq Hf]. unfold waitForElementWithMutationObserver.
      by rewrite Hq, Hf.
    - unfold findElementByText. by rewrite Htext. }
  rewrite Hws. f_equal.
  assert (Hnone : ∀ ws, Forall (λ w, settled w = None) ws →
            List.find (λ w, bool_decide (is_Some (settled w))) ws = None).
  { intros ws H. induction H as [|w ws Hw _ IH]; [done|]. simpl.
    rewrite bool_decide_eq_false_2; [done|]. rewrite Hw. by intros [? ?]. }
  rewrite Hnone; [done|]. unfold armed. apply Forall_app. split.
  - apply Forall_map. by apply Forall_true.
  - by constructor.
Qed.

Lemma quiet_on_mutation frames doc selectorOptions :
  quiet frames doc selectorOptions →
  Forall (λ w, on_mutation doc w = w) (armed selectorOptions).
Proof.
  intros [Hsel Htext]. unfold armed. apply Forall_app. split.
  - apply Forall_map. eapply Forall_impl; [exact Hsel|].
    intros s [Hq _]. unfold on_mutation. simpl. by rewrite Hq.
  - constructor; [|done]. unfold on_mutation. simpl. by rewrite Htext.
Qed.

Lemma quiet_on_interval frames doc selectorOptions :
  quiet frames doc selectorOptions →
  Forall (λ w, on_interval frames doc w = w) (armed selectorOptions).
Proof.
  intros [Hsel _]. unfold armed. apply Forall_app. split.
  - apply Forall_map. eapply Forall_impl; [exact Hsel|].
    intros s [Hq Hf]. unfold on_interval. simpl. by rewrite Hq, Hf.
  - by constructor.
Qed.

Lemma quiet_instant p now selectorOptions t :
  quiet (iframes (dom p 0%N)) (dom p now) selectorOptions → now ≠ t →
  instant p now (Call t (armed selectorOptions) None)
  = Call t (armed selectorOptions) None.
Proof.
  intros Hq Hne. unfold instant.
  assert (H1 : (if (0 <? now)%N
                then dispatch_call (λ w, observer w && hears (mutated p now) w)
                       (on_mutation (dom p now)) now
                       (Call t (armed selectorOptions) None)
                else Call t (armed selectorOptions) None)
               = Call t (armed selectorOptions) None).
  { destruct (0 <? now)%N; [|done]. apply dispatch_call_id. simpl.
    eapply Forall_impl; [by eapply quiet_on_mutation|]. by intros w -> _. }
  rewrite H1. cbn [timeout].
  destruct (N.eqb_spec now t) as [|_]; [done|].
  destruct (_ && _); [|done]. apply dispatch_call_id. simpl.
  eapply Forall_impl; [by apply quiet_on_interval|]. by intros w -> _.
Qed.

Lemma dispatch_timeout_armed t now selectorOptions :
  dispatch timer (on_timeout t) now (armed selectorOptions) None
  = (map (on_timeout t) (armed selectorOptions),
     Some (now, Rejected (first_error selectorOptions t))).
Proof.
  assert (Hsome : ∀ ws x, Forall (λ w, timer w = true) ws →
            dispatch timer (on_timeout t) now ws (Some x)
            = (map (on_timeout t) ws, Some x)).
  { intros ws x H. induction H as [|w ws Hw _ IH]; [done|].
    simpl. by rewrite Hw, IH. }
  assert (Harmed : ∀ l, Forall (λ w, timer w = true) (armed l)).
  { intros l. unfold armed. apply Forall_app. split.
    - apply Forall_map. by apply Forall_true.
    - by constructor. }
  destruct selectorOptions as [|s l].
  - reflexivity.
  - change (armed (s :: l)) with (armed_selector s :: map armed_selector l
                                    ++ [armed_text (Some s)]).
    cbn [dispatch timer armed_selector]. cbn.
    pose proof (Hsome (map armed_selector l ++ [armed_text (Some s)])
                  (now, Rejected (ElementNotFound s t))) as H.
    rewrite H; [done|].
    apply Forall_app. split; [|by constructor].
    apply Forall_map. by apply Forall_true.
Qed.

Lemma quiet_instant_timeout p selectorOptions t :
  quiet (iframes (dom p 0%N)) (dom p t) selectorOptions →
  outcome (instant p t (Call t (armed selectorOptions) None))
  = Some (t, Rejected (first_error selectorOptions t)).
Proof.
  intros Hq. unfold instant.
  assert (H1 : (if (0 <? t)%N
                then dispatch_call (λ w, observer w && hears (mutated p t) w)
                       (on_mutation (dom p t)) t
                       (Call t (armed selectorOptions) None)
                else Call t (armed selectorOptions) None)
               = Call t (armed selectorOptions) None).
  { destruct (0 <? t)%N; [|done]. apply dispatch_call_id. simpl.
    eapply Forall_impl; [by eapply quiet_on_mutation|]. by intros w -> _. }
  rewrite H1. cbn [timeout]. rewrite N.eqb_refl.
  assert (H2 : outcome (dispatch_call timer (on_timeout t) t
                          (Call t (armed selectorOptions) None))
               = Some (t, Rejected (first_error selectorOptions t))).
  { unfold dispatch_call. cbn [watchers outcome].
    by rewrite dispatch_timeout_armed. }
  destruct (_ && _); [|done]. by apply dispatch_call_outcome_Some.
Qed.

Lemma quiet_elapse p selectorOptions t from n :
  (∀ k, (k ≤ t)%N → quiet (iframes (dom p 0%N)) (dom p k) selectorOptions) →
  (from + N.of_nat n ≤ t)%N →
  elapse p from n (Call t (armed selectorOptions) None)
  = Call t (armed selectorOptions) None.
Proof.
  intros Hq. revert from. induction n as [|n IH]; intros from Hle; [done|].
  cbn [elapse]. rewrite quiet_instant; [apply IH | apply Hq |]; lia.
Qed.

(** When every selector is accepted by the browser and nothing matches up
    to the deadline, in the document or in the frames that were in it at
    the call, [findElement] is pending at every instant before the
    timeout and is rejected at the timeout, with the error of its first
    watcher. *)
Lemma never_found_rejects_at_timeout (p : page) (selectorOptions : list string)
    (t T : N) :
  (∀ k, (k ≤ t)%N → quiet (iframes (dom p 0%N)) (dom p k) selectorOptions) →
  outcome (findElement p selectorOptions t T)
  = if (T <? t)%N then None
    else Some (t, Rejected (first_error selectorOptions t)).
Proof.
  intros Hq. unfold findElement.
  rewrite quiet_call by (apply Hq; lia).
  destruct (N.ltb_spec T t) as [Hlt|Hge].
  - by rewrite quiet_elapse by (done || lia).
  - replace (S (N.to_nat T))
      with (N.to_nat t + (1 + (N.to_nat T - N.to_nat t)))%nat by lia.
    rewrite elapse_add, quiet_elapse by (done || lia).
    rewrite N2Nat.id, N.add_0_l, (elapse_add p t 1). cbn [elapse].
    apply elapse_outcome_Some, quiet_instant_timeout, Hq. lia.
Qed.

(** C2 at the shipped [buttons.search] selectors.  On a page where nothing
    matches, [findElement] is rejected during the call, 30 s before the
    timeout, and with the [SyntaxError] of the second selector rather than
    a not-found error. *)
Theorem findElement_rejects_before_timeout (T : N) :
  Forall (λ s, immediate empty_page s = None) buttons_search
  ∧ find_by_text empty_page "button" (head buttons_search) = inr None
  ∧ outcome (findElement (still empty_page) buttons_search 30000 T)
    = Some (0%N, Rejected (SyntaxError "button.btn-primary:contains('Search')")).
Proof.
  split; [|split].
  - repeat constructor.
  - reflexivity.
  - unfold findElement. apply elapse_outcome_Some. vm_compute. reflexivity.
Qed.

(** *** Every outcome has a cause *)

(** What happens to the race when a callback is dispatched while it is
    still open: either it stays open and no pending watcher has settled, or
    it is closed now by a pending watcher whose callback ran and settled
    it. *)
Lemma dispatch_None on f now ws :
  ((dispatch on f now ws None).2 = None
   ∧ Forall2 (λ w w', settled w = None → settled w' = None)
       ws (dispatch on f now ws None).1)
  ∨ (∃ w r, w ∈ ws ∧ settled w = None ∧ on w = true
            ∧ settled (f w) = Some r
            ∧ (dispatch on f now ws None).2 = Some (now, r)).
Proof.
  induction ws as [|w ws IH]; [left; by split|]. cbn [dispatch].
  set (w' := if on w then f w else w).
  destruct (settled w) as [r0|] eqn:Hw.
  - assert (E : first_to_settle now w w' None = None)
      by (unfold first_to_settle; by rewrite Hw).
    rewrite E.
    destruct (dispatch on f now ws None) as [ws' o'] eqn:Hd. simpl in *.
    destruct IH as [[Ho Hall]|(x & r & Hx & Hxs & Hon & Hfx & Ho)].
    + left. split; [done|]. constructor; [congruence | done].
    + right. exists x, r. repeat split; try done. by apply list_elem_of_further.
  - destruct (settled w') as [r|] eqn:Hw'.
    + right. exists w, r.
      assert (Hon : on w = true).
      { subst w'. destruct (on w); [done | congruence]. }
      assert (Hf : settled (f w) = Some r) by (subst w'; by rewrite Hon in Hw').
      assert (E : first_to_settle now w w' None = Some (now, r))
        by (unfold first_to_settle; by rewrite Hw, Hw').
      rewrite E.
      pose proof (dispatch_outcome_Some on f now ws (now, r)) as Hs.
      destruct (dispatch on f now ws (Some (now, r))) as [ws' o']. simpl in *.
      repeat split; try done. apply list_elem_of_here.
    + assert (E : first_to_settle now w w' None = None)
        by (unfold first_to_settle; by rewrite Hw, Hw').
      rewrite E.
      destruct (dispatch on f now ws None) as [ws' o'] eqn:Hd. simpl in *.
      destruct IH as [[Ho Hall]|(x & r & Hx & Hxs & Hon & Hfx & Ho)].
      * left. split; [done|]. by constructor.
      * right. exists x, r. repeat split; try done.
        by apply list_elem_of_further.
Qed.

(** An element is found in a document for a list of selectors when one of
    them selects it there, in the document or in one of the frames the call
    captured, or when it is the button the text search selects. *)
Definition found_by (frames : list nat) (doc : document)
    (selectorOptions : list string) (e : element) : Prop :=
  (∃ s, s ∈ selectorOptions
        ∧ (querySelector doc s = Hit e
           ∨ search_frames s (frame_documents frames doc) = Some e))
  ∨ find_by_text doc "button" (head selectorOptions) = inr (Some e).

(** The cause an outcome can have. *)
Definition explains (p : page) (selectorOptions : list string) (t : N)
    (when : N) (r : settlement) : Prop :=
  match r with
  | Resolved e => found_by (iframes (dom p 0%N)) (dom p when) selectorOptions e
  | Rejected (ElementNotFound s t') => when = t ∧ t' = t ∧ s ∈ selectorOptions
  | Rejected (TextNotFound ty text t') =>
      when = t ∧ t' = t ∧ ty = "button" ∧ text = head selectorOptions
  | Rejected (SyntaxError s) =>
      when = 0%N ∧ s ∈ selectorOptions ∧ querySelector (dom p 0%N) s = Invalid
  | Rejected TypeError =>
      when = 0%N ∧ selectorOptions = []
      ∧ querySelectorAll (dom p 0%N) "button" ≠ []
  end.

Definition watches (selectorOptions : list string) (w : watcher) : Prop :=
  match target w with
  | BySelector s => s ∈ selectorOptions
  | ByText ty text => ty = "button" ∧ text = head selectorOptions
  end.

Lemma find_by_text_TypeError doc ty text err :
  find_by_text doc ty text = inl err →
  err = TypeError ∧ text = None ∧ querySelectorAll doc ty ≠ [].
Proof.
  unfold find_by_text. destruct text; [done|].
  destruct (querySelectorAll doc ty); [done|]. by intros [= <-].
Qed.

Lemma explains_executor p selectorOptions t w r :
  w ∈ watchers (findElement_call (dom p 0%N) selectorOptions t) →
  settled w = Some r → explains p selectorOptions t 0 r.
Proof.
  unfold findElement_call. cbn [watchers]. rewrite elem_of_app.
  intros [Hin|Hin] Hr.
  - apply list_elem_of_fmap in Hin as (s & -> & Hs).
    unfold waitForElementWithMutationObserver in Hr.
    destruct (querySelector (dom p 0%N) s) eqn:Hq; simpl in Hr.
    + injection Hr as <-. left. exists s. split; [done | by left].
    + destruct (search_frames s _) eqn:Hf; [|done].
      injection Hr as <-. left. exists s. split; [done | by right].
    + injection Hr as <-. simpl. done.
  - apply list_elem_of_singleton in Hin as ->.
    unfold findElementByText in Hr.
    destruct (find_by_text (dom p 0%N) "button" (head selectorOptions))
      as [err|[e|]] eqn:Hf; simpl in Hr; [| |done].
    + injection Hr as <-.
      destruct (find_by_text_TypeError _ _ _ _ Hf) as (-> & Hh & Hb).
      simpl. split; [done|]. split; [by destruct selectorOptions | done].
    + injection Hr as <-. by right.
Qed.

Lemma watches_executor doc selectorOptions t :
  Forall (watches selectorOptions)
    (watchers (findElement_call doc selectorOptions t)).
Proof.
  unfold findElement_call. cbn [watchers]. apply Forall_app. split.
  - apply Forall_map, Forall_forall. intros s Hs. unfold watches.
    unfold waitForElementWithMutationObserver.
    destruct (querySelector doc s); try done.
    by destruct (search_frames s _).
  - constructor; [|done]. unfold watches, findElementByText.
    by destruct (find_by_text doc "button" (head selectorOptions)) as [?|[?|]].
Qed.

Lemma watches_on_mutation l doc w : watches l w → watches l (on_mutation doc w).
Proof.
  unfold watches, on_mutation. destruct (target w) eqn:Ht; intros H.
  - destruct (querySelector doc selector); simpl; by rewrite ?Ht.
  - destruct (find_by_text doc elementType text) as [?|[?|]];
      simpl; by rewrite ?Ht.
Qed.

Lemma watches_on_interval l frames doc w :
  watches l w → watches l (on_interval frames doc w).
Proof.
  unfold watches, on_interval. destruct (target w) eqn:Ht; intros H.
  - destruct (querySelector doc selector); simpl; rewrite ?Ht; try done.
    destruct (search_frames selector _); simpl; by rewrite ?Ht.
  - simpl. by rewrite ?Ht.
Qed.

Lemma watches_on_timeout l t w : watches l w → watches l (on_timeout t w).
Proof.
  unfold watches, on_timeout. destruct (target w) eqn:Ht; intros H; simpl;
    by rewrite ?Ht.
Qed.

Lemma explains_on_mutation p l t now w r :
  watches l w → settled w = None → settled (on_mutation (dom p now) w) = Some r →
  explains p l t now r.
Proof.
  unfold watches, on_mutation. destruct (target w) eqn:Ht; intros Hw Hs Hr.
  - destruct (querySelector (dom p now) selector) eqn:Hq;
      simpl in Hr; [|congruence|congruence].
    injection Hr as <-. left. exists selector. split; [done | by left].
  - destruct Hw as [-> ->].
    destruct (find_by_text (dom p now) "button" (head l)) as [?|[e|]] eqn:Hf;
      simpl in Hr; [congruence| |congruence].
    injection Hr as <-. by right.
Qed.

Lemma explains_on_interval p l t now w r :
  watches l w → settled w = None →
  settled (on_interval (iframes (dom p 0%N)) (dom p now) w) = Some r →
  explains p l t now r.
Proof.
  unfold watches, on_interval. destruct (target w) eqn:Ht; intros Hw Hs Hr;
    [|congruence].
  destruct (querySelector (dom p now) selector) eqn:Hq; simpl in Hr;
    [| |congruence].
  - injection Hr as <-. left. exists selector. split; [done | by left].
  - destruct (search_frames selector _) eqn:Hf;
      simpl in Hr; [|congruence].
    injection Hr as <-. left. exists selector. split; [done | by right].
Qed.

Lemma explains_on_timeout p l t w r :
  watches l w → settled (on_timeout t w) = Some r → explains p l t t r.
Proof.
  unfold watches, on_timeout. destruct (target w) eqn:Ht; intros Hw Hr;
    simpl in Hr; injection Hr as <-; simpl; [done|].
  by destruct Hw as [-> ->].
Qed.

(** The state of a call in which every outcome has its cause. *)
Definition justified (p : page) (l : list string) (t : N) (c : call) : Prop :=
  timeout c = t ∧ Forall (watches l) (watchers c)
  ∧ (outcome c = None → Forall (λ w, settled w = None) (watchers c))
  ∧ ∀ when r, outcome c = Some (when, r) → explains p l t when r.

Lemma justified_dispatch p l t on f now c :
  (∀ w, watches l w → watches l (f w)) →
  (∀ w r, watches l w → settled w = None → settled (f w) = Some r →
          explains p l t now r) →
  justified p l t c → justified p l t (dispatch_call on f now c).
Proof.
  intros Hkeep Hcause (Ht & Hw & Hopen & Hout).
  unfold justified, dispatch_call.
  pose proof (dispatch_Forall (watches l) on f now (watchers c) (outcome c)
                Hkeep Hw) as Hw'.
  destruct (outcome c) as [x|] eqn:Ho.
  - pose proof (dispatch_outcome_Some on f now (watchers c) x) as Hs.
    destruct (dispatch on f now (watchers c) (Some x)) as [ws' o'].
    simpl in *. subst o'. repeat split; try done.
  - pose proof (dispatch_None on f now (watchers c)) as Hd.
    destruct (dispatch on f now (watchers c) None) as [ws' o']. simpl in *.
    destruct Hd as [[-> Hall]|(w & r & Hin & Hs & Hon & Hf & ->)].
    + repeat split; try done. intros _.
      specialize (Hopen eq_refl).
      clear -Hall Hopen. induction Hall as [|w w' ws ws' H _ IH]; [done|].
      apply Forall_cons in Hopen as [Hw Hws]. constructor; auto.
    + repeat split; try done. intros when r' [= <- <-].
      apply (Hcause w); try done. rewrite Forall_forall in Hw. by apply Hw.
Qed.

Lemma justified_instant p l t now c :
  justified p l t c → justified p l t (instant p now c).
Proof.
  intros H. unfold instant.
  set (c1 := if (0 <? now)%N then _ else c).
  assert (H1 : justified p l t c1).
  { subst c1. destruct (0 <? now)%N; [|done].
    apply justified_dispatch; [apply watches_on_mutation | | done].
    intros w r. apply explains_on_mutation. }
  clearbody c1.
  set (c2 := if (now =? timeout c1)%N then _ else c1).
  assert (H2 : justified p l t c2).
  { subst c2. destruct (N.eqb_spec now (timeout c1)) as [->|]; [|done].
    destruct H1 as (Ht & ?). rewrite Ht.
    apply justified_dispatch; [apply watches_on_timeout | | by split].
    intros w r Hw _. by apply explains_on_timeout. }
  clearbody c2.
  destruct (_ && _); [|done].
  apply justified_dispatch; [apply watches_on_interval | | done].
  intros w r. apply explains_on_interval.
Qed.

Lemma justified_elapse p l t from n c :
  justified p l t c → justified p l t (elapse p from n c).
Proof.
  revert from c. induction n as [|n IH]; intros from c H; [done|].
  simpl. apply IH. by apply justified_instant.
Qed.

Lemma justified_call p l t : justified p l t (findElement_call (dom p 0%N) l t).
Proof.
  split; [done|]. split; [apply watches_executor|].
  pose proof (explains_executor p l t) as Hex.
  unfold findElement_call in *. cbn [watchers outcome] in *.
  set (ws := map _ l ++ _) in *. clearbody ws.
  split.
  - intros Hnone. apply Forall_forall. intros w Hw.
    destruct (settled w) as [r|] eqn:Hr; [|done]. exfalso.
    destruct (List.find _ ws) as [w'|] eqn:Hfind.
    + apply find_some in Hfind as [_ Hb]. apply bool_decide_eq_true in Hb.
      destruct Hb as [r' Hr']. by rewrite Hr' in Hnone.
    + assert (Hb : bool_decide (is_Some (settled w)) = false).
      { apply (List.find_none _ _ Hfind w). by apply list_elem_of_In. }
      apply bool_decide_eq_false in Hb. apply Hb. by eexists.
  - intros when r. destruct (List.find _ ws) as [w|] eqn:Hfind; [|done].
    apply find_some in Hfind as [Hin _]. apply list_elem_of_In in Hin.
    destruct (settled w) as [r'|] eqn:Hr; [|done]. simpl.
    intros [= <- <-]. by apply (Hex w).
Qed.

(** X9.  Whatever [findElement] settles with has a cause in the page at
    that instant.  An element it resolves with is one that a candidate
    selector selected then, in the document or in a frame that was in it
    at the call, or the button the text search selected.  A not-found
    error comes only at the timeout,
    never before, and names a candidate selector and the timeout.  The only
    other rejections come during the call: the [SyntaxError] of a candidate
    the browser does not accept, or the [TypeError] of the text search when
    the list of selectors is empty and the page has a button. *)
Theorem outcome_has_cause (p : page) (selectorOptions : list string)
    (t T when : N) (r : settlement) :
  outcome (findElement p selectorOptions t T) = Some (when, r) →
  explains p selectorOptions t when r.
Proof.
  intros H.
  destruct (justified_elapse p selectorOptions t 0 (S (N.to_nat T)) _
              (justified_call p selectorOptions t)) as (_ & _ & _ & Hout).
  by apply Hout.
Qed.

(** *** [findElement] settles, once, and by the timeout *)

Definition on_time (bound : N) (c : call) : Prop :=
  ∀ when r, outcome c = Some (when, r) → (when ≤ bound)%N.

Lemma on_time_dispatch on f now b c :
  on_time b c → (b ≤ now)%N → on_time now (dispatch_call on f now c).
Proof.
  intros Hc Hb when r. unfold dispatch_call.
  destruct (outcome c) as [x|] eqn:Ho.
  - pose proof (dispatch_outcome_Some on f now (watchers c) x) as Hs.
    destruct (dispatch on f now (watchers c) (Some x)) as [ws' o'].
    simpl in *. subst o'. intros Hx.
    assert (when ≤ b)%N by (apply (Hc when r); congruence). lia.
  - pose proof (dispatch_None on f now (watchers c)) as Hd.
    destruct (dispatch on f now (watchers c) None) as [ws' o']. simpl in *.
    destruct Hd as [[-> _]|(w & r' & _ & _ & _ & _ & ->)]; [done|].
    intros [= <- _]. lia.
Qed.

Lemma on_time_weaken b b' c : on_time b c → (b ≤ b')%N → on_time b' c.
Proof. intros H Hb when r Ho. specialize (H when r Ho). lia. Qed.

Lemma on_time_instant p now b c :
  on_time b c → (b ≤ now)%N → on_time now (instant p now c).
Proof.
  intros H Hb. unfold instant.
  set (c1 := if (0 <? now)%N then _ else c).
  assert (H1 : on_time now c1).
  { subst c1. destruct (0 <? now)%N;
      [by eapply on_time_dispatch | by eapply on_time_weaken]. }
  clearbody c1.
  set (c2 := if (now =? timeout c1)%N then _ else c1).
  assert (H2 : on_time now c2).
  { subst c2. destruct (now =? timeout c1)%N; [|done].
    by eapply on_time_dispatch. }
  clearbody c2.
  destruct (_ && _); [|done]. by eapply on_time_dispatch.
Qed.

Lemma on_time_elapse p from n b c :
  on_time b c → (b ≤ from)%N →
  on_time (from + N.of_nat n) (elapse p from (S n) c).
Proof.
  revert from b c. induction n as [|n IH]; intros from b c H Hb.
  - cbn [elapse]. rewrite N.add_0_r. by eapply on_time_instant.
  - cbn [elapse] in *.
    replace (from + N.of_nat (S n))%N with (N.succ from + N.of_nat n)%N by lia.
    apply (IH (N.succ from) from); [by eapply on_time_instant | lia].
Qed.

Lemma on_time_call doc l t : on_time 0 (findElement_call doc l t).
Proof.
  intros when r. unfold findElement_call. cbn [outcome].
  destruct (List.find _ _) as [w|]; [|done].
  destruct (settled w); [|done]. simpl. by intros [= <- _].
Qed.

Lemma length_dispatch on f now ws o :
  length (dispatch on f now ws o).1 = length ws.
Proof.
  revert o. induction ws as [|w ws IH]; intros o; [done|]. simpl.
  specialize (IH (first_to_settle now w (if on w then f w else w) o)).
  destruct (dispatch on f now ws _). simpl in *. by rewrite IH.
Qed.

Lemma length_dispatch_call on f now c :
  length (watchers (dispatch_call on f now c)) = length (watchers c).
Proof.
  unfold dispatch_call.
  pose proof (length_dispatch on f now (watchers c) (outcome c)) as H.
  by destruct (dispatch on f now (watchers c) (outcome c)).
Qed.

Lemma length_instant p now c :
  length (watchers (instant p now c)) = length (watchers c).
Proof.
  unfold instant.
  repeat (match goal with |- context [if ?b then _ else _] => destruct b end;
          rewrite ?length_dispatch_call); done.
Qed.

Lemma length_elapse p from n c :
  length (watchers (elapse p from n c)) = length (watchers c).
Proof.
  revert from c. induction n as [|n IH]; intros from c; [done|].
  simpl. by rewrite IH, length_instant.
Qed.

Lemma findElement_later p l t T T' :
  (T ≤ T')%N →
  findElement p l t T'
  = elapse p (N.succ T) (N.to_nat T' - N.to_nat T) (findElement p l t T).
Proof.
  intros Hle. unfold findElement.
  replace (S (N.to_nat T'))
    with (S (N.to_nat T) + (N.to_nat T' - N.to_nat T)) by lia.
  rewrite elapse_add. f_equal. lia.
Qed.

(** X10.  [findElement] settles once and never hangs: an outcome it has at
    one instant is its outcome at every later instant; the instant recorded
    with it is not in the future and not after the timeout; and from the
    timeout on there is an outcome, whatever the page does. *)
Theorem findElement_settles_by_timeout (p : page) (selectorOptions : list string)
    (t T T' : N) :
  (∀ x, (T ≤ T')%N → outcome (findElement p selectorOptions t T) = Some x →
        outcome (findElement p selectorOptions t T') = Some x)
  ∧ (∀ when r, outcome (findElement p selectorOptions t T) = Some (when, r) →
        (when ≤ T)%N ∧ (when ≤ t)%N)
  ∧ ((t ≤ T)%N → is_Some (outcome (findElement p selectorOptions t T))).
Proof.
  assert (Hfinal : ∀ A B x, (A ≤ B)%N →
            outcome (findElement p selectorOptions t A) = Some x →
            outcome (findElement p selectorOptions t B) = Some x).
  { intros A B x Hle Hx. rewrite (findElement_later p _ t A B Hle).
    by apply elapse_outcome_Some. }
  assert (Hnow : ∀ A when r,
            outcome (findElement p selectorOptions t A) = Some (when, r) →
            (when ≤ A)%N).
  { intros A when r Hx.
    pose proof (on_time_elapse p 0 (N.to_nat A) 0 _
                  (on_time_call (dom p 0%N) selectorOptions t) (N.le_refl _))
      as Hon.
    specialize (Hon when r Hx). lia. }
  assert (Hsome : ∀ A, (t ≤ A)%N →
            is_Some (outcome (findElement p selectorOptions t A))).
  { intros A Hle.
    destruct (outcome (findElement p selectorOptions t A)) eqn:Ho; [done|].
    exfalso.
    destruct (justified_elapse p selectorOptions t 0 (S (N.to_nat A)) _
                (justified_call p selectorOptions t)) as (_ & _ & Hopen & _).
    specialize (Hopen Ho).
    pose proof (settled_after_timeout p selectorOptions t A Hle) as Hset.
    pose proof (length_elapse p 0 (S (N.to_nat A))
                  (findElement_call (dom p 0%N) selectorOptions t)) as Hlen.
    fold (findElement p selectorOptions t A) in Hopen, Hlen.
    unfold findElement_call in Hlen. cbn [watchers] in Hlen.
    rewrite length_app in Hlen. simpl in Hlen.
    destruct (watchers (findElement p selectorOptions t A)) as [|w ws];
      [simpl in Hlen; lia|].
    apply Forall_cons in Hopen as [Hw _]. apply Forall_cons in Hset as [[r Hr] _].
    congruence. }
  split; [|split].
  - intros x Hle. by apply Hfinal.
  - intros when r Hx. split; [by eapply Hnow|].
    destruct (N.le_gt_cases T t) as [Hle|Hgt].
    + specialize (Hnow _ _ _ Hx). lia.
    + destruct (Hsome t (N.le_refl _)) as [[when' r'] Hy].
      pose proof (Hfinal t T _ ltac:(lia) Hy) as Hz.
      rewrite Hx in Hz. injection Hz as -> ->. by eapply Hnow.
  - apply Hsome.
Qed.

(** *** An element that appears after the call *)

(** Nothing for the observers to find in [doc]: every selector is accepted
    and selects nothing in the document itself, and no button carries the
    text. *)
Definition quiet_main (doc : document) (l : list string) : Prop :=
  Forall (λ s, querySelector doc s = Miss) l
  ∧ find_by_text doc "button" (head l) = inr None.

(** The frames the call captured have no match in [doc]. *)
Definition no_frame_match (frames : list nat) (doc : document)
    (l : list string) : Prop :=
  Forall (λ s, search_frames s (frame_documents frames doc) = None) l.

Definition is_poll (now : N) : bool := (0 <? now)%N && (now mod 1000 =? 0)%N.

(** Nothing happens to the watchers in millisecond [k]: it is not the
    timeout, the document has nothing for the observers, and if the poll
    runs the frames of the call have nothing either. *)
Definition calm (p : page) (l : list string) (t k : N) : Prop :=
  k ≠ t ∧ quiet_main (dom p k) l
  ∧ (is_poll k = true → no_frame_match (iframes (dom p 0%N)) (dom p k) l).

Lemma quiet_main_on_mutation doc l :
  quiet_main doc l → Forall (λ w, on_mutation doc w = w) (armed l).
Proof.
  intros [Hsel Htext]. unfold armed. apply Forall_app. split.
  - apply Forall_map. eapply Forall_impl; [exact Hsel|].
    intros s Hq. unfold on_mutation. simpl. by rewrite Hq.
  - constructor; [|done]. unfold on_mutation. simpl. by rewrite Htext.
Qed.

Lemma calm_on_interval frames doc l :
  quiet_main doc l → no_frame_match frames doc l →
  Forall (λ w, on_interval frames doc w = w) (armed l).
Proof.
  intros [Hsel _] Hfr. unfold armed. apply Forall_app. split; [|by constructor].
  apply Forall_map. unfold no_frame_match in Hfr.
  rewrite Forall_forall in Hsel, Hfr. apply Forall_forall. intros s Hs.
  unfold on_interval. simpl. by rewrite (Hsel s Hs), (Hfr s Hs).
Qed.

Lemma calm_instant p l t now :
  calm p l t now →
  instant p now (Call t (armed l) None) = Call t (armed l) None.
Proof.
  intros (Hne & Hq & Hfr). unfold instant.
  assert (H1 : (if (0 <? now)%N
                then dispatch_call (λ w, observer w && hears (mutated p now) w)
                       (on_mutation (dom p now)) now (Call t (armed l) None)
                else Call t (armed l) None)
               = Call t (armed l) None).
  { destruct (0 <? now)%N; [|done]. apply dispatch_call_id. simpl.
    eapply Forall_impl; [by apply quiet_main_on_mutation|]. by intros w -> _. }
  rewrite H1. cbn [timeout].
  destruct (N.eqb_spec now t) as [|_]; [done|].
  fold (is_poll now). destruct (is_poll now); [|done].
  apply dispatch_call_id. simpl.
  eapply Forall_impl; [by apply calm_on_interval; auto|]. by intros w -> _.
Qed.

Lemma calm_elapse p l t from n :
  (∀ k, (from ≤ k < from + N.of_nat n)%N → calm p l t k) →
  elapse p from n (Call t (armed l) None) = Call t (armed l) None.
Proof.
  revert from. induction n as [|n IH]; intros from H; [done|].
  cbn [elapse]. rewrite calm_instant by (apply H; lia).
  apply IH. intros k Hk. apply H. lia.
Qed.

Lemma quiet_main_call doc l t :
  quiet_main doc l → no_frame_match (iframes doc) doc l →
  findElement_call doc l t = Call t (armed l) None.
Proof.
  intros [Hsel Htext] Hfr. apply quiet_call. split; [|done].
  unfold no_frame_match in Hfr. rewrite Forall_forall in Hsel, Hfr.
  apply Forall_forall. intros s Hs. split; auto.
Qed.

Lemma dispatch_first_hit on f now ws1 w ws2 r :
  Forall (λ w1, on w1 = true → f w1 = w1) ws1 →
  on w = true → settled w = None → settled (f w) = Some r →
  (dispatch on f now (ws1 ++ w :: ws2) None).2 = Some (now, r).
Proof.
  intros H Hon Hw Hf. induction H as [|w1 ws1 H1 _ IH]; cbn [app dispatch].
  - rewrite Hon.
    assert (E : first_to_settle now w (f w) None = Some (now, r))
      by (unfold first_to_settle; by rewrite Hw, Hf).
    rewrite E.
    pose proof (dispatch_outcome_Some on f now ws2 (now, r)) as Hs.
    by destruct (dispatch on f now ws2 (Some (now, r))).
  - assert (Hsame : (if on w1 then f w1 else w1) = w1).
    { destruct (on w1); [by apply H1 | done]. }
    rewrite Hsame.
    assert (E : first_to_settle now w1 w1 None = None).
    { unfold first_to_settle. by destruct (settled w1). }
    rewrite E. by destruct (dispatch on f now (ws1 ++ w :: ws2) None).
Qed.

Lemma armed_middle (pre post : list string) (s : string) :
  armed (pre ++ s :: post)
  = map armed_selector pre
    ++ armed_selector s
       :: (map armed_selector post ++ [armed_text (head (pre ++ s :: post))]).
Proof. unfold armed. rewrite map_app. cbn [map]. by rewrite <- (assoc_L (++)). Qed.

(** X11.  An element that appears in the document after the call is
    returned in the millisecond the observers are told: if nothing matched
    before millisecond [m], in the document or in the frames that were in
    it at the call, and at [m], before the timeout, a mutation is
    notified in a document where [s] selects [e] and the selectors listed
    before [s] select nothing, then [findElement] resolves with [e] at
    [m]. *)
Theorem appears_by_mutation (p : page) (pre post : list string) (s : string)
    (e : element) (t m T : N) :
  (∀ k, (k < m)%N → quiet (iframes (dom p 0%N)) (dom p k) (pre ++ s :: post)) →
  (0 < m < t)%N → mutated p m ≠ Quiet →
  Forall (λ s', querySelector (dom p m) s' = Miss) pre →
  querySelector (dom p m) s = Hit e →
  (m ≤ T)%N →
  outcome (findElement p (pre ++ s :: post) t T) = Some (m, Resolved e).
Proof.
  intros Hq Hm Hmut Hpre Hs HT.
  rewrite (findElement_later p _ t m T HT). apply elapse_outcome_Some.
  unfold findElement. rewrite quiet_call by (apply Hq; lia).
  replace (S (N.to_nat m)) with (N.to_nat m + 1) by lia.
  rewrite elapse_add, calm_elapse.
  2:{ intros k Hk. destruct (Hq k ltac:(lia)) as [Hsel Htext].
      split; [lia|]. split.
      - split; [|done]. eapply Forall_impl; [exact Hsel|]. by intros ? [? _].
      - intros _. eapply Forall_impl; [exact Hsel|]. by intros ? [_ ?]. }
  rewrite N2Nat.id, N.add_0_l. cbn [elapse]. unfold instant.
  rewrite (proj2 (N.ltb_lt 0 m)) by lia.
  set (c1 := dispatch_call _ (on_mutation (dom p m)) m _).
  assert (H1 : outcome c1 = Some (m, Resolved e)).
  { subst c1. unfold dispatch_call. cbn [watchers outcome].
    pose proof (dispatch_first_hit
                  (λ w, observer w && hears (mutated p m) w)
                  (on_mutation (dom p m)) m
                  (map armed_selector pre) (armed_selector s)
                  (map armed_selector post
                   ++ [armed_text (head (pre ++ s :: post))])
                  (Resolved e)) as Hd.
    rewrite <- armed_middle in Hd.
    destruct (dispatch _ _ m (armed (pre ++ s :: post)) None) as [ws o].
    simpl in *. rewrite Hd; [done | | | done |].
    - apply Forall_map. eapply Forall_impl; [exact Hpre|].
      intros s' Hq' _. unfold on_mutation. simpl. by rewrite Hq'.
    - unfold hears. simpl. by destruct (mutated p m).
    - unfold on_mutation. simpl. by rewrite Hs. }
  clearbody c1.
  set (c2 := if (m =? timeout c1)%N then _ else c1).
  assert (H2 : outcome c2 = Some (m, Resolved e)).
  { subst c2. destruct (m =? timeout c1)%N;
      [by apply dispatch_call_outcome_Some | done]. }
  clearbody c2.
  destruct (_ && _); [by apply dispatch_call_outcome_Some | done].
Qed.

(** X12.  An element that appears inside an iframe that was in the
    document at the call is not seen by the observers, only by the poll: if
    the document itself never has a match, and the frames captured at the
    call have none at the call and at the polls before millisecond
    [1000 * n], then whenever it appeared in such a frame, [findElement]
    resolves with it at [1000 * n], the first poll at which those frames
    show it, provided that is before the timeout. *)
Theorem appears_in_frame_by_poll (p : page) (pre post : list string)
    (s : string) (e : element) (t n T : N) :
  (∀ k, (k ≤ 1000 * n)%N → quiet_main (dom p k) (pre ++ s :: post)) →
  (∀ k, (k < 1000 * n)%N → is_poll k = true →
        no_frame_match (iframes (dom p 0%N)) (dom p k) (pre ++ s :: post)) →
  no_frame_match (iframes (dom p 0%N)) (dom p 0%N) (pre ++ s :: post) →
  (0 < n)%N → (1000 * n < t)%N →
  no_frame_match (iframes (dom p 0%N)) (dom p (1000 * n)%N) pre →
  search_frames s (frame_documents (iframes (dom p 0%N)) (dom p (1000 * n)%N))
  = Some e →
  (1000 * n ≤ T)%N →
  outcome (findElement p (pre ++ s :: post) t T)
  = Some ((1000 * n)%N, Resolved e).
Proof.
  intros Hmain Hfr H0 Hn Ht Hpre Hs HT. set (m := (1000 * n)%N) in *.
  set (l := pre ++ s :: post) in *.
  rewrite (findElement_later p _ t m T HT). apply elapse_outcome_Some.
  unfold findElement. rewrite quiet_main_call; [|apply Hmain; lia|done].
  replace (S (N.to_nat m)) with (N.to_nat m + 1) by lia.
  rewrite elapse_add, calm_elapse.
  2:{ intros k Hk. split; [lia|]. split; [apply Hmain; lia|].
      intros Hp. apply Hfr; [lia | done]. }
  rewrite N2Nat.id, N.add_0_l. cbn [elapse]. unfold instant.
  assert (H1 : (if (0 <? m)%N
                then dispatch_call (λ w, observer w && hears (mutated p m) w)
                       (on_mutation (dom p m)) m (Call t (armed l) None)
                else Call t (armed l) None)
               = Call t (armed l) None).
  { destruct (0 <? m)%N; [|done]. apply dispatch_call_id. simpl.
    eapply Forall_impl;
      [apply (quiet_main_on_mutation (dom p m)), Hmain; lia|].
    by intros w -> _. }
  rewrite H1. cbn [timeout].
  destruct (N.eqb_spec m t) as [|_]; [lia|].
  assert (Hpoll : (0 <? m)%N && (m mod 1000 =? 0)%N = true).
  { apply andb_true_iff. split; [apply N.ltb_lt; lia|].
    apply N.eqb_eq. subst m. by rewrite N.mul_comm, N.Div0.mod_mul. }
  rewrite Hpoll. unfold dispatch_call. cbn [watchers outcome].
  pose proof (dispatch_first_hit interval
                (on_interval (iframes (dom p 0%N)) (dom p m)) m
                (map armed_selector pre) (armed_selector s)
                (map armed_selector post ++ [armed_text (head l)])
                (Resolved e)) as Hd.
  subst l. rewrite <- armed_middle in Hd.
  destruct (dispatch interval _ m (armed (pre ++ s :: post)) None) as [ws o].
  simpl in *. rewrite Hd; [done | | done | done |].
  - destruct (Hmain m (N.le_refl _)) as [Hsel _].
    apply Forall_app in Hsel as [Hsel _].
    apply Forall_map. unfold no_frame_match in Hpre.
    rewrite Forall_forall in Hsel, Hpre. apply Forall_forall.
    intros s' Hs' _. unfold on_interval. simpl.
    by rewrite (Hsel s' Hs'), (Hpre s' Hs').
  - destruct (Hmain m (N.le_refl _)) as [Hsel _].
    apply Forall_app in Hsel as [_ Hsel]. apply Forall_cons in Hsel as [Hq _].
    unfold on_interval. simpl. by rewrite Hq, Hs.
Qed.

(** X13.  With an empty list of selectors the text search is given
    [undefined]: on a page that has a button when the call is made,
    [findElement] is rejected with a [TypeError] during the call. *)
Theorem no_selectors_is_a_type_error (p : page) (t T : N) :
  querySelectorAll (dom p 0%N) "button" ≠ [] →
  outcome (findElement p [] t T) = Some (0%N, Rejected TypeError).
Proof.
  intros Hb. unfold findElement. apply elapse_outcome_Some.
  unfold findElement_call, findElementByText, find_by_text. simpl.
  by destruct (querySelectorAll (dom p 0%N) "button").
Qed.

End platform.

(** *** The theorems at work on sample pages

    The sample pages hold ASCII text only, and the platform that computes
    on them is [ascii_platform]. *)
#[local] Existing Instance ascii_platform.

(** The shipped 30 s timeout, first selector found at once: 29.999 s later
    the race has long been won and the second watcher is still armed. *)
Definition late_watcher : watcher :=
  Watcher (BySelector "button.h-SearchButton") None true true true.

Lemma watchers_release_on_own_settlement_witness :
  late_watcher ∈ watchers (findElement (still search_page)
                             ["button.btn-primary"; "button.h-SearchButton"]
                             30000 29999)
  ∧ observer late_watcher = true ∧ timer late_watcher = true
  ∧ (29999 < 30000)%N.
Proof.
  assert (Hin : late_watcher
                ∈ watchers (findElement (still search_page)
                              ["button.btn-primary"; "button.h-SearchButton"]
                              30000 29999)).
  { vm_compute. apply list_elem_of_further, list_elem_of_here. }
  split; [exact Hin|].
  destruct (watchers_release_on_own_settlement _ _ _ _ _ Hin) as (_ & Harmed & _).
  apply Harmed. reflexivity.
Defined.

(** The race is won at the call, and a losing watcher keeps its observer,
    its poll and its timeout after that. *)
Lemma losing_watcher_stays_armed :
  let c := findElement (still search_page)
             ["button.btn-primary"; "button.h-SearchButton"] 30000 29999 in
  outcome c = Some (0%N, Resolved search_button)
  ∧ ∃ w, w ∈ watchers c
         ∧ observer w = true ∧ interval w = true ∧ timer w = true.
Proof.
  intros c. split; [vm_compute; reflexivity|].
  exists late_watcher. split; [|done].
  vm_compute. apply list_elem_of_further, list_elem_of_here.
Qed.

Lemma outcome_has_cause_witness :
  explains (still empty_page) ["button.h-SearchButton"; "button.btn-primary"]
    30000 30000 (Rejected (ElementNotFound "button.h-SearchButton" 30000)).
Proof.
  apply (outcome_has_cause (still empty_page)
           ["button.h-SearchButton"; "button.btn-primary"] 30000 30000).
  vm_compute. reflexivity.
Defined.

(** A first-name field that the site renders 250 ms after the call. *)
Definition first_name_input : element :=
  Element 21 (HTMLInputElement "text") false "" [] "" false false.

Definition rendered_late : page :=
  Page (λ k, if (k <? 250)%N then empty_page
             else Document
                    (λ selector, if String.eqb selector "input.h-FirstName"
                                 then Hit first_name_input else Miss)
                    [] (λ _, CrossOrigin) (λ _, []))
       (λ k, if (k =? 250)%N then Structure else Quiet).

Lemma appears_by_mutation_witness :
  outcome (findElement rendered_late
             ["#ctl00_ContentPlaceHolderMP_AssureForm_FirstName";
              "input.h-FirstName"] 30000 30000)
  = Some (250%N, Resolved first_name_input).
Proof.
  apply (appears_by_mutation rendered_late
           ["#ctl00_ContentPlaceHolderMP_AssureForm_FirstName"] []
           "input.h-FirstName" first_name_input 30000 250 30000).
  - intros k Hk. unfold rendered_late. cbn [dom].
    rewrite (proj2 (N.ltb_lt k 250) Hk). repeat constructor.
  - lia.
  - discriminate.
  - repeat constructor.
  - reflexivity.
  - lia.
Defined.

(** The form is inside an iframe that is in the document at the call and
    whose document loads 1200 ms after it: the field is returned at
    2000 ms.  The field belongs to the frame's window: it is no instance of
    the [HTMLInputElement] of the script. *)
Definition framed_first_name : element :=
  Element 41 (HTMLElement "INPUT") false "" [] "" false false.

Definition framed_form (selector : string) : query :=
  if String.eqb selector "input.h-FirstName" then Hit framed_first_name else Miss.

Definition framed_late : page :=
  Page (λ k, Document (λ _, Miss) [40]
               (λ _, if (k <? 1200)%N then CrossOrigin else SameOrigin framed_form)
               (λ _, []))
       (λ _, Quiet).

Lemma appears_in_frame_by_poll_witness :
  outcome (findElement framed_late ["input.h-FirstName"] 30000 30000)
  = Some (2000%N, Resolved framed_first_name).
Proof.
  apply (appears_in_frame_by_poll framed_late [] [] "input.h-FirstName"
           framed_first_name 30000 2 30000).
  - intros k _. repeat constructor.
  - intros k Hk Hp. unfold is_poll in Hp.
    apply andb_true_iff in Hp as [Hpos Hmod].
    apply N.ltb_lt in Hpos. apply N.eqb_eq in Hmod.
    assert (k = 1000)%N as ->.
    { pose proof (N.div_mod k 1000 ltac:(lia)) as Hd. rewrite Hmod in Hd.
      assert (k / 1000 < 2)%N by (apply N.Div0.div_lt_upper_bound; lia).
      assert (k / 1000 ≠ 0)%N by lia. lia. }
    repeat constructor.
  - repeat constructor.
  - lia.
  - lia.
  - constructor.
  - reflexivity.
  - lia.
Defined.

(** The same form in an iframe that the page inserts 1200 ms after the
    call: the list of frames the polls go through was taken at the call,
    the new iframe is not in it, and the field is never found; the call is
    rejected at the timeout. *)
Definition frame_inserted_late : page :=
  Page (λ k, Document (λ _, Miss)
               (if (k <? 1200)%N then [] else [40])
               (λ _, if (k <? 1200)%N then CrossOrigin else SameOrigin framed_form)
               (λ _, []))
       (λ _, Quiet).

Example frame_inserted_after_the_call_is_never_read :
  immediate (dom frame_inserted_late 2000%N) "input.h-FirstName"
  = Some framed_first_name
  ∧ ∀ T, outcome (findElement frame_inserted_late ["input.h-FirstName"] 30000 T)
         = if (T <? 30000)%N then None
           else Some (30000%N,
                      Rejected (ElementNotFound "input.h-FirstName" 30000)).
Proof.
  split; [reflexivity|]. intros T.
  apply (never_found_rejects_at_timeout frame_inserted_late
           ["input.h-FirstName"] 30000 T).
  intros k _. repeat constructor.
Qed.

Lemma no_selectors_is_a_type_error_witness :
  outcome (findElement (still search_page) [] 30000 100)
  = Some (0%N, Rejected TypeError).
Proof. by apply no_selectors_is_a_type_error. Defined.

End Locator.

(* ===================================================================== *)
(** ** Form filler: [ElementFinder.fillInput] (utils.ts)                  *)
(* ===================================================================== *)

Module Filler.

Import Dom Locator.

(** What [fillInput] can be rejected with: the rejection of [findElement],
    or the exception of the assignment to [value]. *)
Inductive exception :=
| NotLocated (err : error)
| InvalidStateError.

(** The element with [v] as its value. *)
Definition set_value (v : string) (e : element) : element :=
  Element (node e) (class e) (checked e) v (options e) (textContent e)
    (disabled e) (cancels_click e).

(** [input.click()] on an unchecked checkbox.  On a disabled control the
    method returns at once.  Otherwise the browser checks the box and
    dispatches [click]; when a listener cancels that event the box is
    unchecked again and nothing more is dispatched; when none does,
    [input] and [change] follow. *)
Definition click_checkbox (e : element) : element * list dom_event :=
  if disabled e then (e, [])
  else if cancels_click e then (e, [click])
  else (Element (node e) (class e) true (value e) (options e) (textContent e)
          (disabled e) (cancels_click e),
        [click; input; change]).

(** The promise an [async] function returns. *)
Inductive promise (A : Type) :=
| Pending
| Fulfilled (a : A)
| RejectedWith (exn : exception).
Arguments Pending {A}.
Arguments Fulfilled {A} a.
Arguments RejectedWith {A} exn.

Section platform.
Context {browser : Platform}.

(** [input.value = value] on an input or a text area, then the two events
    the code dispatches; an exception of the assignment leaves the element
    as it was and nothing is dispatched. *)
Definition assign_value (v : string) (e : element)
  : exception + element * list dom_event :=
  match sanitize e v with
  | Some v' => inr (set_value v' e, [input; change])
  | None => inl InvalidStateError
  end.

(** The callback of [Array.from(input.options).find(...)]. *)
Definition option_matches (v : string) (opt : select_option) : bool :=
  includes (toLowerCase (opt_text opt)) (toLowerCase v)
  || includes (toLowerCase (opt_value opt)) (toLowerCase v).

(** The body of [fillInput] after the [await]: the element as it is left,
    and the events dispatched on it, in order, or the exception thrown. *)
Definition interact (el : element) (v : string)
  : exception + element * list dom_event :=
  match class el with
  | HTMLInputElement type =>
      if String.eqb type "checkbox" then
        inr (if checked el then (el, []) else click_checkbox el)
      else assign_value v el
  | HTMLSelectElement =>
      match List.find (option_matches v) (options el) with
      | Some opt => inr (set_value (opt_value opt) el, [change])
      | None => inr (el, [])
      end
  | HTMLTextAreaElement => assign_value v el
  | HTMLElement _ => inr (el, [])
  end.

(** [fillInput(fieldSelectors, value)] at the end of millisecond [upto];
    [elementWait] is [AUTOMATION_CONFIG.timeouts.elementWait], the default
    timeout of [findElement].  A rejection of [findElement] propagates, and
    so does an exception of the body. *)
Definition fillInput (p : page) (elementWait : N) (fieldSelectors : list string)
    (v : string) (upto : N) : promise (element * list dom_event) :=
  match outcome (findElement p fieldSelectors elementWait upto) with
  | None => Pending
  | Some (_, Rejected err) => RejectedWith (NotLocated err)
  | Some (_, Resolved el) =>
      match interact el v with
      | inr filled => Fulfilled filled
      | inl exn => RejectedWith exn
      end
  end.

(** [needle] occurs in [hay] when case is ignored, as [toLowerCase] of the
    platform ignores it. *)
Definition occurs_ignoring_case (needle hay : string) : Prop :=
  ∃ pre post, toLowerCase hay = pre +:+ toLowerCase needle +:+ post.

Lemma option_matches_spec v opt :
  option_matches v opt = true
  ↔ occurs_ignoring_case v (opt_text opt) ∨ occurs_ignoring_case v (opt_value opt).
Proof.
  unfold option_matches, occurs_ignoring_case.
  by rewrite orb_true_iff, !includes_spec.
Qed.

Lemma find_none {A} (f : A → bool) (l : list A) :
  (∀ x, x ∈ l → f x = false) → List.find f l = None.
Proof.
  induction l as [|x l IH]; intros Hx; [done|]. simpl.
  rewrite (Hx x) by apply list_elem_of_here.
  apply IH. intros y Hy. apply Hx. by apply list_elem_of_further.
Qed.

(** C5.  When [findElement] has resolved with a select element none of
    whose options has the target value in its text or in its value, case
    ignored, [fillInput] is fulfilled (it does not reject) with that very
    element, value and all, and has dispatched no event on it.  This holds
    whatever case mapping the platform has. *)
Theorem select_without_match_untouched
    (p : page) (elementWait : N) (fieldSelectors : list string) (v : string)
    (upto found_at : N) (el : element) :
  outcome (findElement p fieldSelectors elementWait upto)
  = Some (found_at, Resolved el) →
  class el = HTMLSelectElement →
  (∀ opt, opt ∈ options el →
     ¬ occurs_ignoring_case v (opt_text opt)
     ∧ ¬ occurs_ignoring_case v (opt_value opt)) →
  fillInput p elementWait fieldSelectors v upto = Fulfilled (el, [])
  ∧ interact el v = inr (el, []).
Proof.
  intros Hfound Hclass Hnone.
  assert (Hint : interact el v = inr (el, [])).
  { unfold interact. rewrite Hclass, find_none; [done|].
    intros opt Hopt. apply not_true_is_false. rewrite option_matches_spec.
    destruct (Hnone opt Hopt). tauto. }
  unfold fillInput. rewrite Hfound, Hint. done.
Qed.

(** *** The other branches of [fillInput] *)

Lemma find_first {A} (f : A → bool) (pre post : list A) (x : A) :
  (∀ y, y ∈ pre → f y = false) → f x = true →
  List.find f (pre ++ x :: post) = Some x.
Proof.
  induction pre as [|y pre IH]; intros Hpre Hx; simpl.
  - by rewrite Hx.
  - rewrite (Hpre y) by apply list_elem_of_here.
    apply IH; [|done]. intros z Hz. apply Hpre. by apply list_elem_of_further.
Qed.

(** X6.  On a dropdown, the option chosen is the first one, in document
    order, whose text or value contains the target with case ignored, as
    the platform ignores it; the select takes that option's value and gets
    exactly one [change]. *)
Theorem dropdown_takes_first_match
    (el : element) (v : string) (pre post : list select_option)
    (opt : select_option) :
  class el = HTMLSelectElement →
  options el = pre ++ opt :: post →
  (∀ o, o ∈ pre → ¬ occurs_ignoring_case v (opt_text o)
                  ∧ ¬ occurs_ignoring_case v (opt_value o)) →
  occurs_ignoring_case v (opt_text opt) ∨ occurs_ignoring_case v (opt_value opt) →
  interact el v = inr (set_value (opt_value opt) el, [change]).
Proof.
  intros Hclass Hopts Hpre Hopt. unfold interact.
  rewrite Hclass, Hopts, find_first; [done | |by apply option_matches_spec].
  intros o Ho. apply not_true_is_false. rewrite option_matches_spec.
  destruct (Hpre o Ho). tauto.
Qed.

(** X7.  An empty target matches every option, so on a dropdown that has
    options [fillInput] with the empty string selects the first one. *)
Theorem empty_target_selects_first_option
    (el : element) (opt : select_option) (rest : list select_option) :
  class el = HTMLSelectElement →
  options el = opt :: rest →
  interact el "" = inr (set_value (opt_value opt) el, [change]).
Proof.
  intros Hclass Hopts. unfold interact. rewrite Hclass, Hopts.
  assert (Hm : option_matches "" opt = true).
  { apply option_matches_spec. left.
    exists "", (toLowerCase (opt_text opt)). by rewrite toLowerCase_empty. }
  cbn [List.find]. by rewrite Hm.
Qed.

(** X8.  On a checkbox the value passed is ignored and no exception is
    thrown.  A box that is checked is left alone.  A box that is not is
    clicked, and what the click does is the browser's: nothing on a
    disabled control; a [click] event and no change of state when a
    listener cancels it; otherwise the box is checked after [click],
    [input] and [change], and a second [fillInput] does nothing.  In every
    case the box is checked afterwards if it was before: [fillInput] never
    unchecks a box. *)
Theorem checkbox_only_ever_checked (el : element) (v v' : string) :
  class el = HTMLInputElement "checkbox" →
  ∃ el' events,
    interact el v = inr (el', events)
    ∧ interact el v' = interact el v
    ∧ (checked el = true → el' = el ∧ events = [])
    ∧ (checked el = false → disabled el = true → el' = el ∧ events = [])
    ∧ (checked el = false → disabled el = false → cancels_click el = true →
       el' = el ∧ events = [click])
    ∧ (checked el = false → disabled el = false → cancels_click el = false →
       checked el' = true ∧ events = [click; input; change]
       ∧ interact el' v' = inr (el', []))
    ∧ checked el'
      = (checked el || negb (disabled el) && negb (cancels_click el)).
Proof.
  intros Hclass. unfold interact, click_checkbox. rewrite Hclass.
  cbn [String.eqb Ascii.eqb Bool.eqb].
  destruct (checked el) eqn:Hc, (disabled el) eqn:Hd,
    (cancels_click el) eqn:Hk; eexists _, _;
    (split; [reflexivity|]); cbn [class checked];
    rewrite ?Hclass; cbn [String.eqb Ascii.eqb Bool.eqb];
    repeat split; try done.
Qed.

End platform.

(** *** The theorems at work on sample controls *)

#[local] Existing Instance ascii_platform.

(** The reason dropdown of the search page, and a reason it does not list. *)
Definition reason_select : element :=
  Element 12 HTMLSelectElement false "1"
    [SelectOption "Urgent consultation" "1"; SelectOption "Follow-up" "2"] ""
    false false.

Definition reason_page : page :=
  still (Document
           (λ selector, if String.eqb selector "#consultingReason"
                        then Hit reason_select else Miss)
           [] (λ _, CrossOrigin) (λ _, [])).

Lemma select_without_match_untouched_witness :
  fillInput reason_page 30000 ["#consultingReason"] "Vaccination" 0
  = Fulfilled (reason_select, []).
Proof.
  refine (proj1 (select_without_match_untouched reason_page 30000
                   ["#consultingReason"] "Vaccination" 0 0 reason_select
                   _ _ _)).
  - vm_compute. reflexivity.
  - reflexivity.
  - intros opt Hopt.
    assert (Hm : option_matches "Vaccination" opt = false).
    { simpl in Hopt. set_unfold in Hopt.
      destruct Hopt as [->|[->|[]]]; vm_compute; reflexivity. }
    apply not_true_iff_false in Hm. rewrite option_matches_spec in Hm. tauto.
Defined.

(** For comparison: a text input is set and gets [input] then [change]; a
    dropdown whose option text contains the target, case ignored, is set to
    that option's value and gets [change]; a file input cannot be given a
    name, and [fillInput] is rejected. *)
Example fill_text_input :
  interact (Element 1 (HTMLInputElement "text") false "" [] "" false false) "John"
  = inr (Element 1 (HTMLInputElement "text") false "John" [] "" false false,
         [input; change]).
Proof. reflexivity. Qed.

Example fill_dropdown :
  interact (Element 2 HTMLSelectElement false "" [SelectOption "Morning" "1"] ""
              false false)
           "morning"
  = inr (Element 2 HTMLSelectElement false "1" [SelectOption "Morning" "1"] ""
           false false,
         [change]).
Proof. reflexivity. Qed.

Example fill_file_input :
  interact (Element 4 (HTMLInputElement "file") false "" [] "" false false)
           "card.png"
  = inl InvalidStateError.
Proof. reflexivity. Qed.

Definition radius_select : element :=
  Element 9 HTMLSelectElement false "10"
    [SelectOption "10 km" "10"; SelectOption "25 km" "25";
     SelectOption "250 km" "250"] "" false false.

Lemma dropdown_takes_first_match_witness :
  interact radius_select "25" = inr (set_value "25" radius_select, [change]).
Proof.
  apply (dropdown_takes_first_match radius_select "25"
           [SelectOption "10 km" "10"] [SelectOption "250 km" "250"]
           (SelectOption "25 km" "25")).
  - reflexivity.
  - reflexivity.
  - intros o Ho. apply list_elem_of_singleton in Ho. subst o.
    assert (Hm : option_matches "25" (SelectOption "10 km" "10") = false)
      by (vm_compute; reflexivity).
    apply not_true_iff_false in Hm. rewrite option_matches_spec in Hm. tauto.
  - apply option_matches_spec. vm_compute. reflexivity.
Defined.

Lemma empty_target_selects_first_option_witness :
  interact reason_select "" = inr (set_value "1" reason_select, [change]).
Proof.
  apply (empty_target_selects_first_option reason_select
           (SelectOption "Urgent consultation" "1")
           [SelectOption "Follow-up" "2"]); reflexivity.
Defined.

(** The terms checkbox of the first page, not yet ticked; the same box
    while the site keeps it disabled. *)
Definition terms_checkbox : element :=
  Element 3 (HTMLInputElement "checkbox") false "true" [] "" false false.

Definition disabled_checkbox : element :=
  Element 3 (HTMLInputElement "checkbox") false "true" [] "" true false.

Lemma checkbox_only_ever_checked_witness :
  ∃ el' events,
    interact terms_checkbox "true" = inr (el', events)
    ∧ checked el' = true ∧ events = [click; input; change].
Proof.
  destruct (checkbox_only_ever_checked terms_checkbox "true" "true" eq_refl)
    as (el' & events & Hi & _ & _ & _ & _ & Hclick & _).
  exists el', events. split; [exact Hi|].
  destruct (Hclick eq_refl eq_refl eq_refl) as (Hc & He & _). by split.
Defined.

Example disabled_checkbox_stays_unchecked :
  interact disabled_checkbox "true" = inr (disabled_checkbox, []).
Proof. reflexivity. Qed.

End Filler.

(* ===================================================================== *)
(** ** Page synchroniser: [ElementFinder.waitForNetworkIdle] (utils.ts)   *)
(* ===================================================================== *)

Module NetworkIdle.

(** The two primitives the function patches. *)
Inductive primitive := XhrOpen | Fetch.

(** The function objects [XMLHttpRequest.prototype.open] and [window.fetch]
    can hold: the browser's own, one installed by the page or by another
    script, or the closure that call number [call] of [waitForNetworkIdle]
    created around [original].  The writes to the two properties are taken
    to succeed, as they do unless the page has frozen them. *)
Inductive fn :=
| Native (which : primitive)
| Foreign (id : nat)
| Wrapper (which : primitive) (call : nat) (original : fn).

Inductive promise_state := Pending | Fulfilled | Rejected.

(** The closure variables of one call, its two timers, the promise it
    returned, and the values the two primitives had right after its
    [resolve()] took effect. *)
Record call := Call {
  originalXHROpen : fn;
  originalFetch : fn;
  requestCount : Z;
  lastActivity : N;
  started : N;
  limit : N;
  interval_on : bool;
  timeout_on : bool;
  promise : promise_state;
  resolved_with : option (fn * fn)
}.

(** The window: the clock [Date.now()] reads, the two primitives, and the
    calls made so far, numbered from 0. *)
Record window := Window {
  now : N;
  xhr_open : fn;
  fetch : fn;
  calls : list call
}.

Definition set_calls (cs : list call) (s : window) : window :=
  Window (now s) (xhr_open s) (fetch s) cs.

(** [waitForNetworkIdle(timeout)]: the executor. *)
Definition waitForNetworkIdle (timeout : N) (s : window) : window :=
  let id := length (calls s) in
  Window (now s)
    (Wrapper XhrOpen id (xhr_open s))
    (Wrapper Fetch id (fetch s))
    (calls s ++ [Call (xhr_open s) (fetch s) 0 (now s) (now s) timeout
                      true true Pending None]).

(** [resolve()]: only the first call settles the promise. *)
Definition resolve (globals : fn * fn) (c : call) : call :=
  match promise c with
  | Pending =>
      Call (originalXHROpen c) (originalFetch c) (requestCount c)
        (lastActivity c) (started c) (limit c) (interval_on c) (timeout_on c)
        Fulfilled (Some globals)
  | _ => c
  end.

Definition clear_interval (c : call) : call :=
  Call (originalXHROpen c) (originalFetch c) (requestCount c) (lastActivity c)
    (started c) (limit c) false (timeout_on c) (promise c) (resolved_with c).

Definition timeout_fired (c : call) : call :=
  Call (originalXHROpen c) (originalFetch c) (requestCount c) (lastActivity c)
    (started c) (limit c) (interval_on c) false (promise c) (resolved_with c).

(** [clearInterval(intervalId); XMLHttpRequest.prototype.open =
    originalXHROpen; window.fetch = originalFetch; resolve();] *)
Definition restore_and_resolve (i : nat) (c : call) (s : window) : window :=
  let s := Window (now s) (originalXHROpen c) (originalFetch c) (calls s) in
  set_calls (<[i := resolve (xhr_open s, fetch s) (clear_interval c)]> (calls s)) s.

(** [checkIdle], the [setInterval] callback of call [i]. *)
Definition checkIdle (i : nat) (s : window) : window :=
  match calls s !! i with
  | Some c =>
      let idleTime := (Z.of_N (now s) - Z.of_N (lastActivity c))%Z in
      if (requestCount c =? 0)%Z && (500 <? idleTime)%Z
      then restore_and_resolve i c s
      else s
  | None => s
  end.

(** The [setTimeout] callback of call [i]. *)
Definition maximum_wait (i : nat) (s : window) : window :=
  match calls s !! i with
  | Some c => restore_and_resolve i (timeout_fired c) s
  | None => s
  end.

(** [requestCount += d; lastActivity = Date.now();] in call [i]. *)
Definition activity (d : Z) (t : N) (c : call) : call :=
  Call (originalXHROpen c) (originalFetch c) (requestCount c + d) t
    (started c) (limit c) (interval_on c) (timeout_on c) (promise c)
    (resolved_with c).

(** Calling a function object: each wrapper on the way counts the request
    in its own call and then calls the function it wrapped. *)
Fixpoint invoke (f : fn) (t : N) (cs : list call) : list call :=
  match f with
  | Wrapper _ i original => invoke original t (alter (activity 1 t) i cs)
  | Native _ | Foreign _ => cs
  end.

(** Everything that can happen in the window. *)
Inductive event :=
| Begin (timeout : N)             (* a call of waitForNetworkIdle *)
| Tick (i : nat)                  (* the interval timer of call i fires *)
| Expire (i : nat)                (* the timeout of call i fires *)
| Open                            (* some code calls xhr.open(...) *)
| FetchCall                       (* some code calls fetch(...) *)
| Finished (i : nat)              (* loadend, or the fetch promise settles,
                                     for a request call i counted *)
| Assign (which : primitive) (f : fn)   (* other code patches a primitive *)
| Advance (dt : N).               (* time passes *)

(** A cleared interval does not fire; the timeout fires once, not before
    its delay has passed; a request finishes after it was counted. *)
Definition step (e : event) (s : window) : window :=
  match e with
  | Begin timeout => waitForNetworkIdle timeout s
  | Tick i =>
      match calls s !! i with
      | Some c => if interval_on c then checkIdle i s else s
      | None => s
      end
  | Expire i =>
      match calls s !! i with
      | Some c =>
          if timeout_on c && (started c + limit c <=? now s)%N
          then maximum_wait i s else s
      | None => s
      end
  | Open => set_calls (invoke (xhr_open s) (now s) (calls s)) s
  | FetchCall => set_calls (invoke (fetch s) (now s) (calls s)) s
  | Finished i =>
      match calls s !! i with
      | Some c =>
          if (0 <? requestCount c)%Z
          then set_calls (alter (activity (-1) (now s)) i (calls s)) s
          else s
      | None => s
      end
  | Assign XhrOpen f => Window (now s) f (fetch s) (calls s)
  | Assign Fetch f => Window (now s) (xhr_open s) f (calls s)
  | Advance dt => Window (now s + dt) (xhr_open s) (fetch s) (calls s)
  end.

Definition run (es : list event) (s : window) : window :=
  foldl (λ s e, step e s) s es.

(** *** One call among everything else that happens *)

(** [c'] differs from [c] in its request counter and activity stamp only. *)
Definition kept (c c' : call) : Prop :=
  originalXHROpen c' = originalXHROpen c ∧ originalFetch c' = originalFetch c
  ∧ started c' = started c ∧ limit c' = limit c
  ∧ interval_on c' = interval_on c ∧ timeout_on c' = timeout_on c
  ∧ promise c' = promise c ∧ resolved_with c' = resolved_with c.

Lemma kept_refl c : kept c c.
Proof. by repeat split. Qed.

Lemma kept_activity d t c : kept c (activity d t c).
Proof. by repeat split. Qed.

Lemma kept_trans c1 c2 c3 : kept c1 c2 → kept c2 c3 → kept c1 c3.
Proof.
  unfold kept. intros (?&?&?&?&?&?&?&?) (?&?&?&?&?&?&?&?).
  repeat split; congruence.
Qed.

Lemma lookup_alter_kept d t j (cs : list call) i c :
  cs !! i = Some c → ∃ c', alter (activity d t) j cs !! i = Some c' ∧ kept c c'.
Proof.
  intros H. destruct (decide (j = i)) as [->|Hne].
  - exists (activity d t c). split; [|apply kept_activity].
    by rewrite list_lookup_alter_eq, H.
  - exists c. split; [|apply kept_refl].
    by rewrite list_lookup_alter_ne.
Qed.

Lemma lookup_invoke_kept f t (cs : list call) i c :
  cs !! i = Some c → ∃ c', invoke f t cs !! i = Some c' ∧ kept c c'.
Proof.
  revert cs c. induction f as [| |which j f IH]; intros cs c H; simpl.
  - exists c. split; [done | apply kept_refl].
  - exists c. split; [done | apply kept_refl].
  - destruct (lookup_alter_kept 1 t j cs i c H) as (c1 & H1 & K1).
    destruct (IH _ _ H1) as (c2 & H2 & K2).
    exists c2. split; [done | by eapply kept_trans].
Qed.

(** The state of a call whose primitives were [x] and [f] when it began:
    it has not been rejected; while it is pending both of its timers are
    armed; once it is fulfilled, the primitives were [x] and [f] again when
    [resolve()] took effect. *)
Definition ok (x f : fn) (c : call) : Prop :=
  originalXHROpen c = x ∧ originalFetch c = f
  ∧ match promise c with
    | Pending => resolved_with c = None ∧ timeout_on c = true ∧ interval_on c = true
    | Fulfilled => resolved_with c = Some (x, f)
    | Rejected => False
    end.

Lemma ok_kept x f c c' : kept c c' → ok x f c → ok x f c'.
Proof.
  unfold kept, ok. intros (-> & -> & _ & _ & -> & -> & -> & ->). done.
Qed.

Lemma ok_resolved x f c :
  ok x f c → ok x f (resolve (x, f) (clear_interval c))
  ∧ promise (resolve (x, f) (clear_interval c)) = Fulfilled.
Proof.
  unfold ok, resolve. intros (Hx & Hf & H). simpl.
  destruct (promise c) eqn:Hp; simpl; rewrite ?Hp; done.
Qed.

Lemma ok_resolved_late x f c :
  ok x f c → ok x f (resolve (x, f) (clear_interval (timeout_fired c)))
  ∧ promise (resolve (x, f) (clear_interval (timeout_fired c))) = Fulfilled.
Proof.
  unfold ok, resolve. intros (Hx & Hf & H). simpl.
  destruct (promise c) eqn:Hp; simpl; rewrite ?Hp; done.
Qed.

Lemma lookup_restore i j c cj (s : window) :
  calls s !! i = Some c →
  calls (restore_and_resolve j cj s) !! i
  = Some (if decide (j = i)
          then resolve (originalXHROpen cj, originalFetch cj) (clear_interval cj)
          else c).
Proof.
  intros H. unfold restore_and_resolve, set_calls. simpl.
  case_decide as Hj; [subst j|].
  - apply list_lookup_insert_eq. by eapply lookup_lt_Some.
  - by rewrite list_lookup_insert_ne.
Qed.

Lemma ok_step x f e (s : window) i c :
  calls s !! i = Some c → ok x f c →
  ∃ c', calls (step e s) !! i = Some c' ∧ ok x f c'.
Proof.
  intros H Hok. destruct e as [t|j|j| | |j|which g|dt]; simpl.
  - exists c. split; [by apply lookup_app_l_Some | done].
  - destruct (calls s !! j) as [cj|] eqn:Hj; [|by exists c].
    destruct (interval_on cj); [|by exists c].
    unfold checkIdle. rewrite Hj.
    destruct (_ && _); [|by exists c].
    rewrite (lookup_restore i j c cj s H). eexists; split; [done|].
    case_decide as Hji; [|done]. subst j.
    assert (cj = c) as -> by congruence.
    destruct Hok as (Hx & Hf & Hp). rewrite Hx, Hf.
    by apply ok_resolved.
  - destruct (calls s !! j) as [cj|] eqn:Hj; [|by exists c].
    destruct (_ && _); [|by exists c].
    unfold maximum_wait. rewrite Hj.
    rewrite (lookup_restore i j c (timeout_fired cj) s H).
    eexists; split; [done|].
    case_decide as Hji; [|done]. subst j.
    assert (cj = c) as -> by congruence.
    destruct Hok as (Hx & Hf & Hp). simpl. rewrite Hx, Hf.
    by apply ok_resolved_late.
  - destruct (lookup_invoke_kept (xhr_open s) (now s) _ i c H) as (c' & H' & K).
    exists c'. split; [done | by eapply ok_kept].
  - destruct (lookup_invoke_kept (fetch s) (now s) _ i c H) as (c' & H' & K).
    exists c'. split; [done | by eapply ok_kept].
  - destruct (calls s !! j) as [cj|] eqn:Hj; [|by exists c].
    destruct (0 <? requestCount cj)%Z; [|by exists c].
    destruct (lookup_alter_kept (-1) (now s) j _ i c H) as (c' & H' & K).
    exists c'. split; [done | by eapply ok_kept].
  - destruct which; by exists c.
  - by exists c.
Qed.

Lemma ok_run x f es (s : window) i c :
  calls s !! i = Some c → ok x f c →
  ∃ c', calls (run es s) !! i = Some c' ∧ ok x f c'.
Proof.
  revert s c. induction es as [|e es IH]; intros s c H Hok; [by exists c|].
  destruct (ok_step x f e s i c H Hok) as (c1 & H1 & Hok1).
  simpl. by apply (IH _ c1).
Qed.

(** A call passes from pending to fulfilled only in one of its own two
    callbacks, and the primitives have just been restored then. *)
Lemma resolution_step e (s : window) i c c' :
  calls s !! i = Some c → promise c = Pending →
  calls (step e s) !! i = Some c' → promise c' = Fulfilled →
  xhr_open (step e s) = originalXHROpen c ∧ fetch (step e s) = originalFetch c.
Proof.
  intros H Hp H' Hp'.
  assert (Hsame : ∀ c1, kept c c1 → calls (step e s) !! i = Some c1 → False).
  { intros c1 K H1. destruct K as (_&_&_&_&_&_&K&_). congruence. }
  destruct e as [t|j|j| | |j|which g|dt]; simpl in *.
  - exfalso. apply (Hsame c (kept_refl c)). by apply lookup_app_l_Some.
  - destruct (calls s !! j) as [cj|] eqn:Hj;
      [|exfalso; by apply (Hsame c (kept_refl c))].
    destruct (interval_on cj); [|exfalso; by apply (Hsame c (kept_refl c))].
    unfold checkIdle in *. rewrite Hj in *.
    destruct (_ && _); [|exfalso; by apply (Hsame c (kept_refl c))].
    rewrite (lookup_restore i j c cj s H) in H'.
    case_decide as Hji; [|congruence]. subst j.
    assert (cj = c) as -> by congruence. done.
  - destruct (calls s !! j) as [cj|] eqn:Hj;
      [|exfalso; by apply (Hsame c (kept_refl c))].
    destruct (_ && _); [|exfalso; by apply (Hsame c (kept_refl c))].
    unfold maximum_wait in *. rewrite Hj in *.
    rewrite (lookup_restore i j c (timeout_fired cj) s H) in H'.
    case_decide as Hji; [|congruence]. subst j.
    assert (cj = c) as -> by congruence. done.
  - exfalso.
    destruct (lookup_invoke_kept (xhr_open s) (now s) _ i c H) as (c1 & H1 & K).
    by apply (Hsame c1 K).
  - exfalso.
    destruct (lookup_invoke_kept (fetch s) (now s) _ i c H) as (c1 & H1 & K).
    by apply (Hsame c1 K).
  - exfalso. destruct (calls s !! j) as [cj|] eqn:Hj;
      [|by apply (Hsame c (kept_refl c))].
    destruct (0 <? requestCount cj)%Z; [|by apply (Hsame c (kept_refl c))].
    destruct (lookup_alter_kept (-1) (now s) j _ i c H) as (c1 & H1 & K).
    by apply (Hsame c1 K).
  - exfalso. destruct which; by apply (Hsame c (kept_refl c)).
  - exfalso. by apply (Hsame c (kept_refl c)).
Qed.

Lemma ok_begin timeout (s : window) :
  calls (waitForNetworkIdle timeout s) !! length (calls s)
  = Some (Call (xhr_open s) (fetch s) 0 (now s) (now s) timeout
               true true Pending None)
  ∧ ok (xhr_open s) (fetch s)
       (Call (xhr_open s) (fetch s) 0 (now s) (now s) timeout
             true true Pending None).
Proof.
  split; [|done]. unfold waitForNetworkIdle. simpl.
  by rewrite list_lookup_middle.
Qed.

(** C3.  Take any window, a call of [waitForNetworkIdle] in it, and
    anything at all that happens afterwards: requests, other calls of the
    function, other code patching the primitives, timers firing in any
    order.  The call is never rejected.  While it is pending both its poll
    and its absolute timeout stay armed, and whichever step fulfils it
    leaves [XMLHttpRequest.prototype.open] and [window.fetch] equal to the
    values they had when the call began, which are also the values recorded
    when [resolve()] took effect.  When the timeout fires, or when a poll
    sees no request in flight and more than 500 ms of quiet, the call is
    fulfilled. *)
Theorem waitForNetworkIdle_restores (s : window) (timeout : N) (es : list event) :
  let id := length (calls s) in
  let s' := run es (waitForNetworkIdle timeout s) in
  ∃ c, calls s' !! id = Some c
    ∧ originalXHROpen c = xhr_open s ∧ originalFetch c = fetch s
    ∧ promise c ≠ Rejected
    ∧ (promise c = Fulfilled → resolved_with c = Some (xhr_open s, fetch s))
    ∧ (promise c = Pending →
         timeout_on c = true ∧ interval_on c = true
         ∧ ∀ e c', calls (step e s') !! id = Some c' → promise c' = Fulfilled →
             xhr_open (step e s') = xhr_open s ∧ fetch (step e s') = fetch s)
    ∧ ((started c + limit c ≤ now s')%N →
         ∃ c', calls (step (Expire id) s') !! id = Some c'
               ∧ promise c' = Fulfilled)
    ∧ (requestCount c = 0%Z →
       (500 < Z.of_N (now s') - Z.of_N (lastActivity c))%Z →
         ∃ c', calls (step (Tick id) s') !! id = Some c'
               ∧ promise c' = Fulfilled).
Proof.
  intros id s'.
  destruct (ok_begin timeout s) as [H0 Hok0].
  destruct (ok_run _ _ es _ _ _ H0 Hok0) as (c & Hc & Hok).
  fold id s' in Hc. exists c. split; [done|].
  pose proof Hok as (Hx & Hf & Hp).
  split; [done|]. split; [done|].
  split; [by destruct (promise c)|].
  split; [intros E; by rewrite E in Hp|].
  split; [|split].
  - intros E. rewrite E in Hp. destruct Hp as (_ & Ht & Hi).
    split; [done|]. split; [done|]. intros e c' Hc' Hp'.
    rewrite <- Hx, <- Hf. by eapply resolution_step.
  - intros Hdue. simpl. rewrite Hc.
    destruct (timeout_on c) eqn:Ht; simpl.
    + rewrite (proj2 (N.leb_le _ _) Hdue).
      unfold maximum_wait. rewrite Hc.
      rewrite (lookup_restore id id c (timeout_fired c) s' Hc).
      rewrite decide_True by done. eexists; split; [done|].
      simpl. rewrite Hx, Hf. by apply ok_resolved_late.
    + exists c. split; [done|].
      destruct (promise c); [by destruct Hp as (_ & ? & _) | done | done].
  - intros Hcount Hquiet. simpl. rewrite Hc.
    destruct (interval_on c) eqn:Hi.
    + unfold checkIdle. rewrite Hc, Hcount. simpl.
      rewrite (proj2 (Z.ltb_lt _ _) Hquiet).
      rewrite (lookup_restore id id c c s' Hc).
      rewrite decide_True by done. eexists; split; [done|].
      rewrite Hx, Hf. by apply ok_resolved.
    + exists c. split; [done|].
      destruct (promise c); [by destruct Hp as (_ & _ & ?) | done | done].
Qed.

(** The race in [clickContinue], then a second call while the first one's
    timeout is still armed: each call is fulfilled with the primitives as
    it found them. *)
Example two_calls :
  let s := run [Begin 5000; Open; Advance 300; Finished 0; Advance 600; Tick 0;
                Begin 5000; Advance 600; Tick 1]
             (Window 0 (Native XhrOpen) (Native Fetch) []) in
  (promise <$> calls s) = [Fulfilled; Fulfilled]
  ∧ (resolved_with <$> calls s)
    = [Some (Native XhrOpen, Native Fetch); Some (Native XhrOpen, Native Fetch)]
  ∧ xhr_open s = Native XhrOpen ∧ fetch s = Native Fetch.
Proof. vm_compute. done. Qed.

(** Two overlapping calls.  Each is fulfilled with the primitives as it
    found them; the second found the first one's wrappers, so these are
    what the window is left with when both are done. *)
Example overlapping_calls :
  let s := run [Begin 5000; Begin 5000; Advance 600; Tick 0; Tick 1]
             (Window 0 (Native XhrOpen) (Native Fetch) []) in
  (promise <$> calls s) = [Fulfilled; Fulfilled]
  ∧ (resolved_with <$> calls s)
    = [Some (Native XhrOpen, Native Fetch);
       Some (Wrapper XhrOpen 0 (Native XhrOpen), Wrapper Fetch 0 (Native Fetch))]
  ∧ xhr_open s = Wrapper XhrOpen 0 (Native XhrOpen)
  ∧ fetch s = Wrapper Fetch 0 (Native Fetch).
Proof. vm_compute. done. Qed.

(** *** When a call can be fulfilled, and what its timeout does later *)

(** The clock of a call begun at [t0] with limit [lim]: its last activity is
    neither before its start nor in the future. *)
Definition clocked (t0 lim : N) (s : window) (c : call) : Prop :=
  started c = t0 ∧ limit c = lim
  ∧ (t0 ≤ lastActivity c)%N ∧ (lastActivity c ≤ now s)%N.

Lemma clocked_alter t0 lim (s : window) d j i c :
  calls s !! i = Some c → clocked t0 lim s c →
  ∃ c', alter (activity d (now s)) j (calls s) !! i = Some c'
        ∧ kept c c' ∧ (t0 ≤ lastActivity c')%N ∧ (lastActivity c' ≤ now s)%N.
Proof.
  intros H (Hs & Hl & H1 & H2). destruct (decide (j = i)) as [->|Hne].
  - exists (activity d (now s) c). rewrite list_lookup_alter_eq, H.
    split; [done|]. split; [apply kept_activity|]. simpl. lia.
  - exists c. rewrite list_lookup_alter_ne by done.
    split; [done|]. split; [apply kept_refl | done].
Qed.

Lemma clocked_invoke (t0 : N) f t (cs : list call) i c :
  cs !! i = Some c → (t0 ≤ lastActivity c)%N → (lastActivity c ≤ t)%N →
  ∃ c', invoke f t cs !! i = Some c'
        ∧ kept c c' ∧ (t0 ≤ lastActivity c')%N ∧ (lastActivity c' ≤ t)%N.
Proof.
  revert cs c. induction f as [| |which j f IH]; intros cs c H H1 H2; simpl.
  - exists c. by repeat split.
  - exists c. by repeat split.
  - assert (∃ c1, alter (activity 1 t) j cs !! i = Some c1 ∧ kept c c1
                  ∧ (t0 ≤ lastActivity c1)%N ∧ (lastActivity c1 ≤ t)%N)
      as (c1 & Hc1 & K1 & A1 & B1).
    { destruct (decide (j = i)) as [->|Hne].
      - exists (activity 1 t c). rewrite list_lookup_alter_eq, H.
        split; [done|]. split; [apply kept_activity|]. simpl. lia.
      - exists c. rewrite list_lookup_alter_ne by done.
        split; [done|]. split; [apply kept_refl | done]. }
    destruct (IH _ _ Hc1 A1 B1) as (c2 & Hc2 & K2 & A2 & B2).
    exists c2. split; [done|]. split; [by eapply kept_trans | done].
Qed.

Lemma clocked_kept t0 lim (s : window) c c' :
  kept c c' → clocked t0 lim s c →
  (t0 ≤ lastActivity c')%N → (lastActivity c' ≤ now s)%N →
  clocked t0 lim s c'.
Proof.
  intros (_ & _ & Hs & Hl & _) (<- & <- & _ & _) H1 H2. by repeat split.
Qed.

Lemma clocked_step t0 lim e (s : window) i c :
  calls s !! i = Some c → clocked t0 lim s c →
  ∃ c', calls (step e s) !! i = Some c' ∧ clocked t0 lim (step e s) c'.
Proof.
  intros H Hck. pose proof Hck as (Hs & Hl & H1 & H2).
  destruct e as [t|j|j| | |j|which g|dt]; simpl.
  - exists c. split; [by apply lookup_app_l_Some | done].
  - destruct (calls s !! j) as [cj|] eqn:Hj; [|by exists c].
    destruct (interval_on cj); [|by exists c].
    unfold checkIdle. rewrite Hj.
    destruct (_ && _); [|by exists c].
    rewrite (lookup_restore i j c cj s H). eexists; split; [done|].
    case_decide as Hji; [|done]. subst j.
    assert (cj = c) as -> by congruence.
    unfold clocked, resolve. simpl. by destruct (promise c).
  - destruct (calls s !! j) as [cj|] eqn:Hj; [|by exists c].
    destruct (_ && _); [|by exists c].
    unfold maximum_wait. rewrite Hj.
    rewrite (lookup_restore i j c (timeout_fired cj) s H).
    eexists; split; [done|].
    case_decide as Hji; [|done]. subst j.
    assert (cj = c) as -> by congruence.
    unfold clocked, resolve. simpl. by destruct (promise c).
  - destruct (clocked_invoke t0 (xhr_open s) (now s) _ i c H H1 H2)
      as (c' & H' & K & A & B).
    exists c'. split; [done | by eapply clocked_kept].
  - destruct (clocked_invoke t0 (fetch s) (now s) _ i c H H1 H2)
      as (c' & H' & K & A & B).
    exists c'. split; [done | by eapply clocked_kept].
  - destruct (calls s !! j) as [cj|] eqn:Hj; [|by exists c].
    destruct (0 <? requestCount cj)%Z; [|by exists c].
    destruct (clocked_alter t0 lim s (-1) j i c H Hck) as (c' & H' & K & A & B).
    exists c'. split; [done | by eapply clocked_kept].
  - destruct which; by exists c.
  - exists c. split; [done|]. unfold clocked. simpl. repeat split; try done. lia.
Qed.

Lemma clocked_run t0 lim es (s : window) i c :
  calls s !! i = Some c → clocked t0 lim s c →
  ∃ c', calls (run es s) !! i = Some c' ∧ clocked t0 lim (run es s) c'.
Proof.
  revert s c. induction es as [|e es IH]; intros s c H Hck; [by exists c|].
  destruct (clocked_step t0 lim e s i c H Hck) as (c1 & H1 & Hck1).
  simpl. by apply (IH _ c1).
Qed.

(** Which step can fulfil a pending call: a poll of its own that counts no
    request and more than 500 ms since the last activity, or its own
    timeout once due. *)
Lemma fulfilment_step e (s : window) i c c' :
  calls s !! i = Some c → promise c = Pending →
  calls (step e s) !! i = Some c' → promise c' = Fulfilled →
  (requestCount c = 0%Z ∧ (Z.of_N (lastActivity c) + 500 < Z.of_N (now s))%Z)
  ∨ (started c + limit c ≤ now s)%N.
Proof.
  intros H Hp H' Hp'.
  assert (Hsame : ∀ c1, kept c c1 → calls (step e s) !! i = Some c1 → False).
  { intros c1 K H1. destruct K as (_&_&_&_&_&_&K&_). congruence. }
  destruct e as [t|j|j| | |j|which g|dt]; simpl in *.
  - exfalso. apply (Hsame c (kept_refl c)). by apply lookup_app_l_Some.
  - destruct (calls s !! j) as [cj|] eqn:Hj;
      [|exfalso; by apply (Hsame c (kept_refl c))].
    destruct (interval_on cj); [|exfalso; by apply (Hsame c (kept_refl c))].
    unfold checkIdle in *. rewrite Hj in *.
    destruct (requestCount cj =? 0)%Z eqn:Hcount;
      [|exfalso; by apply (Hsame c (kept_refl c))].
    destruct (500 <? Z.of_N (now s) - Z.of_N (lastActivity cj))%Z eqn:Hidle;
      [|exfalso; by apply (Hsame c (kept_refl c))].
    cbn [andb] in H'. rewrite (lookup_restore i j c cj s H) in H'.
    case_decide as Hji; [|congruence]. subst j.
    assert (cj = c) as -> by congruence. left.
    apply Z.eqb_eq in Hcount. apply Z.ltb_lt in Hidle. split; [done | lia].
  - destruct (calls s !! j) as [cj|] eqn:Hj;
      [|exfalso; by apply (Hsame c (kept_refl c))].
    destruct (timeout_on cj) eqn:Hto;
      [|exfalso; by apply (Hsame c (kept_refl c))].
    destruct (started cj + limit cj <=? now s)%N eqn:Hdue;
      [|exfalso; by apply (Hsame c (kept_refl c))].
    cbn [andb] in H'. unfold maximum_wait in H'. rewrite Hj in H'.
    rewrite (lookup_restore i j c (timeout_fired cj) s H) in H'.
    case_decide as Hji; [|congruence]. subst j.
    assert (cj = c) as -> by congruence. right. by apply N.leb_le.
  - exfalso.
    destruct (lookup_invoke_kept (xhr_open s) (now s) _ i c H) as (c1 & H1 & K).
    by apply (Hsame c1 K).
  - exfalso.
    destruct (lookup_invoke_kept (fetch s) (now s) _ i c H) as (c1 & H1 & K).
    by apply (Hsame c1 K).
  - exfalso. destruct (calls s !! j) as [cj|] eqn:Hj;
      [|by apply (Hsame c (kept_refl c))].
    destruct (0 <? requestCount cj)%Z; [|by apply (Hsame c (kept_refl c))].
    destruct (lookup_alter_kept (-1) (now s) j _ i c H) as (c1 & H1 & K).
    by apply (Hsame c1 K).
  - exfalso. destruct which; by apply (Hsame c (kept_refl c)).
  - exfalso. by apply (Hsame c (kept_refl c)).
Qed.

(** X14.  A call is fulfilled only when its limit has passed or when one of
    its polls finds no counted request in flight and more than 500 ms
    since the last counted activity; so never sooner than 500 ms after the
    call unless the limit is shorter, whatever happens in between. *)
Theorem no_early_idle (s : window) (timeout : N) (es : list event) (e : event)
    (c c' : call) :
  let id := length (calls s) in
  let s' := run es (waitForNetworkIdle timeout s) in
  calls s' !! id = Some c → promise c = Pending →
  calls (step e s') !! id = Some c' → promise c' = Fulfilled →
  ((now s + timeout ≤ now s')%N
   ∨ (requestCount c = 0%Z
      ∧ (Z.of_N (lastActivity c) + 500 < Z.of_N (now s'))%Z))
  ∧ (now s + N.min timeout 501 ≤ now s')%N.
Proof.
  intros id s' Hc Hp Hc' Hp'.
  destruct (ok_begin timeout s) as [H0 _].
  destruct (clocked_run (now s) timeout es _ id _ H0) as (c0 & Hc0 & Hck).
  { by repeat split. }
  fold s' in Hc0, Hck. assert (c0 = c) as -> by congruence.
  destruct Hck as (Hs & Hl & H1 & H2).
  destruct (fulfilment_step e s' id c c' Hc Hp Hc' Hp') as [[Hn Hq]|Hdue].
  - split; [by right | lia].
  - rewrite Hs, Hl in Hdue. split; [by left | lia].
Qed.

Lemma no_early_idle_witness :
  let s0 := Window 0 (Native XhrOpen) (Native Fetch) [] in
  let s' := run [Open; Advance 300; Finished 0; Advance 600]
              (waitForNetworkIdle 5000 s0) in
  promise <$> calls (step (Tick 0) s') !! 0%nat = Some Fulfilled
  ∧ (0 + N.min 5000 501 ≤ now s')%N.
Proof.
  intros s0 s'. split; [vm_compute; reflexivity|].
  refine (proj2 (no_early_idle s0 5000 [Open; Advance 300; Finished 0; Advance 600]
                   (Tick 0)
                   (Call (Native XhrOpen) (Native Fetch) 0 300 0 5000
                         true true Pending None)
                   (Call (Native XhrOpen) (Native Fetch) 0 300 0 5000
                         false true Fulfilled
                         (Some (Native XhrOpen, Native Fetch)))
                   _ _ _ _)); vm_compute; reflexivity.
Defined.

Lemma timeout_kept_step e (s : window) i c :
  e ≠ Expire i → calls s !! i = Some c →
  ∃ c', calls (step e s) !! i = Some c' ∧ timeout_on c' = timeout_on c.
Proof.
  intros He H. destruct e as [t|j|j| | |j|which g|dt]; simpl.
  - exists c. split; [by apply lookup_app_l_Some | done].
  - destruct (calls s !! j) as [cj|] eqn:Hj; [|by exists c].
    destruct (interval_on cj); [|by exists c].
    unfold checkIdle. rewrite Hj.
    destruct (_ && _); [|by exists c].
    rewrite (lookup_restore i j c cj s H). eexists; split; [done|].
    case_decide as Hji; [|done]. subst j.
    assert (cj = c) as -> by congruence.
    unfold resolve. simpl. by destruct (promise c).
  - destruct (decide (j = i)) as [->|Hne]; [done|].
    destruct (calls s !! j) as [cj|] eqn:Hj; [|by exists c].
    destruct (_ && _); [|by exists c].
    unfold maximum_wait. rewrite Hj.
    rewrite (lookup_restore i j c (timeout_fired cj) s H).
    eexists; split; [done|]. by rewrite decide_False.
  - destruct (lookup_invoke_kept (xhr_open s) (now s) _ i c H) as (c' & H' & K).
    exists c'. split; [done|]. by destruct K as (_&_&_&_&_&K&_).
  - destruct (lookup_invoke_kept (fetch s) (now s) _ i c H) as (c' & H' & K).
    exists c'. split; [done|]. by destruct K as (_&_&_&_&_&K&_).
  - destruct (calls s !! j) as [cj|] eqn:Hj; [|by exists c].
    destruct (0 <? requestCount cj)%Z; [|by exists c].
    destruct (lookup_alter_kept (-1) (now s) j _ i c H) as (c' & H' & K).
    exists c'. split; [done|]. by destruct K as (_&_&_&_&_&K&_).
  - destruct which; by exists c.
  - by exists c.
Qed.

Lemma timeout_kept_run es (s : window) i c :
  Expire i ∉ es → calls s !! i = Some c →
  ∃ c', calls (run es s) !! i = Some c' ∧ timeout_on c' = timeout_on c.
Proof.
  revert s c. induction es as [|e es IH]; intros s c Hes H; [by exists c|].
  apply not_elem_of_cons in Hes as [He Hes].
  destruct (timeout_kept_step e s i c (not_eq_sym He) H) as (c1 & H1 & Ht).
  destruct (IH _ c1 Hes H1) as (c2 & H2 & Ht2).
  exists c2. split; [done | congruence].
Qed.

(** X15.  Nothing cancels the absolute timeout of a call, not even its
    fulfilment by a poll: until its callback has run it stays armed, and
    when it runs it puts the values saved at the call back into
    [XMLHttpRequest.prototype.open] and [window.fetch], whatever was
    installed in them since. *)
Theorem timeout_is_never_cancelled (s : window) (timeout : N) (es : list event) :
  let id := length (calls s) in
  let s' := run es (waitForNetworkIdle timeout s) in
  Expire id ∉ es →
  ∃ c, calls s' !! id = Some c ∧ timeout_on c = true
       ∧ ((now s + timeout ≤ now s')%N →
          xhr_open (step (Expire id) s') = xhr_open s
          ∧ fetch (step (Expire id) s') = fetch s).
Proof.
  intros id s' Hes. subst id s'.
  destruct (ok_begin timeout s) as [H0 Hok0].
  destruct (timeout_kept_run es _ _ _ Hes H0) as (c & Hc & Ht).
  destruct (ok_run _ _ es _ _ _ H0 Hok0) as (c1 & Hc1 & (Hx & Hf & _)).
  destruct (clocked_run (now s) timeout es _ _ _ H0) as (c2 & Hc2 & Hck).
  { by repeat split. }
  assert (c1 = c) as -> by congruence.
  assert (c2 = c) as -> by congruence.
  destruct Hck as (Hs & Hl & _).
  exists c. split; [done|]. split; [done|].
  intros Hdue. simpl. rewrite Hc, Ht, Hs, Hl. simpl.
  rewrite (proj2 (N.leb_le _ _) Hdue).
  unfold maximum_wait. rewrite Hc. unfold restore_and_resolve. simpl.
  by rewrite Hx, Hf.
Qed.

(** A call fulfilled by a poll at 600 ms; the page then installs its own
    [fetch]; at 5000 ms the old timeout removes it. *)
Lemma timeout_is_never_cancelled_witness :
  let s0 := Window 0 (Native XhrOpen) (Native Fetch) [] in
  let s' := run [Advance 600; Tick 0; Assign Fetch (Foreign 7); Advance 4400]
              (waitForNetworkIdle 5000 s0) in
  promise <$> calls s' !! 0%nat = Some Fulfilled
  ∧ fetch s' = Foreign 7
  ∧ fetch (step (Expire 0) s') = Native Fetch.
Proof.
  intros s0 s'. split; [vm_compute; reflexivity|].
  split; [vm_compute; reflexivity|].
  destruct (timeout_is_never_cancelled s0 5000
              [Advance 600; Tick 0; Assign Fetch (Foreign 7); Advance 4400])
    as (c & _ & _ & Hfire).
  { intros Hin.
    repeat (apply elem_of_cons in Hin as [Hin|Hin]; [discriminate|]).
    by apply elem_of_nil in Hin. }
  apply Hfire. vm_compute. discriminate.
Defined.

End NetworkIdle.

(* ===================================================================== *)
(** ** Reading the page: [elementExists], [hasErrorMessage],
       [getErrorMessage] (utils.ts) and [checkForAppointments]
       (appointment-search.ts)                                            *)
(* ===================================================================== *)

Module Probe.

Import Dom.

(** A synchronous call returns a value or throws. *)
Inductive completion (A : Type) :=
| Returns (a : A)
| Throws (err : Locator.error).

Arguments Returns {A} a.
Arguments Throws {A} err.

(** [return document.querySelector(selector) !== null;] *)
Definition elementExists (doc : document) (selector : string) : completion bool :=
  match querySelector doc selector with
  | Hit _ => Returns true
  | Miss => Returns false
  | Invalid => Throws (Locator.SyntaxError selector)
  end.

(** [for (const selector of selectors) { if (elementExists(selector)) return ...; }]
    [Returns true] when the body returned, [Returns false] when the loop
    ran to its end. *)
Fixpoint some_exists (doc : document) (selectors : list string) : completion bool :=
  match selectors with
  | [] => Returns false
  | selector :: selectors =>
      match elementExists doc selector with
      | Returns true => Returns true
      | Returns false => some_exists doc selectors
      | Throws err => Throws err
      end
  end.

(** [hasErrorMessage()].  [errorMessages] is the table
    [AUTOMATION_CONFIG.selectors.errorMessages] with its properties in the
    order [for ... in] visits them, the order of creation. *)
Fixpoint hasErrorMessage (doc : document) (errorMessages : list (string * list string))
  : completion bool :=
  match errorMessages with
  | [] => Returns false
  | (_, selectors) :: errorMessages =>
      match some_exists doc selectors with
      | Returns true => Returns true
      | Returns false => hasErrorMessage doc errorMessages
      | Throws err => Throws err
      end
  end.

Section platform.
Context {browser : Platform}.

(** The inner loop of [getErrorMessage]; [trim] is the platform's. *)
Fixpoint first_text (doc : document) (selectors : list string)
  : completion (option string) :=
  match selectors with
  | [] => Returns None
  | selector :: selectors =>
      match querySelector doc selector with
      | Hit element => Returns (Some (trim (textContent element)))
      | Miss => first_text doc selectors
      | Invalid => Throws (Locator.SyntaxError selector)
      end
  end.

(** [getErrorMessage()]; [None] is [null]. *)
Fixpoint getErrorMessage (doc : document) (errorMessages : list (string * list string))
  : completion (option string) :=
  match errorMessages with
  | [] => Returns None
  | (_, selectors) :: errorMessages =>
      match first_text doc selectors with
      | Returns (Some text) => Returns (Some text)
      | Returns None => getErrorMessage doc errorMessages
      | Throws err => Throws err
      end
  end.

(** [config.selectors.appointmentResults] *)
Record appointment_results := AppointmentResults {
  resultsContainer : list string;
  appointmentItems : list string;
  noResults : list string
}.

Inductive log_entry :=
| ErrorChecking (err : Locator.error).  (* "Error checking for appointments: ..." *)

Section Results.

(** [container.children.length] *)
Variable children_length : element → nat.

(** The third loop of [checkForAppointments]. *)
Fixpoint container_with_children (doc : document) (selectors : list string)
  : completion bool :=
  match selectors with
  | [] => Returns false
  | selector :: selectors =>
      match querySelector doc selector with
      | Hit container =>
          if 0 <? children_length container then Returns true
          else container_with_children doc selectors
      | Miss => container_with_children doc selectors
      | Invalid => Throws (Locator.SyntaxError selector)
      end
  end.

(** The [try] block of [checkForAppointments]. *)
Definition checkForAppointments_try (doc : document) (r : appointment_results)
  : completion bool :=
  match some_exists doc (noResults r) with
  | Returns true => Returns false
  | Throws err => Throws err
  | Returns false =>
      match some_exists doc (appointmentItems r) with
      | Returns true => Returns true
      | Throws err => Throws err
      | Returns false => container_with_children doc (resultsContainer r)
      end
  end.

(** [checkForAppointments()]: the [catch] logs and returns [false]. *)
Definition checkForAppointments (doc : document) (r : appointment_results)
  : bool * list log_entry :=
  match checkForAppointments_try doc r with
  | Returns found => (found, [])
  | Throws err => (false, [ErrorChecking err])
  end.

(** [searchForAppointment] from the settlement of [waitForNetworkIdle()]
    on: what it reads on the page decides how the search ends. *)
Definition read_results (doc : document)
    (errorMessages : list (string * list string)) (r : appointment_results)
  : SearchLoop.search_outcome :=
  match hasErrorMessage doc errorMessages with
  | Throws _ => SearchLoop.SearchThrew
  | Returns true =>
      match getErrorMessage doc errorMessages with
      | Throws _ => SearchLoop.SearchThrew
      | Returns _ => SearchLoop.SiteError
      end
  | Returns false =>
      if (checkForAppointments doc r).1 then SearchLoop.AppointmentFound
      else SearchLoop.NoAppointment
  end.

End Results.

(** [AUTOMATION_CONFIG.selectors.errorMessages] as shipped. *)
Definition errorMessages : list (string * list string) :=
  [("accessDenied",
    [".ErrorMessage_ServicesAccessDenied:not([style*='display: none'])";
     ".ErrorMessage_ServicesAccessDenied:visible";
     ".alert:contains('does not match any RAMQ record')"]);
   ("captchaInvalid",
    [".ErrorMessage_CaptchaInvalid:not([style*='display: none'])";
     ".ErrorMessage_CaptchaInvalid:visible";
     ".alert:contains('characters you have entered do not match')"]);
   ("missingFields",
    [".ErrorMessage_FillAllFields:not([style*='display: none'])";
     ".ErrorMessage_FillAllFields:visible";
     ".alert:contains('Please fill out all the fields')"]);
   ("invalidDate",
    [".ErrorMessage_InvalideDateformat:not([style*='display: none'])";
     ".ErrorMessage_InvalideDateformat:visible";
     ".alert:contains('date entered is invalid')"]);
   ("anyError",
    [".alert:not([style*='display: none'])";
     ".alert:visible";
     ".ErrorMessage_*:visible"])].

(** [AUTOMATION_CONFIG.selectors.appointmentResults] as shipped. *)
Definition appointmentResults : appointment_results :=
  AppointmentResults
    [".results-container"; "#results"; ".appointment-results"]
    [".appointment-item"; ".result-item"; ".clinic-result"]
    [".no-results-message"; ".empty-results";
     "div:contains('No appointments available')"].

(** *** The loops against the lists *)

Definition misses (doc : document) (selector : string) : Prop :=
  querySelector doc selector = Miss.

(** The first selector of [l] that does not miss is [s], and it hits [el]. *)
Definition first_hit (doc : document) (l : list string) (s : string) (el : element)
  : Prop :=
  ∃ pre post, l = pre ++ s :: post ∧ Forall (misses doc) pre
              ∧ querySelector doc s = Hit el.

(** The first selector of [l] that does not miss is [s], and the browser
    rejects it. *)
Definition first_invalid (doc : document) (l : list string) (s : string) : Prop :=
  ∃ pre post, l = pre ++ s :: post ∧ Forall (misses doc) pre
              ∧ querySelector doc s = Invalid.

Lemma first_hit_cons_miss doc s0 l s el :
  querySelector doc s0 = Miss →
  first_hit doc (s0 :: l) s el ↔ first_hit doc l s el.
Proof.
  intros H0. split.
  - intros (pre & post & Hl & Hpre & Hs). destruct pre as [|p pre].
    + simpl in Hl. injection Hl as -> _. congruence.
    + simpl in Hl. injection Hl as -> ->. apply Forall_cons in Hpre as [_ Hpre].
      by exists pre, post.
  - intros (pre & post & -> & Hpre & Hs). exists (s0 :: pre), post.
    split; [done|]. split; [by constructor | done].
Qed.

Lemma first_invalid_cons_miss doc s0 l s :
  querySelector doc s0 = Miss →
  first_invalid doc (s0 :: l) s ↔ first_invalid doc l s.
Proof.
  intros H0. split.
  - intros (pre & post & Hl & Hpre & Hs). destruct pre as [|p pre].
    + simpl in Hl. injection Hl as -> _. congruence.
    + simpl in Hl. injection Hl as -> ->. apply Forall_cons in Hpre as [_ Hpre].
      by exists pre, post.
  - intros (pre & post & -> & Hpre & Hs). exists (s0 :: pre), post.
    split; [done|]. split; [by constructor | done].
Qed.

Lemma first_hit_head doc s0 l s el e0 :
  querySelector doc s0 = Hit e0 →
  first_hit doc (s0 :: l) s el ↔ s = s0 ∧ el = e0.
Proof.
  intros H0. split.
  - intros (pre & post & Hl & Hpre & Hs). destruct pre as [|p pre].
    + simpl in Hl. injection Hl as -> _. split; [done | congruence].
    + simpl in Hl. injection Hl as -> ->. apply Forall_cons in Hpre as [Hp _].
      unfold misses in Hp. congruence.
  - intros [-> ->]. exists [], l. by repeat split.
Qed.

Lemma first_invalid_head doc s0 l s :
  querySelector doc s0 = Invalid →
  first_invalid doc (s0 :: l) s ↔ s = s0.
Proof.
  intros H0. split.
  - intros (pre & post & Hl & Hpre & Hs). destruct pre as [|p pre].
    + simpl in Hl. by injection Hl as -> _.
    + simpl in Hl. injection Hl as -> ->. apply Forall_cons in Hpre as [Hp _].
      unfold misses in Hp. congruence.
  - intros ->. exists [], l. by repeat split.
Qed.

Lemma first_hit_not_head doc s0 l s el :
  querySelector doc s0 = Invalid → ¬ first_hit doc (s0 :: l) s el.
Proof.
  intros H0 (pre & post & Hl & Hpre & Hs). destruct pre as [|p pre].
  - simpl in Hl. injection Hl as -> _. congruence.
  - simpl in Hl. injection Hl as -> ->. apply Forall_cons in Hpre as [Hp _].
    unfold misses in Hp. congruence.
Qed.

Lemma first_invalid_not_head doc s0 l s e0 :
  querySelector doc s0 = Hit e0 → ¬ first_invalid doc (s0 :: l) s.
Proof.
  intros H0 (pre & post & Hl & Hpre & Hs). destruct pre as [|p pre].
  - simpl in Hl. injection Hl as -> _. congruence.
  - simpl in Hl. injection Hl as -> ->. apply Forall_cons in Hpre as [Hp _].
    unfold misses in Hp. congruence.
Qed.

Lemma first_hit_nil doc s el : ¬ first_hit doc [] s el.
Proof. intros (pre & post & Hl & _). by destruct pre. Qed.

Lemma first_invalid_nil doc s : ¬ first_invalid doc [] s.
Proof. intros (pre & post & Hl & _). by destruct pre. Qed.

(** What the two inner loops compute. *)
Lemma some_exists_spec doc l :
  (some_exists doc l = Returns false ↔ Forall (misses doc) l)
  ∧ (some_exists doc l = Returns true ↔ ∃ s el, first_hit doc l s el)
  ∧ (∀ err, some_exists doc l = Throws err
       ↔ ∃ s, err = Locator.SyntaxError s ∧ first_invalid doc l s).
Proof.
  induction l as [|s0 l (IHf & IHt & IHe)].
  - simpl. split; [|split].
    + split; [by constructor | done].
    + split; [done|]. intros (s & el & H). by apply first_hit_nil in H.
    + intros err. split; [done|]. intros (s & _ & H). by apply first_invalid_nil in H.
  - cbn [some_exists]. unfold elementExists.
    destruct (querySelector doc s0) as [e0| |] eqn:H0.
    + split; [|split].
      * split; [done|]. intros H. apply Forall_cons in H as [H _].
        unfold misses in H. congruence.
      * split; [|done]. intros _. exists s0, e0. by apply (first_hit_head _ _ _ _ _ e0).
      * intros err. split; [done|]. intros (s & _ & H).
        by apply (first_invalid_not_head _ _ _ _ e0) in H.
    + split; [|split].
      * rewrite IHf. split; [by constructor|]. intros H. by apply Forall_cons in H as [_ H].
      * rewrite IHt. split; intros (s & el & H); exists s, el;
          by apply (first_hit_cons_miss doc s0 l s el H0).
      * intros err. rewrite IHe. split; intros (s & -> & H); exists s;
          (split; [done|]); by apply (first_invalid_cons_miss doc s0 l s H0).
    + split; [|split].
      * split; [done|]. intros H. apply Forall_cons in H as [H _].
        unfold misses in H. congruence.
      * split; [done|]. intros (s & el & H). by apply first_hit_not_head in H.
      * intros err. split.
        -- intros [= <-]. exists s0. split; [done|]. by apply first_invalid_head.
        -- intros (s & -> & H). apply first_invalid_head in H; [|done]. by subst.
Qed.

Lemma first_text_spec doc l :
  (first_text doc l = Returns None ↔ Forall (misses doc) l)
  ∧ (∀ m, first_text doc l = Returns (Some m)
       ↔ ∃ s el, first_hit doc l s el ∧ m = trim (textContent el))
  ∧ (∀ err, first_text doc l = Throws err
       ↔ ∃ s, err = Locator.SyntaxError s ∧ first_invalid doc l s).
Proof.
  induction l as [|s0 l (IHf & IHt & IHe)].
  - simpl. split; [|split].
    + split; [by constructor | done].
    + intros m. split; [done|]. intros (s & el & H & _). by apply first_hit_nil in H.
    + intros err. split; [done|]. intros (s & _ & H). by apply first_invalid_nil in H.
  - cbn [first_text].
    destruct (querySelector doc s0) as [e0| |] eqn:H0.
    + split; [|split].
      * split; [done|]. intros H. apply Forall_cons in H as [H _].
        unfold misses in H. congruence.
      * intros m. split.
        -- intros [= <-]. exists s0, e0. split; [|done].
           by apply (first_hit_head _ _ _ _ _ e0).
        -- intros (s & el & H & ->).
           apply (first_hit_head _ _ _ _ _ e0) in H as [_ ->]; done.
      * intros err. split; [done|]. intros (s & _ & H).
        by apply (first_invalid_not_head _ _ _ _ e0) in H.
    + split; [|split].
      * rewrite IHf. split; [by constructor|]. intros H. by apply Forall_cons in H as [_ H].
      * intros m. rewrite IHt. split; intros (s & el & H & ->); exists s, el;
          (split; [|done]); by apply (first_hit_cons_miss doc s0 l s el H0).
      * intros err. rewrite IHe. split; intros (s & -> & H); exists s;
          (split; [done|]); by apply (first_invalid_cons_miss doc s0 l s H0).
    + split; [|split].
      * split; [done|]. intros H. apply Forall_cons in H as [H _].
        unfold misses in H. congruence.
      * intros m. split; [done|]. intros (s & el & H & _).
        by apply first_hit_not_head in H.
      * intros err. split.
        -- intros [= <-]. exists s0. split; [done|]. by apply first_invalid_head.
        -- intros (s & -> & H). apply first_invalid_head in H; [|done]. by subst.
Qed.

(** The nested loops visit the selectors of all the lists in one sequence. *)
Lemma some_exists_app doc l1 l2 :
  some_exists doc (l1 ++ l2)
  = match some_exists doc l1 with
    | Returns false => some_exists doc l2
    | r => r
    end.
Proof.
  induction l1 as [|s l1 IH]; simpl.
  - by destruct (some_exists doc l2) as [[|]|].
  - destruct (elementExists doc s) as [[|]|]; done.
Qed.

Lemma first_text_app doc l1 l2 :
  first_text doc (l1 ++ l2)
  = match first_text doc l1 with
    | Returns None => first_text doc l2
    | r => r
    end.
Proof.
  induction l1 as [|s l1 IH]; simpl.
  - by destruct (first_text doc l2) as [[|]|].
  - destruct (querySelector doc s); done.
Qed.

Lemma hasErrorMessage_flat doc ems :
  hasErrorMessage doc ems = some_exists doc (concat ems.*2).
Proof.
  induction ems as [|[k l] ems IH]; [done|].
  cbn [hasErrorMessage fmap list_fmap concat snd]. rewrite some_exists_app, IH.
  by destruct (some_exists doc l) as [[|]|].
Qed.

Lemma getErrorMessage_flat doc ems :
  getErrorMessage doc ems = first_text doc (concat ems.*2).
Proof.
  induction ems as [|[k l] ems IH]; [done|].
  cbn [getErrorMessage fmap list_fmap concat snd]. rewrite first_text_app, IH.
  by destruct (first_text doc l) as [[|]|].
Qed.

(** X16.  [hasErrorMessage] and [getErrorMessage] read the page alike.
    With the selectors of the table taken in one sequence, both are decided
    by the first selector that does not miss: if it matches an element, the
    one returns [true] and the other that element's trimmed text; if the
    browser rejects it, both throw its [SyntaxError]; if all miss, they
    return [false] and [null].  So a message is never [null] when an error
    was detected. *)
Theorem error_probes_agree (doc : document)
    (table : list (string * list string)) :
  (hasErrorMessage doc table = Returns false
   ↔ Forall (misses doc) (concat table.*2))
  ∧ (hasErrorMessage doc table = Returns false
     ↔ getErrorMessage doc table = Returns None)
  ∧ (hasErrorMessage doc table = Returns true
     ↔ ∃ s el, first_hit doc (concat table.*2) s el
               ∧ getErrorMessage doc table = Returns (Some (trim (textContent el))))
  ∧ (∀ err, hasErrorMessage doc table = Throws err
       ↔ getErrorMessage doc table = Throws err)
  ∧ (∀ err, hasErrorMessage doc table = Throws err
       ↔ ∃ s, err = Locator.SyntaxError s ∧ first_invalid doc (concat table.*2) s).
Proof.
  rewrite hasErrorMessage_flat, getErrorMessage_flat.
  destruct (some_exists_spec doc (concat table.*2)) as (Hf & Ht & He).
  destruct (first_text_spec doc (concat table.*2)) as (Gf & Gt & Ge).
  split; [done|]. split; [by rewrite Hf, Gf|]. split; [|split].
  - rewrite Ht. split.
    + intros (s & el & H). exists s, el. split; [done|]. apply Gt. by exists s, el.
    + intros (s & el & H & _). by exists s, el.
  - intros err. by rewrite He, Ge.
  - done.
Qed.

(** *** [checkForAppointments] *)

Section Found.

Variable children_length : element → nat.

(** A selector that does not stop the third loop. *)
Definition no_filled_container (doc : document) (selector : string) : Prop :=
  match querySelector doc selector with
  | Hit container => children_length container = 0
  | Miss => True
  | Invalid => False
  end.

Lemma container_with_children_true doc l :
  container_with_children children_length doc l = Returns true
  ↔ ∃ pre s post el, l = pre ++ s :: post
      ∧ Forall (no_filled_container doc) pre
      ∧ querySelector doc s = Hit el ∧ 0 < children_length el.
Proof.
  induction l as [|s0 l IH].
  - simpl. split; [done|]. intros (pre & s & post & el & Hl & _). by destruct pre.
  - cbn [container_with_children].
    destruct (querySelector doc s0) as [e0| |] eqn:H0.
    + destruct (Nat.ltb_spec 0 (children_length e0)) as [Hpos|Hzero].
      * split; [|done]. intros _. exists [], s0, l, e0. by repeat split.
      * rewrite IH. split.
        -- intros (pre & s & post & el & -> & Hpre & Hs & Hc).
           exists (s0 :: pre), s, post, el. split; [done|].
           split; [|done]. constructor; [|done].
           unfold no_filled_container. rewrite H0. lia.
        -- intros (pre & s & post & el & Hl & Hpre & Hs & Hc).
           destruct pre as [|p pre]; simpl in Hl.
           ++ injection Hl as -> _. rewrite H0 in Hs. injection Hs as ->. lia.
           ++ injection Hl as -> ->. apply Forall_cons in Hpre as [_ Hpre].
              by exists pre, s, post, el.
    + rewrite IH. split.
      * intros (pre & s & post & el & -> & Hpre & Hs & Hc).
        exists (s0 :: pre), s, post, el. split; [done|].
        split; [|done]. constructor; [|done].
        unfold no_filled_container. by rewrite H0.
      * intros (pre & s & post & el & Hl & Hpre & Hs & Hc).
        destruct pre as [|p pre]; simpl in Hl.
        -- injection Hl as -> _. congruence.
        -- injection Hl as -> ->. apply Forall_cons in Hpre as [_ Hpre].
           by exists pre, s, post, el.
    + split; [done|]. intros (pre & s & post & el & Hl & Hpre & Hs & Hc).
      destruct pre as [|p pre]; simpl in Hl.
      * injection Hl as -> _. congruence.
      * injection Hl as -> ->. apply Forall_cons in Hpre as [Hp _].
        unfold no_filled_container in Hp. by rewrite H0 in Hp.
Qed.

(** X17.  [checkForAppointments] answers [true] in exactly two
    situations, and in both every no-results selector is accepted by the
    browser and matches nothing: the first appointment-item selector that
    does not miss matches an element; or all of them miss and some results
    container has at least one child, every container selector before it
    matching nothing or an empty container.  On every other page, one where
    a selector throws included, the answer is [false]. *)
Theorem checkForAppointments_true_iff (doc : document) (r : appointment_results) :
  (checkForAppointments children_length doc r).1 = true
  ↔ Forall (misses doc) (noResults r)
    ∧ ((∃ s el, first_hit doc (appointmentItems r) s el)
       ∨ (Forall (misses doc) (appointmentItems r)
          ∧ ∃ pre s post el, resultsContainer r = pre ++ s :: post
              ∧ Forall (no_filled_container doc) pre
              ∧ querySelector doc s = Hit el ∧ 0 < children_length el)).
Proof.
  unfold checkForAppointments, checkForAppointments_try.
  destruct (some_exists_spec doc (noResults r)) as (Nf & Nt & Ne).
  destruct (some_exists_spec doc (appointmentItems r)) as (If & It & Ie).
  destruct (some_exists doc (noResults r)) as [[|]|err] eqn:HN; cbn [fst].
  - split; [done|]. intros [H _]. apply Nf in H. done.
  - destruct (some_exists doc (appointmentItems r)) as [[|]|err] eqn:HI; cbn [fst].
    + split; [|done]. intros _. split; [by apply Nf|]. left. by apply It.
    + destruct (container_with_children children_length doc (resultsContainer r))
        as [[|]|err] eqn:HC; cbn [fst].
      * split; [|done]. intros _. split; [by apply Nf|]. right.
        split; [by apply If|]. by apply container_with_children_true.
      * split; [done|]. intros [_ [H|[_ H]]].
        -- apply It in H. done.
        -- apply container_with_children_true in H. congruence.
      * split; [done|]. intros [_ [H|[_ H]]].
        -- apply It in H. done.
        -- apply container_with_children_true in H. congruence.
    + split; [done|]. intros [_ [H|[H _]]].
      * apply It in H. done.
      * apply If in H. done.
  - split; [done|]. intros [H _]. apply Nf in H. done.
Qed.

Lemma found_only_without_noResults doc r :
  (checkForAppointments children_length doc r).1 = true →
  some_exists doc (noResults r) = Returns false.
Proof.
  unfold checkForAppointments, checkForAppointments_try.
  destruct (some_exists doc (noResults r)) as [[|]|]; simpl; done.
Qed.

(** X18.  One selector that the browser rejects is enough to keep a
    search from ever reporting an appointment.  If it stands in the
    error-message table, the search ends as a failure (a thrown error or a
    site error) on every page; if it stands in the no-results list, the
    search never ends with an appointment found, whatever appointment items
    the page shows. *)
Theorem rejected_selector_hides_appointments (doc : document)
    (table : list (string * list string)) (r : appointment_results) (s : string) :
  querySelector doc s = Invalid →
  (s ∈ concat table.*2 →
     read_results children_length doc table r = SearchLoop.SearchThrew
     ∨ read_results children_length doc table r = SearchLoop.SiteError)
  ∧ (s ∈ noResults r →
     read_results children_length doc table r ≠ SearchLoop.AppointmentFound).
Proof.
  intros Hs.
  assert (Hbad : ∀ l, s ∈ l → ¬ Forall (misses doc) l).
  { intros l Hin HF. rewrite Forall_forall in HF. specialize (HF s Hin).
    unfold misses in HF. congruence. }
  unfold read_results. split.
  - intros Hin.
    destruct (hasErrorMessage doc table) as [[|]|err] eqn:HE.
    + destruct (getErrorMessage doc table); [by right | by left].
    + exfalso. apply (Hbad _ Hin).
      rewrite hasErrorMessage_flat in HE. by apply some_exists_spec.
    + by left.
  - intros Hin.
    destruct (hasErrorMessage doc table) as [[|]|err] eqn:HE.
    + by destruct (getErrorMessage doc table).
    + destruct (checkForAppointments children_length doc r).1 eqn:Hc; [|done].
      exfalso. apply found_only_without_noResults in Hc.
      apply (Hbad _ Hin). by apply some_exists_spec.
    + done.
Qed.

End Found.

End platform.

#[local] Existing Instance ascii_platform.

(** A results page that lists one clinic with an appointment, in a browser
    that rejects the jQuery forms. *)
Definition clinic : element :=
  Element 11 (HTMLElement "DIV") false "" [] "Clinique du Parc  09:30"
    false false.

Definition results_page : document :=
  Document
    (λ selector,
       if Locator.jquery_only selector then Invalid
       else if String.eqb selector ".appointment-item" then Hit clinic
       else Miss)
    [] (λ _, CrossOrigin) (λ _, []).

Lemma checkForAppointments_true_iff_witness :
  (checkForAppointments (λ _, 0)
     results_page
     (AppointmentResults [".results-container"] [".appointment-item"]
        [".no-results-message"; ".empty-results"])).1 = true.
Proof.
  apply (checkForAppointments_true_iff (λ _, 0) results_page
           (AppointmentResults [".results-container"] [".appointment-item"]
              [".no-results-message"; ".empty-results"])).
  split.
  - repeat constructor.
  - left. exists ".appointment-item", clinic. exists [], []. by repeat split.
Defined.

(** With the tables as shipped, the clinic on the page is not reported:
    the second selector of the error table is rejected. *)
Lemma rejected_selector_hides_appointments_witness :
  read_results (λ _, 0) results_page errorMessages appointmentResults
  ≠ SearchLoop.AppointmentFound
  ∧ (read_results (λ _, 0) results_page errorMessages appointmentResults
     = SearchLoop.SearchThrew
     ∨ read_results (λ _, 0) results_page errorMessages appointmentResults
       = SearchLoop.SiteError).
Proof.
  split.
  - refine (proj2 (rejected_selector_hides_appointments (λ _, 0) results_page
                     errorMessages appointmentResults
                     "div:contains('No appointments available')" _) _).
    + reflexivity.
    + vm_compute. set_solver.
  - refine (proj1 (rejected_selector_hides_appointments (λ _, 0) results_page
                     errorMessages appointmentResults
                     ".ErrorMessage_ServicesAccessDenied:visible" _) _).
    + reflexivity.
    + vm_compute. set_solver.
Defined.

End Probe.

(* ===================================================================== *)
(** ** Page transition: [ElementFinder.waitForUrlChange] (utils.ts)       *)
(* ===================================================================== *)

Module UrlChange.

Inductive promise_state :=
| Pending
| Fulfilled
| Rejected (timeout : N).   (* Error(`URL did not change within ${timeout}ms`) *)

(** The closure of one call: [startUrl], the 100 ms poll ([intervalId]),
    the timeout ([timeoutId]), the 2000 ms timer a poll sets before
    resolving ([delay], with the time it is due), and the promise. *)
Record call := Call {
  startUrl : string;
  started : N;
  limit : N;
  intervalId : bool;
  timeoutId : bool;
  delay : option N;
  promise : promise_state
}.

(** The window: the clock, [window.location.href], and the call. *)
Record window := Window {
  now : N;
  href : string;
  wait : call
}.

(** [waitForUrlChange(timeout)]: the executor. *)
Definition waitForUrlChange (timeout : N) (t : N) (url : string) : window :=
  Window t url (Call url t timeout true true None Pending).

(** Settling a promise that is already settled does nothing. *)
Definition settle (r : promise_state) (c : call) : promise_state :=
  match promise c with
  | Pending => r
  | p => p
  end.

(** The [setInterval] callback. *)
Definition poll (s : window) : window :=
  let c := wait s in
  if negb (String.eqb (href s) (startUrl c)) then
    Window (now s) (href s)
      (Call (startUrl c) (started c) (limit c) false false
            (Some (now s + 2000)%N) (promise c))
  else s.

(** The [setTimeout(..., timeout)] callback. *)
Definition expire (s : window) : window :=
  let c := wait s in
  Window (now s) (href s)
    (Call (startUrl c) (started c) (limit c) false false (delay c)
          (settle (Rejected (limit c)) c)).

(** [resolve], run by the 2000 ms timer. *)
Definition resolve (s : window) : window :=
  let c := wait s in
  Window (now s) (href s)
    (Call (startUrl c) (started c) (limit c) (intervalId c) (timeoutId c) None
          (settle Fulfilled c)).

Inductive event :=
| Poll                    (* the interval timer fires *)
| Expire                 (* the timeout fires *)
| Delay                   (* the 2000 ms timer fires *)
| Navigate (url : string) (* location.href changes, the script lives on *)
| Advance (dt : N).       (* time passes *)

(** A cleared timer does not fire, and no timer fires before it is due. *)
Definition step (e : event) (s : window) : window :=
  let c := wait s in
  match e with
  | Poll =>
      if intervalId c && (started c + 100 <=? now s)%N then poll s else s
  | Expire =>
      if timeoutId c && (started c + limit c <=? now s)%N then expire s else s
  | Delay =>
      match delay c with
      | Some due => if (due <=? now s)%N then resolve s else s
      | None => s
      end
  | Navigate url => Window (now s) url c
  | Advance dt => Window (now s + dt) (href s) c
  end.

Definition run (es : list event) (s : window) : window :=
  foldl (λ s e, step e s) s es.

(** The four phases of a call: waiting; a poll has seen another URL and
    the 2000 ms timer runs; fulfilled; rejected. *)
Definition phase (s : window) : Prop :=
  let c := wait s in
  match promise c, delay c with
  | Pending, None => intervalId c = true ∧ timeoutId c = true
  | Pending, Some due =>
      intervalId c = false ∧ timeoutId c = false
      ∧ (started c + 2100 ≤ due)%N ∧ (due ≤ now s + 2000)%N
  | Fulfilled, None =>
      intervalId c = false ∧ timeoutId c = false
      ∧ (started c + 2100 ≤ now s)%N
  | Rejected timeout, None =>
      timeout = limit c ∧ intervalId c = false ∧ timeoutId c = false
      ∧ (started c + limit c ≤ now s)%N
  | _, Some _ => False
  end.

Lemma phase_step e s : phase s → phase (step e s).
Proof.
  destruct s as [t url [u t0 lim iv to dl pr]]. unfold phase.
  destruct e as [| | |url'|dt]; simpl.
  - destruct iv; simpl; [|done].
    destruct (N.leb_spec (t0 + 100) t) as [Hdue|]; [|done].
    unfold poll. simpl. destruct (String.eqb url u); simpl; [done|].
    destruct pr, dl; simpl; intros H; try done;
      try (decompose [and] H; done).
    repeat split; lia.
  - destruct to; simpl; [|done].
    destruct (N.leb_spec (t0 + lim) t) as [Hdue|]; [|done].
    unfold expire, settle. simpl.
    destruct pr, dl; simpl; intros H; try done;
      try (decompose [and] H; done).
  - destruct dl as [due|]; simpl; [|done].
    destruct (N.leb_spec due t) as [Hdue|]; [|done].
    unfold resolve, settle. simpl.
    destruct pr; simpl; try done.
    intros (-> & -> & H1 & H2). repeat split; lia.
  - done.
  - destruct pr, dl; simpl; try done.
    + intros (? & ? & ? & ?). repeat split; try done; lia.
    + intros (? & ? & ?). repeat split; try done; lia.
    + intros (? & ? & ? & ?). repeat split; try done; lia.
Qed.

Lemma phase_run es s : phase s → phase (run es s).
Proof.
  revert s. induction es as [|e es IH]; intros s H; [done|].
  simpl. by apply IH, phase_step.
Qed.

Lemma started_step e s : started (wait (step e s)) = started (wait s)
                         ∧ limit (wait (step e s)) = limit (wait s)
                         ∧ startUrl (wait (step e s)) = startUrl (wait s).
Proof.
  destruct s as [t url [u t0 lim iv to dl pr]].
  destruct e as [| | |url'|dt]; simpl; try done.
  - destruct (_ && _); [|done]. unfold poll. simpl. by destruct (negb _).
  - by destruct (_ && _).
  - destruct dl as [due|]; [|done]. simpl. by destruct (_ <=? _)%N.
Qed.

Lemma started_run es s : started (wait (run es s)) = started (wait s)
                         ∧ limit (wait (run es s)) = limit (wait s)
                         ∧ startUrl (wait (run es s)) = startUrl (wait s).
Proof.
  revert s. induction es as [|e es IH]; intros s; [done|].
  simpl. destruct (IH (step e s)) as (-> & -> & ->). apply started_step.
Qed.

(** X19.  [waitForUrlChange] settles at most once and by one path only.
    Whatever the page and the timers do after the call, the call is waiting
    with both timers armed, or a poll has seen another URL, or it is
    fulfilled, or it is rejected.  It is never fulfilled sooner than 2100 ms
    after the call; it is rejected only at or after the timeout, with the
    timeout in the message.  From the moment a poll has seen another URL
    both timers are cleared, so the call can no longer be rejected: it is
    fulfilled when the 2000 ms timer fires, past the timeout if need be,
    and even if the URL is the start URL again by then. *)
Theorem url_change_settles_once (timeout t : N) (url : string) (es : list event) :
  let s := run es (waitForUrlChange timeout t url) in
  let c := wait s in
  phase s
  ∧ (promise c = Fulfilled → (t + 2100 ≤ now s)%N)
  ∧ (∀ m, promise c = Rejected m → m = timeout ∧ (t + timeout ≤ now s)%N)
  ∧ (∀ due, delay c = Some due →
       promise c = Pending ∧ timeoutId c = false
       ∧ ∀ es', promise (wait (run es' s)) ≠ Rejected timeout
                ∧ ((due ≤ now (run es' s))%N →
                   promise (wait (step Delay (run es' s))) = Fulfilled)).
Proof.
  intros s c.
  assert (Hph : phase s) by (apply phase_run; by repeat split).
  destruct (started_run es (waitForUrlChange timeout t url)) as (Hs & Hl & _).
  simpl in Hs, Hl. fold s in Hs, Hl. fold c in Hs, Hl.
  split; [done|]. unfold phase in Hph. fold c in Hph.
  split; [|split].
  - intros E. rewrite E in Hph. destruct (delay c); [done|].
    destruct Hph as (_ & _ & H). lia.
  - intros m E. rewrite E in Hph. destruct (delay c); [done|].
    destruct Hph as (-> & _ & _ & H). split; [done | lia].
  - intros due E. rewrite E in Hph.
    destruct (promise c) eqn:Hp; try done.
    destruct Hph as (Hi & Ht & _). split; [done|]. split; [done|].
    (* nothing re-arms the timers, and only the delay timer can settle *)
    assert (Hkeep : ∀ es' s0, promise (wait s0) ≠ Rejected timeout →
              intervalId (wait s0) = false → timeoutId (wait s0) = false →
              (delay (wait s0) = Some due ∧ promise (wait s0) = Pending
               ∨ promise (wait s0) = Fulfilled) →
              promise (wait (run es' s0)) ≠ Rejected timeout
              ∧ intervalId (wait (run es' s0)) = false
              ∧ timeoutId (wait (run es' s0)) = false
              ∧ (delay (wait (run es' s0)) = Some due
                 ∧ promise (wait (run es' s0)) = Pending
                 ∨ promise (wait (run es' s0)) = Fulfilled)).
    { induction es' as [|e es' IH]; intros s0 H1 H2 H3 H4; [done|].
      simpl. destruct s0 as [t1 url1 [u t0 lim iv to dl pr]]. simpl in *. subst iv to.
      destruct e as [| | |url'|dt]; simpl.
      - by apply IH.
      - by apply IH.
      - destruct dl as [d|]; simpl; [|by apply IH].
        destruct (d <=? t1)%N; [|by apply IH].
        unfold resolve, settle; simpl.
        destruct H4 as [[_ ->] | ->]; apply IH; simpl; try done; by right.
      - by apply IH.
      - by apply IH. }
    intros es'.
    destruct (Hkeep es' s) as (Hr & _ & _ & Hd);
      [fold c; by rewrite Hp | done | done | left; by fold c |].
    split; [done|]. revert Hd. generalize (run es' s).
    intros [t1 url1 [u t0 lim iv to dl pr]] Hd Hdue. simpl in Hd, Hdue. simpl.
    destruct Hd as [[Hd1 Hd2] | Hd2]; subst dl pr || subst pr.
    + simpl. by rewrite (proj2 (N.leb_le _ _) Hdue).
    + destruct dl as [d|]; simpl; [|done].
      destruct (d <=? t1)%N; done.
Qed.

(** A change seen by the last poll before a 5000 ms timeout: the timeout
    does not reject, and the call is fulfilled at 6900 ms. *)
Example fulfilled_after_the_timeout :
  let s := run [Advance 4900; Navigate "https://rvsq.gouv.qc.ca/b"; Poll;
                Advance 100; Expire; Advance 1900; Delay]
             (waitForUrlChange 5000 0 "https://rvsq.gouv.qc.ca/a") in
  promise (wait s) = Fulfilled ∧ now s = 6900%N.
Proof. vm_compute. done. Qed.

(** A change that is undone between two polls is not seen. *)
Example change_between_polls_is_missed :
  let s := run [Advance 100; Poll; Advance 30;
                Navigate "https://rvsq.gouv.qc.ca/a#x"; Advance 30;
                Navigate "https://rvsq.gouv.qc.ca/a"; Advance 40; Poll;
                Advance 4800; Expire]
             (waitForUrlChange 5000 0 "https://rvsq.gouv.qc.ca/a") in
  promise (wait s) = Rejected 5000.
Proof. vm_compute. done. Qed.

End UrlChange.

(* ===================================================================== *)
(** ** The personal-information form: [fillPersonalInfo]
       (personal-info.ts)                                                 *)
(* ===================================================================== *)

Module Forms.

(** [s.split(sep)] with a separator of one character.  The result is never
    empty, so the last branch is not taken. *)
Fixpoint split (sep : ascii) (s : string) : list string :=
  match s with
  | EmptyString => [EmptyString]
  | String c s =>
      if Ascii.eqb c sep then EmptyString :: split sep s
      else match split sep s with
           | part :: parts => String c part :: parts
           | [] => [String c EmptyString]
           end
  end.



(** [config.appointmentData] *)
Record appointment_data := AppointmentData {
  firstName : string;
  lastName : string;
  healthInsuranceNumber : string;
  sequentialNumber : string;
  dateOfBirth : string;
  postalCode : string;
  searchRadius : string;
  reason : string
}.

(** The keys of [config.selectors.formFields] that [fillPersonalInfo]
    passes to [fillInput]. *)
Inductive field :=
| FirstName
| LastName
| HealthInsuranceNumber
| SequentialNumber
| DateOfBirthDay
| DateOfBirthMonth
| DateOfBirthYear
| AgreeToTerms.

(** [const dobParts = dateOfBirth.split('-');
     if (dobParts.length === 3) { const [year, month, day] = dobParts; ... }] *)
Definition date_fields (dateOfBirth : string) : list (field * string) :=
  match split "-" dateOfBirth with
  | [year; month; day] =>
      [(DateOfBirthDay, day); (DateOfBirthMonth, month); (DateOfBirthYear, year)]
  | _ => []
  end.

(** The [fillInput] calls of [fillPersonalInfo], in the order it awaits
    them. *)
Definition fillPersonalInfo_calls (d : appointment_data) : list (field * string) :=
  [(FirstName, firstName d); (LastName, lastName d);
   (HealthInsuranceNumber, healthInsuranceNumber d);
   (SequentialNumber, sequentialNumber d)]
  ++ date_fields (dateOfBirth d)
  ++ [(AgreeToTerms, "true")].

Section Fill.

(** [W] is the page, [E] what [fillInput] rejects with. *)
Variables W E : Type.

(** [await ElementFinder.fillInput(config.selectors.formFields[field], value)]
    from the call to the settlement of its promise. *)
Variable fillInput : field → string → W → W * option E.

(** Awaiting calls one after the other: the first rejection is thrown on. *)
Fixpoint awaits (calls : list (field * string)) (w : W) : W * option E :=
  match calls with
  | [] => (w, None)
  | (f, v) :: calls =>
      match fillInput f v w with
      | (w', None) => awaits calls w'
      | (w', Some err) => (w', Some err)
      end
  end.

(** [fillPersonalInfo()] *)
Definition fillPersonalInfo (d : appointment_data) (w : W) : W * option E :=
  awaits (fillPersonalInfo_calls d) w.

End Fill.

(** *** [split] and [join] *)







(** The shipped date. *)
Example shipped_date_of_birth :
  date_fields "2003-01-30"
  = [(DateOfBirthDay, "30"); (DateOfBirthMonth, "01"); (DateOfBirthYear, "2003")].
Proof. reflexivity. Qed.

End Forms.

(* ===================================================================== *)
(** ** Starting the automation from the page: [injectAndRunAutomation]
       (assets/inject-automation.js)                                      *)
(* ===================================================================== *)

Module Injection.

(** Where [checkAndRunAutomation] is called from. *)
Inductive origin := Immediately | OnLoad | Delayed.

#[local] Instance origin_eq_dec : EqDecision origin.
Proof. solve_decision. Defined.

(** The page the script is injected into, and the script's own state:
    whether [window.startAutomation] is a function, whether
    [document.readyState] is ['complete'], the [load] listener the script
    added, its pending [setTimeout] with the time it is due, its [attempts]
    counter, whether it has printed its failure line, and the calls of
    [window.startAutomation()] it has made, by origin. *)
Record page := Page {
  now : N;
  defined : bool;
  complete : bool;
  listener : bool;
  timer : option N;
  attempts : nat;
  failed : bool;
  calls : list origin
}.

Definition maxAttempts : nat := 5.

(** [checkAndRunAutomation()] *)
Definition checkAndRunAutomation (o : origin) (s : page) : page * bool :=
  if defined s
  then (Page (now s) (defined s) (complete s) (listener s) (timer s)
          (attempts s) (failed s) (calls s ++ [o]), true)
  else (s, false).

Definition setTimeout (s : page) : page :=
  Page (now s) (defined s) (complete s) (listener s) (Some (now s + 1000)%N)
    (attempts s) (failed s) (calls s).

Inductive result :=
| ReturnedTrue
| Initiated.        (* "Automation injection initiated" *)

(** [injectAndRunAutomation()] on a page the script has not touched. *)
Definition injectAndRunAutomation (t : N) (is_defined is_complete : bool)
  : page * result :=
  let s := Page t is_defined is_complete false None 0 false [] in
  match checkAndRunAutomation Immediately s with
  | (s, true) => (s, ReturnedTrue)
  | (s, false) =>
      let s := if negb (complete s)
               then Page (now s) (defined s) (complete s) true (timer s)
                      (attempts s) (failed s) (calls s)
               else s in
      (setTimeout s, Initiated)
  end.

(** [attemptWithDelay()], run by the timer. *)
Definition attemptWithDelay (s : page) : page :=
  if maxAttempts <=? attempts s
  then Page (now s) (defined s) (complete s) (listener s) (timer s)
         (attempts s) true (calls s)
  else
    let s := Page (now s) (defined s) (complete s) (listener s) (timer s)
               (S (attempts s)) (failed s) (calls s) in
    match checkAndRunAutomation Delayed s with
    | (s, true) => s
    | (s, false) => setTimeout s
    end.

Inductive event :=
| Fire                     (* the pending timer fires *)
| LoadEvent                     (* the window's load event *)
| Define (b : bool)        (* window.startAutomation is set, or removed *)
| Advance (dt : N).        (* time passes *)

(** A timer fires once and not before it is due; [load] is dispatched once,
    when the document becomes complete. *)
Definition step (e : event) (s : page) : page :=
  match e with
  | Fire =>
      match timer s with
      | Some due =>
          if (due <=? now s)%N
          then attemptWithDelay
                 (Page (now s) (defined s) (complete s) (listener s) None
                    (attempts s) (failed s) (calls s))
          else s
      | None => s
      end
  | LoadEvent =>
      if complete s then s
      else
        let s := Page (now s) (defined s) true (listener s) (timer s)
                   (attempts s) (failed s) (calls s) in
        if listener s then (checkAndRunAutomation OnLoad s).1 else s
  | Define b =>
      Page (now s) b (complete s) (listener s) (timer s) (attempts s)
        (failed s) (calls s)
  | Advance dt =>
      Page (now s + dt) (defined s) (complete s) (listener s) (timer s)
        (attempts s) (failed s) (calls s)
  end.

Definition run (es : list event) (s : page) : page :=
  foldl (λ s e, step e s) s es.

Definition count (o : origin) (l : list origin) : nat :=
  length (filter (λ x, x = o) l).

(** The state of the retry chain of a script injected at [t0]: waiting for
    its next attempt, ended by a successful attempt, or given up. *)
Definition chain (t0 : N) (s : page) : Prop :=
  match timer s with
  | Some due =>
      attempts s < S maxAttempts ∧ failed s = false ∧ count Delayed (calls s) = 0
      ∧ (t0 + 1000 * N.of_nat (S (attempts s)) ≤ due)%N
      ∧ (due ≤ now s + 1000)%N
  | None =>
      (failed s = false ∧ count Delayed (calls s) = 1
       ∧ 0 < attempts s ∧ attempts s < S maxAttempts)
      ∨ (failed s = true ∧ count Delayed (calls s) = 0
         ∧ attempts s = maxAttempts ∧ (t0 + 6000 ≤ now s)%N)
  end.

Definition inv (t0 : N) (s : page) : Prop :=
  count Immediately (calls s) = 0
  ∧ count OnLoad (calls s) < 2
  ∧ (count OnLoad (calls s) = 1 → complete s = true)
  ∧ chain t0 s.

Lemma count_app o l x :
  count o (l ++ [x]) = count o l + (if decide (x = o) then 1 else 0).
Proof.
  unfold count. rewrite filter_app, length_app. f_equal.
  rewrite filter_cons, filter_nil. by case_decide.
Qed.

Ltac reduce := cbn -[Nat.leb N.leb count N.of_nat N.mul N.add maxAttempts].

Lemma inv_step t0 e s : inv t0 s → inv t0 (step e s).
Proof.
  destruct s as [t df cp ls tm at_ fl cs]. unfold inv, chain. reduce.
  intros (Hi & Hl & Hc & Hch).
  destruct e as [| |b|dt]; reduce.
  - destruct tm as [due|]; [|done]. reduce.
    destruct (N.leb_spec due t) as [Hdue|]; [|done].
    destruct Hch as (Ha & Hf & Hd & H1 & H2).
    unfold attemptWithDelay. reduce.
    destruct (Nat.leb_spec maxAttempts at_) as [Hmax|Hless]; reduce.
    + split; [done|]. split; [done|]. split; [done|]. right.
      unfold maxAttempts in *. repeat split; try done; lia.
    + unfold checkAndRunAutomation. reduce. destruct df; reduce.
      * rewrite !count_app. repeat case_decide; try done.
        split; [lia|]. split; [lia|]. split; [intros; apply Hc; lia|].
        left. unfold maxAttempts in *. repeat split; try done; lia.
      * split; [done|]. split; [done|]. split; [done|].
        unfold maxAttempts in *. repeat split; try done; lia.
  - destruct cp; reduce; [done|].
    assert (Hz : count OnLoad cs = 0).
    { destruct (count OnLoad cs) as [|[|n]] eqn:E; [done| |lia].
      by specialize (Hc eq_refl). }
    destruct ls; reduce; [|split; [done|]; split; [lia|]; split; [done|]; done].
    unfold checkAndRunAutomation. reduce. destruct df; reduce.
    + rewrite !count_app. repeat case_decide; try done.
      split; [lia|]. split; [lia|]. split; [done|].
      rewrite Nat.add_0_r. done.
    + split; [done|]. split; [lia|]. split; [done|]. done.
  - done.
  - split; [done|]. split; [done|]. split; [done|].
    destruct tm as [due|].
    + destruct Hch as (?&?&?&?&?). repeat split; try done; lia.
    + destruct Hch as [?|(?&?&?&?)]; [by left|]. right. repeat split; try done; lia.
Qed.

Lemma inv_run t0 es s : inv t0 s → inv t0 (run es s).
Proof.
  revert s. induction es as [|e es IH]; intros s H; [done|].
  simpl. by apply IH, inv_step.
Qed.

Lemma idle_step e s :
  timer s = None → listener s = false →
  timer (step e s) = None ∧ listener (step e s) = false
  ∧ calls (step e s) = calls s ∧ attempts (step e s) = attempts s
  ∧ failed (step e s) = failed s.
Proof.
  destruct s as [t df cp ls tm at_ fl cs]. simpl. intros -> ->.
  destruct e; simpl; try done. by destruct cp.
Qed.

Lemma idle_run es s :
  timer s = None → listener s = false →
  calls (run es s) = calls s ∧ attempts (run es s) = attempts s
  ∧ failed (run es s) = failed s.
Proof.
  revert s. induction es as [|e es IH]; intros s Ht Hl; [done|].
  destruct (idle_step e s Ht Hl) as (Ht' & Hl' & Hc & Ha & Hf).
  simpl. destruct (IH (step e s) Ht' Hl') as (-> & -> & ->). done.
Qed.

Lemma count_total (l : list origin) :
  length l = count Immediately l + count OnLoad l + count Delayed l.
Proof.
  induction l as [|x l IH]; [done|].
  unfold count in *. rewrite !filter_cons.
  destruct x; repeat case_decide; try done; simpl; lia.
Qed.

(** X22.  The injected script calls [window.startAutomation()] at most
    twice, whatever the page does: once at most from its chain of delayed
    attempts, which makes no more than five attempts and gives up not
    sooner than 6000 ms after the injection, and once at most from its
    [load] listener, which the chain does not know of.  When the function
    is there at the injection it is called once, at once, and never again. *)
Theorem starts_at_most_twice (t : N) (is_defined is_complete : bool)
    (es : list event) :
  let s := run es (injectAndRunAutomation t is_defined is_complete).1 in
  length (calls s) ≤ 2
  ∧ attempts s ≤ maxAttempts
  ∧ count Delayed (calls s) ≤ 1 ∧ count OnLoad (calls s) ≤ 1
  ∧ (is_defined = true → calls s = [Immediately] ∧ attempts s = 0)
  ∧ (is_defined = false → count Immediately (calls s) = 0)
  ∧ (is_complete = true → count OnLoad (calls s) = 0)
  ∧ (failed s = true →
       attempts s = maxAttempts ∧ timer s = None
       ∧ count Delayed (calls s) = 0 ∧ (t + 6000 ≤ now s)%N).
Proof.
  intros s. subst s. destruct is_defined.
  - replace (injectAndRunAutomation t true is_complete).1
      with (Page t true is_complete false None 0 false [Immediately])
      by reflexivity.
    destruct (idle_run es (Page t true is_complete false None 0 false [Immediately]))
      as (Hc & Ha & Hf); [done | done |].
    simpl in Hc, Ha, Hf. rewrite Hc, Ha, Hf.
    unfold maxAttempts, count. simpl. repeat split; try done; lia.
  - replace (injectAndRunAutomation t false is_complete).1
      with (setTimeout (Page t false is_complete (negb is_complete) None 0 false []))
      by (by destruct is_complete).
    set (s0 := setTimeout _).
    assert (H0 : inv t s0).
    { subst s0. unfold inv, chain, maxAttempts, count.
      destruct is_complete; simpl; repeat split; try done; lia. }
    pose proof (inv_run t es s0 H0) as (Hi & Hl & Hc & Hch).
    pose proof (count_total (calls (run es s0))) as Htot.
    assert (Hd : count Delayed (calls (run es s0)) ≤ 1
                 ∧ attempts (run es s0) ≤ maxAttempts).
    { unfold chain in Hch. destruct (timer (run es s0)).
      - destruct Hch as (? & ? & ? & _). lia.
      - destruct Hch as [(?&?&?&?)|(?&?&?&?)]; lia. }
    split; [lia|]. split; [lia|]. split; [lia|]. split; [lia|].
    split; [done|]. split; [done|]. split.
    + intros ->.
      assert (Hnl : ∀ es' s1, complete s1 = true →
                complete (run es' s1) = true
                ∧ count OnLoad (calls (run es' s1)) = count OnLoad (calls s1)).
      { induction es' as [|e es' IH]; intros s1 Hcp; [done|]. simpl.
        assert (Hs : complete (step e s1) = true
                     ∧ count OnLoad (calls (step e s1)) = count OnLoad (calls s1)).
        { destruct s1 as [t1 df cp ls tm at_ fl cs]. simpl in Hcp. subst cp.
          destruct e; reduce; try done.
          destruct tm as [due|]; [|done]. reduce.
          destruct (due <=? t1)%N; [|done].
          unfold attemptWithDelay. reduce.
          destruct (maxAttempts <=? at_); [done|].
          unfold checkAndRunAutomation. reduce. destruct df; reduce; [|done].
          split; [done|]. rewrite count_app. rewrite decide_False by done. lia. }
        destruct Hs as [Hs1 Hs2]. destruct (IH _ Hs1) as [IH1 IH2].
        split; [done | congruence]. }
      destruct (Hnl es s0) as [_ ->]; done.
    + intros Hf. unfold chain in Hch. destruct (timer (run es s0)).
      * destruct Hch as (_ & ? & _). congruence.
      * destruct Hch as [(?&_)|(?&?&?&?)]; [congruence | done].
Qed.

(** The function appears at 500 ms, before the page has finished loading:
    the [load] listener starts the automation at 700 ms and the first
    delayed attempt starts it again at 1000 ms. *)
Example started_twice :
  calls (run [Advance 500; Define true; Advance 200; LoadEvent; Advance 300; Fire]
           (injectAndRunAutomation 0 false false).1)
  = [OnLoad; Delayed].
Proof. reflexivity. Qed.

(** The function never appears: five attempts, then the failure line. *)
Example gives_up_after_five :
  let s := run [Advance 1000; Fire; Advance 1000; Fire; Advance 1000; Fire;
                Advance 1000; Fire; Advance 1000; Fire; Advance 1000; Fire]
             (injectAndRunAutomation 0 false true).1 in
  attempts s = 5 ∧ failed s = true ∧ calls s = [] ∧ now s = 6000%N.
Proof. vm_compute. done. Qed.

End Injection.

(* ===================================================================== *)
(** ** The background handler of the [startAutomation] message
       (background/messages/startAutomation.ts)                           *)
(* ===================================================================== *)

Module Background.

(** [req.body] when it is an object: [type] and [continuous], [None] for a
    field that is missing.  [type] is whatever string the sender put there. *)
Record body := Body {
  type : option string;
  continuous : option bool
}.

(** The tab [chrome.tabs.query] returns first.  An [id] of 0 is falsy. *)
Record tab := Tab {
  id : option N;
  url : option string
}.

(** Which of the functions the content script exposes are functions on the
    [window] of one JavaScript world of the tab. *)
Record world := World {
  startAutomation : bool;
  startPersonalInfo : bool;
  startAppointmentSearch : bool
}.

(** A call made in the page. *)
Inductive started :=
| StartAutomation                            (* window.startAutomation() *)
| StartPersonalInfo                          (* window.startPersonalInfo() *)
| StartAppointmentSearch (continuous : bool).

(** The messages of the replies, one constructor per [res.send]. *)
Inductive message :=
| NoActiveTab                 (* "No active tab found" *)
| NavigateFirst               (* "Please navigate to the RVSQ website first" *)
| StartedSuccessfully (t : string)   (* `${result.type} automation started successfully` *)
| NotFound (t : string)       (* `Function for ${type} automation not found` *)
| FailedToStart               (* "Failed to start automation" *)
| StartedWithFallback (t : string)
| NotFoundInFallback (t : string)
| FailedWithFallback          (* "Failed to start automation with fallback methods" *)
| AutomationFailed (err : string)   (* `Automation failed: ${fallbackError.message}` *)
| HandlerError (err : string).      (* `Error: ${error.message}` *)

Record reply := Reply {
  success : bool;
  text : message
}.

(** How one [chrome.scripting.executeScript] with a [func] ends: the
    promise rejects and the function has not run, or the function has run
    and its result is, or is not, in [results[0]]. *)
Inductive execution :=
| Rejects (err : string)
| Runs (delivered : bool).

(** What the browser and the tab do during one run of the handler. *)
Record environment := Environment {
  query : string + option tab;       (* chrome.tabs.query: rejects, or the first tab *)
  file_injection : option string;    (* executeScript with [files]: its rejection *)
  main : world;                      (* the page's world, where the file runs *)
  scripting : world;                 (* the world the [func]s run in *)
  function_execution : execution;
  fallback_execution : execution;
  click_throws : bool;               (* document.body.click() throws *)
  after_click : world                (* the [func] world after the click *)
}.

(** What the handler has done: whether it threw, so that the promise it
    returned is rejected; its replies; the calls the injected file made at
    once in the main world; and the calls its [func]s made. *)
Record outcome := Outcome {
  threw : bool;
  replies : list reply;
  by_file : list started;
  by_func : list started
}.

(** The [func] of the second [executeScript]: the call it makes and the
    object it returns, [inl t] for [{ success: true, type: t }]. *)
Definition call_by_type (t : string) (c : bool) (w : world)
  : list started * (string + message) :=
  if String.eqb t "personalInfo" then
    if startPersonalInfo w then ([StartPersonalInfo], inl "personalInfo")
    else ([], inr (NotFound t))
  else if String.eqb t "appointmentSearch" then
    if startAppointmentSearch w
    then ([StartAppointmentSearch c], inl "appointmentSearch")
    else ([], inr (NotFound t))
  else
    if startAutomation w then ([StartAutomation], inl "full")
    else ([], inr (NotFound t)).

(** The [func] of the fallback [executeScript]. *)
Definition fallback_call (t : string) (c : bool) (e : environment)
  : list started * (string + message) :=
  match call_by_type t c (scripting e) with
  | (calls, inl t') => (calls, inl t')
  | (_, inr _) =>
      if click_throws e then ([], inr (NotFoundInFallback t))
      else
        let w := after_click e in
        if String.eqb t "personalInfo" && startPersonalInfo w
        then ([StartPersonalInfo], inl "personalInfo")
        else if String.eqb t "appointmentSearch" && startAppointmentSearch w
        then ([StartAppointmentSearch c], inl "appointmentSearch")
        else if startAutomation w then ([StartAutomation], inl "full")
        else ([], inr (NotFoundInFallback t))
  end.

(** The file [assets/inject-automation.js] up to its [return]: module
    [Injection]. *)
Definition file_call (w : world) : list started :=
  const StartAutomation
    <$> Injection.calls (Injection.injectAndRunAutomation 0 (startAutomation w) true).1.

(** The fallback branch, the [catch (injectionError)] block. *)
Definition fallback (t : string) (c : bool) (e : environment)
    (by_file by_func : list started) : outcome :=
  match fallback_execution e with
  | Rejects err => Outcome false [Reply false (AutomationFailed err)] by_file by_func
  | Runs delivered =>
      let '(calls, result) := fallback_call t c e in
      let r := match delivered, result with
               | true, inl t' => Reply true (StartedWithFallback t')
               | true, inr m => Reply false m
               | false, _ => Reply false FailedWithFallback
               end in
      Outcome false [r] by_file (by_func ++ calls)
  end.

(** [body.type || "full"] *)
Definition automationType (b : body) : string :=
  match type b with
  | Some t => if String.eqb t "" then "full" else t
  | None => "full"
  end.

(** The handler.  [req_body] is [None] when the request carries no body:
    [body.type] is read before the [try], so the handler throws there. *)
Definition handler (req_body : option body) (e : environment) : outcome :=
  match req_body with
  | None => Outcome true [] [] []
  | Some b =>
  let automationType := automationType b in
  let continuous := default true (continuous b) in
  match query e with
  | inl err => Outcome false [Reply false (HandlerError err)] [] []
  | inr None => Outcome false [Reply false NoActiveTab] [] []
  | inr (Some tab) =>
      match id tab with
      | None | Some 0%N => Outcome false [Reply false NoActiveTab] [] []
      | Some _ =>
          let on_site := match url tab with
                         | Some u => Dom.includes u "rvsq.gouv.qc.ca"
                         | None => false
                         end in
          if negb on_site then Outcome false [Reply false NavigateFirst] [] []
          else
            match file_injection e with
            | Some _ => fallback automationType continuous e [] []
            | None =>
                let by_file := file_call (main e) in
                match function_execution e with
                | Rejects _ => fallback automationType continuous e by_file []
                | Runs delivered =>
                    let '(calls, result) :=
                      call_by_type automationType continuous (scripting e) in
                    let r := match delivered, result with
                             | true, inl t' => Reply true (StartedSuccessfully t')
                             | true, inr m => Reply false m
                             | false, _ => Reply false FailedToStart
                             end in
                    Outcome false [r] by_file calls
                end
            end
      end
  end
  end.

(** The call that answers a request of type [t]: every type other than
    the two named ones means the full automation. *)
Definition requested (t : string) (c : bool) : started :=
  if String.eqb t "personalInfo" then StartPersonalInfo
  else if String.eqb t "appointmentSearch" then StartAppointmentSearch c
  else StartAutomation.

Lemma call_by_type_spec t c w :
  (∃ m, call_by_type t c w = ([], inr m))
  ∨ (∃ t', call_by_type t c w = ([requested t c], inl t')).
Proof.
  unfold call_by_type, requested.
  destruct (String.eqb t "personalInfo");
    [|destruct (String.eqb t "appointmentSearch")].
  - destruct (startPersonalInfo w); [right | left]; by eexists.
  - destruct (startAppointmentSearch w); [right | left]; by eexists.
  - destruct (startAutomation w); [right | left]; by eexists.
Qed.

Lemma fallback_call_spec t c e :
  (∃ m, fallback_call t c e = ([], inr m))
  ∨ (∃ t', fallback_call t c e = ([requested t c], inl t'))
  ∨ (∃ t', fallback_call t c e = ([StartAutomation], inl t')).
Proof.
  unfold fallback_call.
  destruct (call_by_type_spec t c (scripting e)) as [[m ->]|[t' ->]];
    [|right; left; by eexists].
  destruct (click_throws e); [left; by eexists|].
  unfold requested.
  destruct (String.eqb_spec t "personalInfo") as [->|Hne]; simpl.
  - destruct (startPersonalInfo (after_click e)); [right; left; by eexists|].
    destruct (startAutomation (after_click e));
      [right; right; by eexists | left; by eexists].
  - destruct (String.eqb t "appointmentSearch"); simpl.
    + destruct (startAppointmentSearch (after_click e));
        [right; left; by eexists|].
      destruct (startAutomation (after_click e));
        [right; right; by eexists | left; by eexists].
    + destruct (startAutomation (after_click e));
        [right; left; by eexists | left; by eexists].
Qed.

Lemma fallback_spec t c e by_file :
  threw (fallback t c e by_file []) = false
  ∧ ∃ r, replies (fallback t c e by_file []) = [r]
       ∧ by_file = Background.by_file (fallback t c e by_file [])
       ∧ (success r = false → by_func (fallback t c e by_file []) = []
                              ∨ fallback_execution e = Runs false)
       ∧ (success r = true →
            by_func (fallback t c e by_file []) = [requested t c]
            ∨ by_func (fallback t c e by_file []) = [StartAutomation]).
Proof.
  unfold fallback. destruct (fallback_execution e) as [err|delivered].
  - split; [done|]. eexists. simpl.
    split; [done|]. split; [done|]. split; [by left | done].
  - destruct (fallback_call_spec t c e) as [[m ->]|[[t' ->] | [t' ->]]];
      destruct delivered; (split; [done|]); eexists; simpl;
      (split; [done|]); (split; [done|]);
      (split; [intros; (by left) || (by right) | intros; done || (by left) || (by right)]).
Qed.

(** X23.  A request without a body makes the handler throw before its
    [try]: no reply is sent and nothing is started.  Every request that has
    a body is answered exactly once, whatever the browser does.  A reply
    with [success: true] means that the injected function has made exactly
    one call in the page: the one of the requested type, or, on the
    fallback path only, [startAutomation()] instead.  A reply with
    [success: false] means that it has made none, unless the result of the
    function did not come back.  The reply tells nothing of the file
    injected first: that one calls [startAutomation()] in the page's world
    whenever the function is there, whatever type was requested and
    whatever the reply says. *)
Theorem handler_replies_once (req_body : option body) (e : environment) :
  let o := handler req_body e in
  match req_body with
  | None => threw o = true ∧ replies o = [] ∧ by_file o = [] ∧ by_func o = []
  | Some b =>
      let t := automationType b in
      let c := default true (continuous b) in
      threw o = false
      ∧ ∃ r, replies o = [r]
        ∧ (success r = true →
             by_func o = [requested t c]
             ∨ (by_func o = [StartAutomation]
                ∧ (file_injection e ≠ None
                   ∨ ∃ err, function_execution e = Rejects err)))
        ∧ (success r = false →
             by_func o = [] ∨ function_execution e = Runs false
             ∨ fallback_execution e = Runs false)
        ∧ (by_file o = [] ∨ by_file o = [StartAutomation])
        ∧ (startAutomation (main e) = true →
           text r ≠ NoActiveTab → text r ≠ NavigateFirst →
           (∀ err, text r ≠ HandlerError err) →
           file_injection e = None → by_file o = [StartAutomation])
  end.
Proof.
  intros o. subst o. destruct req_body as [b|]; [|done].
  intros t c. unfold handler. fold t c.
  destruct (query e) as [err|[tb|]].
  - split; [done|]. eexists. simpl. repeat split; try done; try (by left).
    intros _ _ _ H. by specialize (H err).
  - destruct (id tb) as [[|p]|].
    + split; [done|]. eexists. simpl. repeat split; try done; by left.
    + destruct (negb _).
      * split; [done|]. eexists. simpl. repeat split; try done; by left.
      * destruct (file_injection e) as [ierr|] eqn:Hfile.
        -- destruct (fallback_spec t c e []) as (Hthrew & r & Hr & Hbf & Hfail & Hok).
           split; [done|].
           exists r. split; [done|]. split; [|split; [|split]].
           ++ intros Hs. destruct (Hok Hs) as [H|H]; [by left|].
              right. split; [done | by left].
           ++ intros Hs. destruct (Hfail Hs) as [H|H]; [by left | right; by right].
           ++ left. by rewrite <- Hbf.
           ++ done.
        -- assert (Hfc : file_call (main e)
                         = if startAutomation (main e) then [StartAutomation] else []).
           { unfold file_call. by destruct (startAutomation (main e)). }
           destruct (function_execution e) as [xerr|delivered] eqn:Hexec.
           ++ destruct (fallback_spec t c e (file_call (main e)))
                as (Hthrew & r & Hr & Hbf & Hfail & Hok).
              split; [done|].
              exists r. split; [done|]. split; [|split; [|split]].
              ** intros Hs. destruct (Hok Hs) as [H|H]; [by left|].
                 right. split; [done|]. right. by exists xerr.
              ** intros Hs. destruct (Hfail Hs) as [H|H]; [by left | right; by right].
              ** rewrite <- Hbf, Hfc.
                 destruct (startAutomation (main e)); [by right | by left].
              ** intros Hm _ _ _ _. by rewrite <- Hbf, Hfc, Hm.
           ++ destruct (call_by_type_spec t c (scripting e)) as [[m ->]|[t' ->]];
                destruct delivered; (split; [done|]); eexists; simpl;
                (split; [done|]);
                rewrite Hfc;
                (split; [intros; done || (by left)|]);
                (split; [intros; (by left) || (right; by left)|]);
                (split; [destruct (startAutomation (main e)); [by right | by left]|]);
                intros ->; done.
    + split; [done|]. eexists. simpl. repeat split; try done; by left.
  - split; [done|]. eexists. simpl. repeat split; try done; by left.
Qed.

(** The content script lives in the page's world only: the file starts the
    full automation there, the function finds nothing in its own world, and
    the popup is told that the personal-information automation it asked
    for was not found. *)
Example started_but_reported_missing :
  handler (Some (Body (Some "personalInfo") None))
    (Environment (inr (Some (Tab (Some 7%N)
                               (Some "https://rvsq.gouv.qc.ca/prendrerendezvous/Principale.aspx"))))
       None (World true true true) (World false false false)
       (Runs true) (Runs true) false (World false false false))
  = Outcome false [Reply false (NotFound "personalInfo")] [StartAutomation] [].
Proof. reflexivity. Qed.

End Background.
